(** * helPME dense matrix utility and flat-call boundary

    A shallow embedding of [src/matrix.h] (the [helpme::Matrix] template,
    its slice views and the in-place transposition helper) and of the C
    wrappers of the library, together with the properties the specification
    states about them.

    Conventions of the embedding.
    - [Real] is instantiated with the canonical rationals [Qc]: arithmetic is
      exact.  Element-agnostic code (transposition, cloning) is polymorphic.
    - Memory is a store of blocks; a matrix is a pair of dimensions and a
      pointer to a block, so that borrowed and owned matrices, and aliasing
      between them, are represented.
    - A computation returns an [outcome]: a value, a thrown
      [std::runtime_error], undefined behaviour (an access out of the bounds
      of a block, a signed overflow, a division by zero on integers), or the
      exhaustion of the fuel that bounds a loop of the model.
    - [int] is the 32-bit signed integer type. *)

From Stdlib Require Import ZArith QArith Qabs Qcanon Qcabs Lia Field String.
From stdpp Require Import base list gmap strings sorting.

#[local] Open Scope Z_scope.

(** ** Outcomes *)

Inductive outcome (A : Type) : Type :=
| Ok (a : A)
| Throw (what : string)
| Undefined
| OutOfFuel.
Arguments Ok {A} a.
Arguments Throw {A} what.
Arguments Undefined {A}.
Arguments OutOfFuel {A}.

Definition obind {A B : Type} (x : outcome A) (k : A -> outcome B) : outcome B :=
  match x with
  | Ok a => k a
  | Throw w => Throw w
  | Undefined => Undefined
  | OutOfFuel => OutOfFuel
  end.

Notation "'do' x <- e ; k" := (obind e (fun x => k))
  (at level 10, x name, e at level 100, k at level 200).
Notation "'do' ' p <- e ; k" := (obind e (fun p => k))
  (at level 10, p pattern, e at level 100, k at level 200).

Definition is_ok {A : Type} (x : outcome A) : bool :=
  match x with Ok _ => true | _ => false end.

Definition is_throw {A : Type} (x : outcome A) : bool :=
  match x with Throw _ => true | _ => false end.

(** ** The type [int] *)

Module Int.

Definition min_signed : Z := - 2 ^ 31.
Definition max_signed : Z := 2 ^ 31 - 1.

Definition in_range (z : Z) : bool := (min_signed <=? z) && (z <=? max_signed).

(** Conversion of a wider integer ([ptrdiff_t], [size_t]) to [int]. *)
Definition of_Z (z : Z) : Z := (z + 2 ^ 31) mod 2 ^ 32 - 2 ^ 31.

(** [a * b] on [int]: a signed overflow is undefined. *)
Definition mul (a b : Z) : outcome Z :=
  if in_range (a * b) then Ok (a * b) else Undefined.

(** [a % b] on [int]: truncated remainder. *)
Definition rem (a b : Z) : outcome Z :=
  if b =? 0 then Undefined
  else if (a =? min_signed) && (b =? -1) then Undefined
  else Ok (Z.rem a b).

Lemma of_Z_id z : in_range z = true -> of_Z z = z.
Proof.
  unfold in_range, of_Z, min_signed, max_signed.
  intros H. apply andb_prop in H as [H1 H2].
  apply Z.leb_le in H1. apply Z.leb_le in H2.
  rewrite Z.mod_small; lia.
Qed.

End Int.

(** ** Buffers: the elements of an iterator range *)

Section Buffer.
Context {T : Type}.

(** [*(first + i)] as an rvalue. *)
Definition load (buf : list T) (i : Z) : outcome T :=
  if i <? 0 then Undefined
  else match buf !! Z.to_nat i with
       | Some x => Ok x
       | None => Undefined
       end.

(** [*(first + i) = x]. *)
Definition store (buf : list T) (i : Z) (x : T) : outcome (list T) :=
  if i <? 0 then Undefined
  else if (Z.to_nat i <? length buf)%nat then Ok (<[Z.to_nat i := x]> buf)
  else Undefined.

(** [std::swap] of the elements [first + i] and [first + j] point to. *)
Definition swap (buf : list T) (i j : Z) : outcome (list T) :=
  do x <- load buf i;
  do y <- load buf j;
  do buf1 <- store buf i y;
  store buf1 j x.

End Buffer.

(** ** [transposeMemoryInPlace] *)

Section TransposeMemory.
Context {T : Type}.

(** The successor of [a] on its cycle:
    [a == mn1 ? mn1 : (n * a) % mn1]. *)
Definition next_index (n mn1 a : Z) : outcome Z :=
  if a =? mn1 then Ok mn1
  else do p <- Int.mul n a; Int.rem p mn1.

(** The [do ... while ((first + a) != cycle)] loop.  [cyc] is
    [cycle - first]. *)
Fixpoint follow_cycle (fuel : nat) (n mn1 cyc a : Z)
         (buf : list T) (visited : list bool) : outcome (list T * list bool) :=
  match fuel with
  | O => OutOfFuel
  | S fuel' =>
      do a' <- next_index n mn1 a;
      do buf' <- swap buf a' cyc;
      do visited' <- store visited a' true;
      if a' =? cyc then Ok (buf', visited')
      else follow_cycle fuel' n mn1 cyc a' buf' visited'
  end.

(** The [while (++cycle != last)] loop.  [cyc] is [cycle - first] before
    the increment and [len] is [last - first].  The inner loop visits at
    most [len] positions, which bounds its fuel. *)
Fixpoint scan_cycles (fuel : nat) (n mn1 len cyc : Z)
         (buf : list T) (visited : list bool) : outcome (list T) :=
  match fuel with
  | O => OutOfFuel
  | S fuel' =>
      let cyc' := cyc + 1 in
      if cyc' =? len then Ok buf
      else
        do seen <- load visited cyc';
        if seen : bool then scan_cycles fuel' n mn1 len cyc' buf visited
        else
          do '(buf', visited') <-
             follow_cycle (length buf) n mn1 cyc' (Int.of_Z cyc') buf visited;
          scan_cycles fuel' n mn1 len cyc' buf' visited'
  end.

(** [transposeMemoryInPlace(first, last, m)] on the range holding [buf]. *)
Definition transposeMemoryInPlace (buf : list T) (m : Z) : outcome (list T) :=
  let len := Z.of_nat (length buf) in
  let mn1 := Int.of_Z (len - 1) in
  if m =? 0 then Undefined
  else
    let n := Int.of_Z (Z.quot len m) in
    let visited := replicate (length buf) false in
    scan_cycles (S (length buf)) n mn1 len 0 buf visited.

End TransposeMemory.

(** ** Memory

    The store maps a block identifier to the elements of the block.  A
    pointer is a block identifier: the [data_] of a matrix points to the
    first element of its block, and the matrix covers the first
    [nRows_ * nCols_] elements of it. *)

Definition loc := positive.

Abbreviation heap T := (gmap loc (list T)).

Definition M (T A : Type) : Type := heap T -> outcome (A * heap T).

Section Monad.
Context {T : Type}.

Definition ret {A : Type} (a : A) : M T A := fun h => Ok (a, h).

Definition bind {A B : Type} (m : M T A) (k : A -> M T B) : M T B :=
  fun h => do '(a, h') <- m h; k a h'.

(** [throw std::runtime_error(what)]. *)
Definition throw {A : Type} (what : string) : M T A := fun _ => Throw what.

Definition lift {A : Type} (x : outcome A) : M T A :=
  fun h => do a <- x; Ok (a, h).

(** A new block, as [helpme::vector] allocates one. *)
Definition alloc (init : list T) : M T loc :=
  fun h => let l := fresh (dom h) in Ok (l, <[l := init]> h).

(** The [len] elements of block [l] from offset [off] on. *)
Definition get_range (l : loc) (off len : nat) : M T (list T) :=
  fun h =>
    match h !! l with
    | Some b =>
        if (off + len <=? length b)%nat then Ok (take len (drop off b), h)
        else Undefined
    | None => Undefined
    end.

(** [buf] with the elements from offset [off] on overwritten by [new]. *)
Definition overwrite (buf : list T) (off : nat) (new : list T) : outcome (list T) :=
  if (off + length new <=? length buf)%nat
  then Ok (take off buf ++ new ++ drop (off + length new) buf)
  else Undefined.

(** Overwrites the elements of block [l] from offset [off] on. *)
Definition set_range (l : loc) (off : nat) (new : list T) : M T unit :=
  fun h =>
    match h !! l with
    | Some b => do b' <- overwrite b off new; Ok (tt, <[l := b']> h)
    | None => Undefined
    end.

(** [l[i]] as an rvalue and [l[i] = x]. *)
Definition load_at (l : loc) (i : nat) : M T T :=
  fun h =>
    match h !! l with
    | Some b => do x <- load b (Z.of_nat i); Ok (x, h)
    | None => Undefined
    end.

Definition store_at (l : loc) (i : nat) (x : T) : M T unit :=
  fun h =>
    match h !! l with
    | Some b => do b' <- store b (Z.of_nat i) x; Ok (tt, <[l := b']> h)
    | None => Undefined
    end.

End Monad.

Notation "'run' x <- e ; k" := (bind e (fun x => k))
  (at level 10, x name, e at level 100, k at level 200).
Notation "'run' ' p <- e ; k" := (bind e (fun p => k))
  (at level 10, p pattern, e at level 100, k at level 200).

(** ** The class [Matrix] *)

Record Matrix : Type := mkMatrix {
  nRows_ : nat;
  nCols_ : nat;
  data_ : loc
}.

Inductive SortOrder : Type := Ascending | Descending.

(** The value a [Real] is initialised with from the literal [0]. *)
Class Zero (T : Type) : Type := zero : T.

Section MatrixStorage.
Context {T : Type} `{Zero T}.

(** [Matrix(size_t nRows, size_t nCols)]: allocates zero-initialised data. *)
Definition Matrix_new (nRows nCols : nat) : M T Matrix :=
  run l <- alloc (replicate (nRows * nCols) zero);
  ret (mkMatrix nRows nCols l).

(** [Matrix(Real* ptr, size_t nRows, size_t nCols)]: borrows the memory. *)
Definition Matrix_view (ptr : loc) (nRows nCols : nat) : Matrix :=
  mkMatrix nRows nCols ptr.

(** [Matrix(std::initializer_list<std::initializer_list<Real>> data)]. *)
Definition Matrix_of_rows (data : list (list T)) : M T Matrix :=
  let nRows := length data in
  let nCols := match data with [] => 0%nat | row :: _ => length row end in
  if forallb (fun row => (length row =? nCols)%nat) data then
    run l <- alloc (concat data);
    ret (mkMatrix nRows nCols l)
  else throw "Inconsistent row dimensions in matrix specification.".

(** [Matrix(std::initializer_list<Real> data)]: a column vector. *)
Definition Matrix_of_column (data : list T) : M T Matrix :=
  run l <- alloc data;
  ret (mkMatrix (length data) 1 l).

(** [operator()(int row, int col)], that is [*(data_ + row * nCols_ + col)].
    The product is computed in [size_t], to which [row] is converted; the
    pointer [data_ + row * nCols_] has to stay within the block or one past
    its end, and [col] is added to it as an [int]. *)
Definition element_offset (this : Matrix) (row col : Z) (b : list T) : outcome Z :=
  let skipped := ((row mod 2 ^ 64) * Z.of_nat (nCols_ this)) mod 2 ^ 64 in
  if skipped <=? Z.of_nat (length b) then Ok (skipped + col) else Undefined.

(** The value of [this(row, col)]. *)
Definition operator_call (this : Matrix) (row col : Z) : M T T :=
  fun h =>
    match h !! data_ this with
    | Some b =>
        do i <- element_offset this row col b;
        do x <- load b i; Ok (x, h)
    | None => Undefined
    end.

(** [this(row, col) = x]. *)
Definition operator_call_assign (this : Matrix) (row col : Z) (x : T) : M T unit :=
  fun h =>
    match h !! data_ this with
    | Some b =>
        do i <- element_offset this row col b;
        do b' <- store b i x; Ok (tt, <[data_ this := b']> h)
    | None => Undefined
    end.

(** The elements between [begin()] and [end()]. *)
Definition elements (this : Matrix) : M T (list T) :=
  get_range (data_ this) 0 (nRows_ this * nCols_ this).

(** [transposeInPlace]: the receiver after the call is returned. *)
Definition transposeInPlace (this : Matrix) : M T Matrix :=
  run buf <- elements this;
  run out <- lift (transposeMemoryInPlace buf (Int.of_Z (Z.of_nat (nCols_ this))));
  run _ <- set_range (data_ this) 0 out;
  ret (mkMatrix (nCols_ this) (nRows_ this) (data_ this)).

(** [clone]. *)
Definition clone (this : Matrix) : M T Matrix :=
  run newMatrix <- Matrix_new (nRows_ this) (nCols_ this);
  run src <- elements this;
  run _ <- set_range (data_ newMatrix) 0 src;
  ret newMatrix.

(** [transpose]. *)
Definition transpose (this : Matrix) : M T Matrix :=
  run copy <- clone this;
  transposeInPlace copy.

(** [assertSameSize] and [assertSquare]. *)
Definition assertSameSize (this other : Matrix) : M T unit :=
  if negb (nRows_ this =? nRows_ other)%nat || negb (nCols_ this =? nCols_ other)%nat
  then throw "Attepting to compare matrices of different sizes!"
  else ret tt.

Definition assertSquare (this : Matrix) : M T unit :=
  if negb (nRows_ this =? nCols_ this)%nat
  then throw "Attepting to perform a square matrix operation on a non-square matrix!"
  else ret tt.

End MatrixStorage.

(** What a matrix holds in a store: the elements in row-major order, when
    its block is there and long enough. *)
Definition contents {T : Type} (h : heap T) (m : Matrix) : option (list T) :=
  match h !! data_ m with
  | Some b =>
      if (nRows_ m * nCols_ m <=? length b)%nat
      then Some (take (nRows_ m * nCols_ m) b) else None
  | None => None
  end.

(** The element at row [r] and column [c]. *)
Definition entry {T : Type} (h : heap T) (m : Matrix) (r c : nat) : option T :=
  match contents h m with
  | Some buf => if (c <? nCols_ m)%nat then buf !! (r * nCols_ m + c)%nat else None
  | None => None
  end.

(** Loops over a store. *)
Fixpoint mfoldl {T A B : Type} (f : A -> B -> M T A) (a : A) (l : list B) : M T A :=
  match l with
  | [] => ret a
  | x :: l' => run a' <- f a x; mfoldl f a' l'
  end.

(** [cast<NewReal>()].  The matrix is in the store of its own element type,
    which the call reads; the copy is allocated in the store of [NewReal]
    (the same store when the two types are the same). *)
Definition cast {T NewReal : Type} `{Zero NewReal} (static_cast : T -> NewReal)
           (this : Matrix) (source : heap T) : M NewReal Matrix :=
  run newMat <- Matrix_new (nRows_ this) (nCols_ this);
  run _ <-
    mfoldl (fun _ addr =>
      run x <- lift (match source !! data_ this with
                     | Some b => load b (Z.of_nat addr)
                     | None => Undefined
                     end);
      store_at (data_ newMat) (0 * nCols_ newMat + addr) (static_cast x))
    tt (seq 0 (nRows_ this * nCols_ this));
  ret newMat.

(** ** Real matrices

    [Real] is the field of the rationals.  A division by zero, which is an
    infinity or a NaN in floating point, has the value [Qc] gives it; no
    statement below depends on it. *)

Abbreviation Real := Qc.

#[global] Instance Real_zero : Zero Real := 0%Qc.

Definition Real_ltb (x y : Real) : bool :=
  match (x ?= y)%Qc with Lt => true | _ => false end.

(** The default threshold [1e-10f] of [isNearZero] and [assertSymmetric]. *)
Definition default_threshold : Real := Q2Qc (1 # 10000000000).

(** The default tolerance [1e-6] of [almostEquals]. *)
Definition default_tolerance : Real := Q2Qc (1 # 1000000).

Section MatrixArithmetic.
#[local] Open Scope nat_scope.

(** [setConstant] and [setZero]: [std::fill(begin(), end(), value)]. *)
Definition setConstant (this : Matrix) (value : Real) : M Real unit :=
  set_range (data_ this) 0 (replicate (nRows_ this * nCols_ this) value).

Definition setZero (this : Matrix) : M Real unit := setConstant this 0%Qc.

(** [isNearZero(threshold)]. *)
Definition isNearZero (this : Matrix) (threshold : Real) : M Real bool :=
  run vals <- elements this;
  ret (negb (existsb (fun val => Real_ltb threshold (Qcabs val)) vals)).

(** [multiply]: the three nested loops, [output] being the offset of the
    output pointer from the start of the product. *)
Definition multiply (this other : Matrix) : M Real Matrix :=
  if negb (nCols_ this =? nRows_ other)
  then throw "Attempting to multiply matrices with incompatible dimensions."
  else
    run product <- Matrix_new (nRows_ this) (nCols_ other);
    run _ <-
      mfoldl (fun output row =>
        let rowPtr := row * nCols_ this in
        mfoldl (fun output col =>
          run _ <-
            mfoldl (fun _ link =>
              run x <- load_at (data_ this) (rowPtr + link);
              run y <- load_at (data_ other) (link * nCols_ other + col);
              run acc <- load_at (data_ product) output;
              store_at (data_ product) output (acc + x * y)%Qc)
            tt (seq 0 (nCols_ this));
          ret (S output))
        output (seq 0 (nCols_ other)))
      0 (seq 0 (nRows_ this));
    ret product.

(** [std::inner_product(first1, last1, first2, init)]. *)
Fixpoint std_inner_product (a b : list Real) (init : Real) : outcome Real :=
  match a, b with
  | [], _ => Ok init
  | x :: a', y :: b' => std_inner_product a' b' (init + x * y)%Qc
  | _ :: _, [] => Undefined
  end.

(** [dot]. *)
Definition dot (this other : Matrix) : M Real Real :=
  run _ <- assertSameSize this other;
  run a <- elements this;
  run b <- get_range (data_ other) 0 (length a);
  lift (std_inner_product a b 0%Qc).

(** [assertSymmetric(threshold)]. *)
Definition assertSymmetric (this : Matrix) (threshold : Real) : M Real unit :=
  run _ <- assertSquare this;
  mfoldl (fun _ row =>
    mfoldl (fun _ col =>
      run x <- load_at (data_ this) (row * nCols_ this + col);
      run y <- load_at (data_ this) (col * nCols_ this + row);
      if Real_ltb threshold (Qcabs (x - y)%Qc)
      then throw "Unexpected non-symmetric matrix found."
      else ret tt)
    tt (seq 0 row))
  tt (seq 0 (nRows_ this)).

(** [applyOperationToEachElement(function)]: [function] updates its
    argument, which is modelled by the value it leaves there. *)
Definition applyOperationToEachElement (this : Matrix) (function : Real -> Real)
  : M Real unit :=
  run old <- elements this;
  set_range (data_ this) 0 (function <$> old).

End MatrixArithmetic.
(** ** Spectral decomposition

    The eigensolver of [lapack_wrapper.h] and [std::sort] are collaborators:
    the development holds for every implementation that honours the
    contract stated here.

    [diagonalizer n a] stands for the call
    [diagonalizer()('V', 'N', n, a, n, wr, wi, vl, n, nullptr, 1, work, lwork, &info)]
    that does the work.  The call before it, with [lwork = -1], is LAPACK's
    workspace query and leaves the arrays alone.  The matrix is handed over
    in row-major order, so that eigenvector [j] is row [j] of [vl]. *)

Record geev_output : Type := mkGeev {
  geev_info : Z;
  geev_wr : list Real;
  geev_wi : list Real;
  geev_vl : list Real
}.

Class LapackWrapper : Type := {
  diagonalizer : nat -> list Real -> geev_output;
  diagonalizer_wr : forall n a, length (geev_wr (diagonalizer n a)) = n;
  diagonalizer_wi : forall n a, length (geev_wi (diagonalizer n a)) = n;
  diagonalizer_vl : forall n a, length (geev_vl (diagonalizer n a)) = (n * n)%nat
}.

(** The local [struct eigenInfo] of [diagonalize]; [vector] is the offset of
    the eigenvector in the data of [evecs]. *)
Record eigenInfo : Type := mkEigenInfo {
  valueReal : Real;
  valueImag : Real;
  vector : nat
}.

(** [eigenInfo::operator<]. *)
Definition eigenInfo_lt (a b : eigenInfo) : bool :=
  Real_ltb (valueReal a) (valueReal b).

(** [std::sort] with [operator<]: some permutation of its argument in which
    no element is less than an earlier one. *)
Class StdSort : Type := {
  std_sort : list eigenInfo -> list eigenInfo;
  std_sort_perm : forall l, std_sort l ≡ₚ l;
  std_sort_sorted :
    forall l, StronglySorted (fun a b => eigenInfo_lt b a = false) (std_sort l)
}.

Section Spectral.
Context `{LapackWrapper} `{StdSort}.
#[local] Open Scope nat_scope.

(** [diagonalize(order)].  [clone] is the local [std::vector]. *)
Definition diagonalize (this : Matrix) (order : SortOrder)
  : M Real (Matrix * Matrix * Matrix) :=
  if negb (nRows_ this =? nCols_ this)
  then throw "Attempting to diagonalize a non-square matrix."
  else
    run evalsReal <- Matrix_new (nRows_ this) 1;
    run evalsImag <- Matrix_new (nRows_ this) 1;
    run evecs <- Matrix_new (nRows_ this) (nRows_ this);
    run clone <- elements this;
    let solved := diagonalizer (nRows_ this) clone in
    run _ <- set_range (data_ evalsReal) 0 (geev_wr solved);
    run _ <- set_range (data_ evalsImag) 0 (geev_wi solved);
    run _ <- set_range (data_ evecs) 0 (geev_vl solved);
    if negb (geev_info solved =? 0)%Z
    then throw "Something went wrong during diagonalization!"
    else
      run eigenTuples <-
        mfoldl (fun tuples val =>
          run r <- load_at (data_ evalsReal) (val * nCols_ evalsReal + 0);
          run i <- load_at (data_ evalsImag) (val * nCols_ evalsImag + 0);
          ret (tuples ++ [mkEigenInfo r i (val * nCols_ evecs)]))
        [] (seq 0 (nRows_ this));
      let sorted := std_sort eigenTuples in
      let eigenTuples :=
        match order with Descending => reverse sorted | Ascending => sorted end in
      run clone <-
        mfoldl (fun clone val =>
          run e <- lift (load eigenTuples (Z.of_nat val));
          run _ <- store_at (data_ evalsReal) val (valueReal e);
          run _ <- store_at (data_ evalsImag) val (valueImag e);
          run v <- get_range (data_ evecs) (vector e) (nCols_ this);
          lift (overwrite clone (val * nCols_ this) v))
        clone (seq 0 (nRows_ this));
      run _ <- set_range (data_ evecs) 0 clone;
      run evecs <- transposeInPlace evecs;
      ret (evalsReal, evalsImag, evecs).

(** [applyOperation(function)].  The copies taken out of the tuple share
    the data of the tuple's matrices. *)
Definition applyOperation (this : Matrix) (function : Real -> Real) : M Real Matrix :=
  run _ <- assertSymmetric this default_threshold;
  run eigenPairs <- diagonalize this Ascending;
  let '(evalsReal, evalsImag, evecs) := eigenPairs in
  run nearZero <- isNearZero evalsImag default_threshold;
  if negb nearZero
  then throw "Unexpected complex eigenvalues encountered when applying operator to Matrix."
  else
    run _ <- applyOperationToEachElement evalsReal function;
    run evecsT <- transpose evecs;
    run _ <-
      mfoldl (fun _ row =>
        run transformedEigenvalue <- load_at (data_ evalsReal) (row * nCols_ evalsReal + 0);
        mfoldl (fun _ i =>
          run val <- load_at (data_ evecsT) i;
          store_at (data_ evecsT) i (val * transformedEigenvalue)%Qc)
        tt (seq (row * nCols_ this) (nCols_ this)))
      tt (seq 0 (nRows_ this));
    multiply evecs evecsT.

(** [inverse]. *)
Definition inverse (this : Matrix) : M Real Matrix :=
  run _ <- assertSquare this;
  run matrixInverse <- Matrix_new (nRows_ this) (nRows_ this);
  if nRows_ this =? 3 then
    let data_at i := load_at (data_ this) i in
    let result i x := store_at (data_ matrixInverse) i x in
    run d0 <- data_at 0; run d1 <- data_at 1; run d2 <- data_at 2;
    run d3 <- data_at 3; run d4 <- data_at 4; run d5 <- data_at 5;
    run d6 <- data_at 6; run d7 <- data_at 7; run d8 <- data_at 8;
    let determinant :=
      (d0 * (d4 * d8 - d7 * d5) - d1 * (d3 * d8 - d5 * d6)
       + d2 * (d3 * d7 - d4 * d6))%Qc in
    let determinantInverse := (1 / determinant)%Qc in
    run _ <- result 0 ((d4 * d8 - d7 * d5) * determinantInverse)%Qc;
    run _ <- result 1 ((d2 * d7 - d1 * d8) * determinantInverse)%Qc;
    run _ <- result 2 ((d1 * d5 - d2 * d4) * determinantInverse)%Qc;
    run _ <- result 3 ((d5 * d6 - d3 * d8) * determinantInverse)%Qc;
    run _ <- result 4 ((d0 * d8 - d2 * d6) * determinantInverse)%Qc;
    run _ <- result 5 ((d3 * d2 - d0 * d5) * determinantInverse)%Qc;
    run _ <- result 6 ((d3 * d7 - d6 * d4) * determinantInverse)%Qc;
    run _ <- result 7 ((d6 * d1 - d0 * d7) * determinantInverse)%Qc;
    run _ <- result 8 ((d0 * d4 - d3 * d1) * determinantInverse)%Qc;
    ret matrixInverse
  else applyOperation this (fun element => 1 / element)%Qc.

End Spectral.

(** ** [almostEquals] *)

(** [std::equal(first1, last1, first2, p)] on the elements of the ranges. *)
Fixpoint std_equal {A : Type} (p : A -> A -> bool) (a b : list A) : bool :=
  match a, b with
  | [], _ => true
  | x :: a', y :: b' => p x y && std_equal p a' b'
  | _ :: _, [] => false
  end.

(** The floating point version; [within_tolerance] is its lambda. *)
Definition within_tolerance (tolerance a b : Real) : bool :=
  (Real_ltb (a - b) tolerance && Real_ltb (- tolerance) (a - b))%Qc.

Definition almostEquals (this other : Matrix) (tolerance : Real) : M Real bool :=
  run _ <- assertSameSize this other;
  run a <- elements this;
  run b <- get_range (data_ other) 0 (length a);
  ret (std_equal (within_tolerance tolerance) a b).

(** [std::complex]. *)
Record complex : Type := mkComplex { real : Real; imag : Real }.

#[global] Instance complex_zero : Zero complex := mkComplex 0%Qc 0%Qc.

(** The complex version: [Real] is a [std::complex] there, and so is
    [tolerance]; [within_tolerance_complex] is its lambda. *)
Definition within_tolerance_complex (tol : Real) (a b : complex) : bool :=
  (Real_ltb (real a - real b) tol && Real_ltb (- tol) (real a - real b)
   && Real_ltb (imag a - imag b) tol && Real_ltb (- tol) (imag a - imag b))%Qc.

Definition almostEquals_complex (this other : Matrix) (tolerance : complex)
  : M complex bool :=
  run _ <- assertSameSize this other;
  let tol := real tolerance in
  run a <- elements this;
  run b <- get_range (data_ other) 0 (length a);
  ret (std_equal (within_tolerance_complex tol) a b).

(** ** Slices *)

(** [struct sliceIterator]: the three pointers are offsets in one block. *)
Record sliceIterator : Type := mkSlice {
  slice_block : loc;
  begin_ : nat;
  end_ : nat;
  ptr_ : nat;
  stride_ : nat
}.

Module Slice.
#[local] Open Scope nat_scope.

(** [sliceIterator(start, end, stride)]. *)
Definition make (block : loc) (start end' stride : nat) : sliceIterator :=
  mkSlice block start end' start stride.

(** [begin()] and [end()] of a slice. *)
Definition begin (s : sliceIterator) : sliceIterator :=
  make (slice_block s) (begin_ s) (end_ s) (stride_ s).

Definition end' (s : sliceIterator) : sliceIterator :=
  make (slice_block s) (end_ s) (end_ s) 0.

(** [operator!=] and [operator++]. *)
Definition neq (s other : sliceIterator) : bool := negb (ptr_ s =? ptr_ other).

Definition incr (s : sliceIterator) : sliceIterator :=
  mkSlice (slice_block s) (begin_ s) (end_ s) (ptr_ s + stride_ s) (stride_ s).

(** [operator[](size_t index)], that is [*(begin_ + index)]. *)
Definition operator_index (s : sliceIterator) (index : nat) : M Real Real :=
  load_at (slice_block s) (begin_ s + index).

(** [size()]: [std::distance(begin_, end_) / stride_] in [size_t]. *)
Definition size (s : sliceIterator) : outcome nat :=
  if stride_ s =? 0 then Undefined
  else Ok (Z.to_nat (((Z.of_nat (end_ s) - Z.of_nat (begin_ s)) mod 2 ^ 64)
                     / Z.of_nat (stride_ s))).

(** [for (auto& element : *this) element = f(element)]. *)
Fixpoint for_each_from (fuel : nat) (f : Real -> Real) (it last : sliceIterator)
  : M Real unit :=
  match fuel with
  | O => lift OutOfFuel
  | S fuel' =>
      if neq it last then
        run element <- load_at (slice_block it) (ptr_ it);
        run _ <- store_at (slice_block it) (ptr_ it) (f element);
        for_each_from fuel' f (incr it) last
      else ret tt
  end.

(** The loop dereferences a new position of the block at every iteration
    when the stride is not zero, which bounds its fuel. *)
Definition for_each (f : Real -> Real) (s : sliceIterator) : M Real unit :=
  fun h =>
    let fuel := match h !! slice_block s with Some b => S (length b) | None => 1 end in
    for_each_from fuel f (begin s) (end' s) h.

(** The scalar operators [*=], [/=], [-=] and [+=]; the slice is returned. *)
Definition mul_scalar (s : sliceIterator) (val : Real) : M Real sliceIterator :=
  run _ <- for_each (fun element => element * val)%Qc s; ret s.

Definition div_scalar (s : sliceIterator) (val : Real) : M Real sliceIterator :=
  let invVal := (1 / val)%Qc in
  run _ <- for_each (fun element => element * invVal)%Qc s; ret s.

Definition sub_scalar (s : sliceIterator) (val : Real) : M Real sliceIterator :=
  run _ <- for_each (fun element => element - val)%Qc s; ret s.

Definition add_scalar (s : sliceIterator) (val : Real) : M Real sliceIterator :=
  run _ <- for_each (fun element => element + val)%Qc s; ret s.

Definition assertSameSize (s other : sliceIterator) : M Real unit :=
  run n <- lift (size s);
  run k <- lift (size other);
  if negb (n =? k)
  then throw "Slice operations only supported for slices of the same size."
  else ret tt.

Definition assertContiguous (iter : sliceIterator) : M Real unit :=
  if negb (stride_ iter =? 1)
  then throw "Slice operations called on operation that is only allowed for contiguous data."
  else ret tt.

(** [std::transform(first1, last1, first2, d_first, op)] on pointers into
    the blocks [src1], [src2] and [dst]. *)
Definition std_transform (src1 : loc) (first1 last1 : nat) (src2 : loc) (first2 : nat)
           (dst : loc) (d_first : nat) (op : Real -> Real -> Real) : M Real unit :=
  if last1 <? first1 then lift Undefined
  else
    mfoldl (fun _ i =>
      run a <- load_at src1 (first1 + i);
      run b <- load_at src2 (first2 + i);
      store_at dst (d_first + i) (op a b))
    tt (seq 0 (last1 - first1)).

(** [operator-(const sliceIterator&)]. *)
Definition sub (s other : sliceIterator) : M Real Matrix :=
  run _ <- assertSameSize s other;
  run _ <- assertContiguous s;
  run _ <- assertContiguous other;
  run n <- lift (size s);
  run ret' <- Matrix_new 1 n;
  run _ <- std_transform (slice_block s) (begin_ s) (end_ s)
                         (slice_block other) (begin_ other)
                         (data_ ret') (0 * nCols_ ret') (fun a b => a - b)%Qc;
  ret ret'.

(** [operator-=(const sliceIterator&)] and [operator+=(const sliceIterator&)]. *)
Definition sub_assign (s other : sliceIterator) : M Real sliceIterator :=
  run _ <- assertSameSize s other;
  run _ <- assertContiguous s;
  run _ <- assertContiguous other;
  run _ <- std_transform (slice_block s) (begin_ s) (end_ s)
                         (slice_block other) (begin_ other)
                         (slice_block s) (begin_ s) (fun a b => a - b)%Qc;
  ret s.

Definition add_assign (s other : sliceIterator) : M Real sliceIterator :=
  run _ <- assertSameSize s other;
  run _ <- assertContiguous s;
  run _ <- assertContiguous other;
  run _ <- std_transform (slice_block s) (begin_ s) (end_ s)
                         (slice_block other) (begin_ other)
                         (slice_block s) (begin_ s) (fun a b => a + b)%Qc;
  ret s.

End Slice.

(** [Matrix::row] and [Matrix::col]. *)
Definition row (this : Matrix) (r : nat) : sliceIterator :=
  Slice.make (data_ this) (r * nCols_ this) ((r + 1) * nCols_ this) 1.

Definition col (this : Matrix) (c : nat) : sliceIterator :=
  Slice.make (data_ this) c (nRows_ this * nCols_ this + c) (nCols_ this).

(** A view into a live block: a nonzero stride that divides the distance
    from [begin_] to [end_], and every position the view steps on within
    the block. *)
Definition slice_valid (h : heap Real) (s : sliceIterator) : Prop :=
  stride_ s <> 0%nat /\ (begin_ s <= end_ s)%nat /\ Z.of_nat (end_ s) < 2 ^ 64 /\
  (exists n, end_ s = begin_ s + n * stride_ s)%nat /\
  exists b, h !! slice_block s = Some b /\
            forall k, (begin_ s + k * stride_ s < end_ s)%nat ->
                      (begin_ s + k * stride_ s < length b)%nat.

(** The number of elements of a valid view. *)
Definition slice_count (s : sliceIterator) : nat :=
  ((end_ s - begin_ s) / stride_ s)%nat.

(** The positions a view steps on. *)
Definition slice_position (s : sliceIterator) (i : nat) : Prop :=
  exists k, (k < slice_count s)%nat /\ i = (begin_ s + k * stride_ s)%nat.

(** ** The flat-call boundary

    [PMEInstance] and [nCartesian] are declared in [helpme.h]: the
    operations of an instance are parameters of this section.  They act on
    the state [world] of the process; a call returns a value or raises an
    exception. *)

Inductive exception : Type :=
| runtime_error (what : string)
| other_exception.

Inductive raised (A : Type) : Type :=
| Returned (a : A)
| Raised (e : exception).
Arguments Returned {A} a.
Arguments Raised {A} e.

(** What the caller of a flat-call entry point observes: a result, the end
    of the process with the lines written to [std::cerr], or an exception
    that leaves the entry point. *)
Inductive boundary (A : Type) : Type :=
| Return (a : A)
| Exit (status : Z) (cerr : list string)
| Escaped (e : exception).
Arguments Return {A} a.
Arguments Exit {A} status cerr.
Arguments Escaped {A} e.

(** A [catch] clause: whether it takes the exception, and its handler. *)
Definition handler (A : Type) : Type := exception -> option (boundary A).

(** [catch (std::runtime_error& e)] and [catch (...)]. *)
Definition catch_runtime_error {A : Type} (k : string -> boundary A) : handler A :=
  fun e => match e with runtime_error what => Some (k what) | other_exception => None end.

Definition catch_all {A : Type} (k : boundary A) : handler A := fun _ => Some k.

(** [try { body } catch ... catch ...]: the first clause that takes the
    exception handles it. *)
Fixpoint try_catch {A : Type} (body : raised A) (clauses : list (handler A)) : boundary A :=
  match body with
  | Returned a => Return a
  | Raised e =>
      match clauses with
      | [] => Escaped e
      | c :: clauses' =>
          match c e with
          | Some b => b
          | None => try_catch (Raised e) clauses'
          end
      end
  end.

(** [std::cerr << msg << std::endl; exit(status);]. *)
Definition cerr_exit {A : Type} (msg : string) (status : Z) : boundary A :=
  Exit status [msg].

Inductive LatticeType : Type := XAligned | ShapeMatrix.

(** Modelled from the spec: [nCartesian] of [helpme.h], the number of
    Cartesian multipole components at order [L], (L+1)(L+2)(L+3)/6. *)
Definition nCartesian (L : Z) : Z := Z.quot ((L + 1) * (L + 2) * (L + 3)) 6.

(** An [int] converted to [size_t]. *)
Definition size_t_of_int (z : Z) : nat := Z.to_nat (z mod 2 ^ 64).

Section Boundary.
Variables (world PMEInstanceD PMEInstanceF double float : Type).
Variable new_PMEInstanceD : world -> raised (PMEInstanceD * world).
Variable new_PMEInstanceF : world -> raised (PMEInstanceF * world).
Variable setupD :
  PMEInstanceD -> Z -> double -> Z -> Z -> Z -> Z -> double -> Z ->
  world -> raised (unit * world).
Variable setupF :
  PMEInstanceF -> Z -> float -> Z -> Z -> Z -> Z -> float -> Z ->
  world -> raised (unit * world).
Variable setLatticeVectorsD :
  PMEInstanceD -> double -> double -> double -> double -> double -> double ->
  LatticeType -> world -> raised (unit * world).
Variable setLatticeVectorsF :
  PMEInstanceF -> float -> float -> float -> float -> float -> float ->
  LatticeType -> world -> raised (unit * world).
Variable computeEFRecD :
  PMEInstanceD -> Z -> Matrix -> Matrix -> Matrix -> world -> raised (double * world).
Variable computeEFRecF :
  PMEInstanceF -> Z -> Matrix -> Matrix -> Matrix -> world -> raised (float * world).

Definition helpme_createD (w : world) : boundary (PMEInstanceD * world) :=
  try_catch (new_PMEInstanceD w)
    [catch_runtime_error (fun what => cerr_exit what 1);
     catch_all (cerr_exit "An unknown error occured in helpme_createD" 1)].

Definition helpme_createF (w : world) : boundary (PMEInstanceF * world) :=
  try_catch (new_PMEInstanceF w)
    [catch_runtime_error (fun what => cerr_exit what 1);
     catch_all (cerr_exit "An unknown error occured in helpme_createF" 1)].

Definition helpme_setupD (pme : PMEInstanceD) (rPower : Z) (kappa : double)
           (splineOrder aDim bDim cDim : Z) (scaleFactor : double) (nThreads : Z)
           (w : world) : boundary (unit * world) :=
  try_catch (setupD pme rPower kappa splineOrder aDim bDim cDim scaleFactor nThreads w)
    [catch_runtime_error (fun what => cerr_exit what 1);
     catch_all (cerr_exit "An unknown error occured in helpme_setupD" 1)].

Definition helpme_setupF (pme : PMEInstanceF) (rPower : Z) (kappa : float)
           (splineOrder aDim bDim cDim : Z) (scaleFactor : float) (nThreads : Z)
           (w : world) : boundary (unit * world) :=
  try_catch (setupF pme rPower kappa splineOrder aDim bDim cDim scaleFactor nThreads w)
    [catch_runtime_error (fun what => cerr_exit what 1);
     catch_all (cerr_exit "An unknown error occured in helpme_setupF" 1)].

Definition helpme_set_lattice_vectorsD (pme : PMEInstanceD)
           (A B C alpha beta gamma : double) (latticeType : LatticeType)
           (w : world) : boundary (unit * world) :=
  try_catch (setLatticeVectorsD pme A B C alpha beta gamma latticeType w)
    [catch_runtime_error (fun what => cerr_exit what 1);
     catch_all (cerr_exit "An unknown error occured in helpme_set_lattice_vectorsD" 1)].

Definition helpme_set_lattice_vectorsF (pme : PMEInstanceF)
           (A B C alpha beta gamma : float) (latticeType : LatticeType)
           (w : world) : boundary (unit * world) :=
  try_catch (setLatticeVectorsF pme A B C alpha beta gamma latticeType w)
    [catch_runtime_error (fun what => cerr_exit what 1);
     catch_all (cerr_exit "An unknown error occured in helpme_set_lattice_vectorsF" 1)].

Definition helpme_compute_EF_recD (pme : PMEInstanceD) (nAtoms parameterAngMom : Z)
           (parameters coordinates forces : loc) (w : world)
  : boundary (double * world) :=
  try_catch
    (let nParam := nCartesian parameterAngMom in
     let paramMat := Matrix_view parameters (size_t_of_int nAtoms) (size_t_of_int nParam) in
     let coordMat := Matrix_view coordinates (size_t_of_int nAtoms) 3 in
     let forceMat := Matrix_view forces (size_t_of_int nAtoms) 3 in
     computeEFRecD pme parameterAngMom paramMat coordMat forceMat w)
    [catch_runtime_error (fun what => cerr_exit what 1);
     catch_all (cerr_exit "An unknown error occured in helpme_run_pmeD" 1)].

Definition helpme_compute_EF_recF (pme : PMEInstanceF) (nAtoms parameterAngMom : Z)
           (parameters coordinates forces : loc) (w : world)
  : boundary (float * world) :=
  try_catch
    (let nParam := nCartesian parameterAngMom in
     let paramMat := Matrix_view parameters (size_t_of_int nAtoms) (size_t_of_int nParam) in
     let coordMat := Matrix_view coordinates (size_t_of_int nAtoms) 3 in
     let forceMat := Matrix_view forces (size_t_of_int nAtoms) 3 in
     computeEFRecF pme parameterAngMom paramMat coordMat forceMat w)
    [catch_runtime_error (fun what => cerr_exit what 1);
     catch_all (cerr_exit "An unknown error occured in helpme_run_pmeF" 1)].

End Boundary.

(** What the boundary owes its caller for a wrapped call [body]: the value
    of the call when it returns, and otherwise the end of the process with
    a nonzero status after a diagnostic on [std::cerr]. *)
Definition guarded {A : Type} (body : raised A) (result : boundary A) : Prop :=
  match body with
  | Returned a => result = Return a
  | Raised _ => exists status msg, result = Exit status [msg] /\ status <> 0
  end.

(** ** Reference collaborators

    A sort and an eigensolver to run the model on: a stable merge sort,
    and a solver that accepts diagonal matrices only, whose eigenvalues are
    the diagonal entries and whose eigenvectors are the unit vectors. *)

Definition eigenInfo_le (a b : eigenInfo) : Prop := eigenInfo_lt b a = false.

#[global] Instance eigenInfo_le_dec a b : Decision (eigenInfo_le a b).
Proof. unfold eigenInfo_le. apply _. Defined.

Definition is_diagonal (n : nat) (a : list Real) : bool :=
  forallb (fun i =>
    forallb (fun j =>
      (i =? j)%nat || match a !! (i * n + j)%nat with
                      | Some x => if Qc_eq_dec x 0%Qc then true else false
                      | None => false
                      end)
    (seq 0 n))
  (seq 0 n).

Definition diagonal_solver (n : nat) (a : list Real) : geev_output :=
  if is_diagonal n a
  then mkGeev 0
         ((fun i => default 0%Qc (a !! (i * n + i)%nat)) <$> seq 0 n)
         (replicate n 0%Qc)
         ((fun k => if (k / n =? k mod n)%nat then 1%Qc else 0%Qc) <$> seq 0 (n * n))
  else mkGeev 1 (replicate n 0%Qc) (replicate n 0%Qc) (replicate (n * n) 0%Qc).

(** ** The standard matrix product

    The reference the product of [multiply] is compared with: the element
    of row [r] and column [c] of the product of an [R] x [K] and a [K] x [C]
    matrix is the sum over the link index [k] of [a(r,k) * b(k,c)]. *)

Definition elem (buf : list Real) (i : nat) : Real := default 0%Qc (buf !! i).

Fixpoint sum_upto (n : nat) (f : nat -> Real) : Real :=
  match n with
  | O => 0%Qc
  | S k => (sum_upto k f + f k)%Qc
  end.

Definition product_entry (a b : list Real) (K C r c : nat) : Real :=
  sum_upto K (fun k => elem a (r * K + k) * elem b (k * C + c))%Qc.

(** ** The closed form of the inverse of a 3 x 3 matrix

    The reference [inverse] is compared with: the cofactors of a 3 x 3
    matrix [d], its determinant as the expansion along the first row, and
    the inverse as the transposed cofactors over the determinant. *)

Definition cofactor (d : list Real) (i j : nat) : Real :=
  (elem d (((i + 1) mod 3) * 3 + (j + 1) mod 3) * elem d (((i + 2) mod 3) * 3 + (j + 2) mod 3)
   - elem d (((i + 1) mod 3) * 3 + (j + 2) mod 3) * elem d (((i + 2) mod 3) * 3 + (j + 1) mod 3))%Qc.

Definition determinant (d : list Real) : Real :=
  sum_upto 3 (fun j => elem d j * cofactor d 0 j)%Qc.

Definition closed_form_inverse (d : list Real) (i j : nat) : Real :=
  (cofactor d j i / determinant d)%Qc.

Definition identity_entry (i j : nat) : Real := if (i =? j)%nat then 1%Qc else 0%Qc.

(** ** Eigenpairs

    What the eigensolver hands to [diagonalize], and the order in which
    [diagonalize] returns it. *)

(** The tuples [diagonalize] builds from the output of the solver. *)
Definition solver_tuples (n : nat) (solved : geev_output) : list eigenInfo :=
  (fun val => mkEigenInfo (elem (geev_wr solved) val) (elem (geev_wi solved) val)
                          (val * n)) <$> seq 0 n.

(** The tuples after [std::sort] and, for a descending order,
    [std::reverse]. *)
Definition ordered_tuples `{StdSort} (order : SortOrder) (tuples : list eigenInfo)
  : list eigenInfo :=
  match order with
  | Descending => reverse (std_sort tuples)
  | Ascending => std_sort tuples
  end.

(** An eigenvalue with its eigenvector. *)
Definition eigenpair : Type := Real * Real * list Real.

(** The eigenpair of a tuple: [vl] holds the eigenvectors by row. *)
Definition eigenpair_of (n : nat) (vl : list Real) (e : eigenInfo) : eigenpair :=
  (valueReal e, valueImag e, take n (drop (vector e) vl)).

(** Column [k] of an [n] x [n] matrix. *)
Definition column (n : nat) (m : list Real) (k : nat) : list Real :=
  (fun r => elem m (r * n + k)) <$> seq 0 n.

(** The eigenpairs a result of [diagonalize] holds: eigenvalue [k] with
    column [k] of the matrix of eigenvectors. *)
Definition result_eigenpairs (n : nat) (re im vecs : list Real) : list eigenpair :=
  (fun k => (elem re k, elem im k, column n vecs k)) <$> seq 0 n.

(** Monotone sequences of eigenvalues. *)
Definition ascending (l : list Real) : Prop :=
  forall i j x y, (i <= j)%nat -> l !! i = Some x -> l !! j = Some y -> (x <= y)%Qc.

Definition descending (l : list Real) : Prop :=
  forall i j x y, (i <= j)%nat -> l !! i = Some x -> l !! j = Some y -> (y <= x)%Qc.

Definition strictly_ascending (l : list Real) : Prop :=
  forall i j x y, (i < j)%nat -> l !! i = Some x -> l !! j = Some y -> (x < y)%Qc.

Definition strictly_descending (l : list Real) : Prop :=
  forall i j x y, (i < j)%nat -> l !! i = Some x -> l !! j = Some y -> (y < x)%Qc.

Definition monotone (order : SortOrder) (l : list Real) : Prop :=
  match order with Ascending => ascending l | Descending => descending l end.

Definition strictly_monotone (order : SortOrder) (l : list Real) : Prop :=
  match order with
  | Ascending => strictly_ascending l
  | Descending => strictly_descending l
  end.

(** ** Symmetry and near-zero tests *)

(** What [assertSymmetric(threshold)] accepts. *)
Definition symmetric_within (threshold : Real) (n : nat) (a : list Real) : Prop :=
  forall row col, (col < row)%nat -> (row < n)%nat ->
    (Qcabs (elem a (row * n + col) - elem a (col * n + row)) <= threshold)%Qc.

(** The element of row [i] and column [j] of [V * diag(f lam) * V^T] for an
    [n] x [n] matrix [V]. *)
Definition recomposed_entry (f : Real -> Real) (n : nat) (lam V : list Real) (i j : nat)
  : Real :=
  sum_upto n (fun k => elem V (i * n + k) * (elem V (j * n + k) * f (elem lam k)))%Qc.

(** The value-returning operations, and a call of one of them with the
    matrices it returns. *)
Inductive value_returning : Type :=
  | Inverse
  | Transpose
  | Clone
  | Diagonalize (order : SortOrder).

Definition call `{LapackWrapper} `{StdSort} (op : value_returning) (this : Matrix)
  : M Real (list Matrix) :=
  match op with
  | Inverse => run result <- inverse this; ret [result]
  | Transpose => run result <- transpose this; ret [result]
  | Clone => run result <- clone this; ret [result]
  | Diagonalize order =>
      run result <- diagonalize this order;
      let '(evalsReal, evalsImag, evecs) := result in
      ret [evalsReal; evalsImag; evecs]
  end.

(** * Specification *)

(** ** The transposition permutation

    In a row-major [R] x [C] buffer the element of row [r] and column [c]
    is at position [r * C + c]; after transposition it is at position
    [c * R + r]. *)

Definition transposed_index (R C a : nat) : nat := ((a mod C) * R + a / C)%nat.

(** ** Reasoning about computations on the store

    [wpg m h Q E U]: from the store [h], the computation [m] returns a
    value and a store that satisfy [Q], or throws an error that satisfies
    [E], or, its behaviour being undefined or its fuel exhausted, [U] holds.
    With [E] and [U] false this is total correctness. *)

Definition wpg {T A : Type} (m : M T A) (h : heap T)
           (Q : A -> heap T -> Prop) (E : string -> Prop) (U : Prop) : Prop :=
  match m h with
  | Ok (a, h') => Q a h'
  | Throw what => E what
  | Undefined | OutOfFuel => U
  end.

Abbreviation wp_total m h Q := (wpg m h Q (fun _ => False) False).

(** [wlp m h Q]: whenever [m] returns from the store [h], its value and
    its store satisfy [Q]. *)
Abbreviation wlp m h Q := (wpg m h Q (fun _ => True) True).

(** ** Frames *)

(** Every block of [h0] is in [h], with the same elements. *)
Definition kept {T : Type} (h0 h : heap T) : Prop :=
  forall l b, h0 !! l = Some b -> h !! l = Some b.

(** ** Slices and stores *)

(** The three checks that open every slice-with-slice operator. *)
Definition slice_checks (s other : sliceIterator) : M Real unit :=
  run _ <- Slice.assertSameSize s other;
  run _ <- Slice.assertContiguous s;
  Slice.assertContiguous other.

(** Two stores have the same shape when they have the same blocks, of the
    same lengths: what [std::transform] needs to run, whatever the overlap
    of its three ranges. *)
Definition same_shape (h h' : heap Real) : Prop :=
  forall l, length <$> (h' !! l) = length <$> (h !! l).

(** The store while [diagonalize] runs: the three blocks it allocated, and
    the store it started from everywhere else. *)
Record three_blocks (h : heap Real) (l1 l2 l3 : loc) (b1 b2 b3 : list Real)
       (h' : heap Real) : Prop := {
  tb_1 : h' !! l1 = Some b1;
  tb_2 : h' !! l2 = Some b2;
  tb_3 : h' !! l3 = Some b3;
  tb_frame : forall l, l <> l1 -> l <> l2 -> l <> l3 -> h' !! l = h !! l
}.

(** The scalar operators and what each does to an element. *)
Definition scalar_operators (val : Real)
  : list ((sliceIterator -> Real -> M Real sliceIterator) * (Real -> Real)) :=
  [(Slice.mul_scalar, fun x => x * val);
   (Slice.div_scalar, fun x => x / val);
   (Slice.sub_scalar, fun x => x - val);
   (Slice.add_scalar, fun x => x + val)]%Qc.

(** ** Sample inputs *)

Module Sample.

(** The coordinates of 100000 atoms, a 100000 x 3 matrix of zeros. *)
Definition coordinates : Matrix := mkMatrix (Z.to_nat 100000) 3 1%positive.

Definition coordinates_store : heap Real :=
  {[ 1%positive := replicate (Z.to_nat 300000) 0%Qc ]}.

(** A matrix with no element. *)
Definition empty : Matrix := mkMatrix 0 3 1%positive.

Definition empty_store : heap Real := {[ 1%positive := [] ]}.

(** Integers as elements. *)
Definition reals (a : list Z) : list Real := (fun z => Q2Qc (inject_Z z)) <$> a.

(** A matrix over the elements [a] in the only block of a store. *)
Definition store_of (a : list Real) : heap Real := {[ 1%positive := a ]}.

Definition square (n : nat) : Matrix := mkMatrix n n 1%positive.

(** [[2, 0, 1], [3, 1, 0], [0, 4, 1]]. *)
Definition m3 : list Real := reals [2; 0; 1; 3; 1; 0; 0; 4; 1].

(** The 2 x 2 identity, the 2 x 2 zero matrix, [diag(2, 4)] and
    [diag(3, 1, 2)]. *)
Definition identity2 : list Real := reals [1; 0; 0; 1].
Definition zero2 : list Real := reals [0; 0; 0; 0].
Definition diag24 : list Real := reals [2; 0; 0; 4].
Definition diag312 : list Real := reals [3; 0; 0; 0; 1; 0; 0; 0; 2].

(** Two 2 x 3 matrices in the blocks of one store. *)
Definition lhs : Matrix := mkMatrix 2 3 1%positive.
Definition rhs : Matrix := mkMatrix 2 3 2%positive.

Definition lhs_elements : list Real := reals [1; 2; 3; 4; 5; 6].
Definition rhs_elements : list Real := reals [6; 5; 4; 3; 2; 1].

Definition two_store : heap Real :=
  {[ 1%positive := lhs_elements; 2%positive := rhs_elements ]}.

(** The elements of [rhs] as a 3 x 2 matrix. *)
Definition rhs_3x2 : Matrix := mkMatrix 3 2 2%positive.

(** The same two matrices over complex elements. *)
Definition two_complex_store : heap complex :=
  {[ 1%positive := replicate 6 (mkComplex 1 0)%Qc;
     2%positive := replicate 6 (mkComplex 1 1)%Qc ]}.

(** [Sample.m3] and the 3 x 3 identity in the blocks of one store. *)
Definition identity3 : list Real := reals [1; 0; 0; 0; 1; 0; 0; 0; 1].
Definition unit3 : Matrix := mkMatrix 3 3 2%positive.

Definition m3_store : heap Real := {[ 1%positive := m3; 2%positive := identity3 ]}.

(** A row vector of three elements. *)
Definition row3 : Matrix := mkMatrix 1 3 1%positive.

End Sample.

(** * Properties *)

(** ** Buffer accesses within bounds *)

Section BufferFacts.
Context {T : Type}.
Implicit Types (buf : list T) (i j : nat).

Lemma load_of_nat buf i x : buf !! i = Some x -> load buf (Z.of_nat i) = Ok x.
Proof.
  intros H. unfold load.
  destruct (Z.ltb_spec (Z.of_nat i) 0) as [Hneg|_]; [lia|].
  by rewrite Nat2Z.id, H.
Qed.

Lemma store_of_nat buf i x :
  (i < length buf)%nat -> store buf (Z.of_nat i) x = Ok (<[i := x]> buf).
Proof.
  intros H. unfold store.
  destruct (Z.ltb_spec (Z.of_nat i) 0) as [Hneg|_]; [lia|].
  rewrite Nat2Z.id.
  destruct (Nat.ltb_spec i (length buf)) as [_|Hge]; [done|lia].
Qed.

Lemma swap_of_nat buf i j x y :
  buf !! i = Some x -> buf !! j = Some y ->
  swap buf (Z.of_nat i) (Z.of_nat j) = Ok (<[j := x]> (<[i := y]> buf)).
Proof.
  intros Hi Hj. unfold swap.
  rewrite (load_of_nat _ _ _ Hi), (load_of_nat _ _ _ Hj). simpl.
  rewrite store_of_nat by (by eapply lookup_lt_Some). simpl.
  apply store_of_nat. rewrite length_insert. by eapply lookup_lt_Some.
Qed.

Lemma swap_same buf i x : buf !! i = Some x -> swap buf (Z.of_nat i) (Z.of_nat i) = Ok buf.
Proof.
  intros Hi. rewrite (swap_of_nat _ _ _ _ _ Hi Hi).
  rewrite list_insert_id; [by rewrite list_insert_id|].
  by rewrite list_insert_id.
Qed.

End BufferFacts.

(** ** Following the cycles of a permutation

    The two loops of [transposeMemoryInPlace], for any successor function
    [sigma] that permutes the positions below [N] and fixes position 0:
    the element at position [a] ends at position [sigma a]. *)

Section CycleFollowing.
Context {T : Type}.
Variables (N : nat) (sigma : nat -> nat) (n mn1 : Z).
Hypothesis N_int : Z.of_nat N <= Int.max_signed.
Hypothesis sigma_lt : forall a, (a < N)%nat -> (sigma a < N)%nat.
Hypothesis sigma_inj :
  forall a b, (a < N)%nat -> (b < N)%nat -> sigma a = sigma b -> a = b.
Hypothesis sigma_0 : sigma 0%nat = 0%nat.
Hypothesis next_sigma :
  forall a, (a < N)%nat -> next_index n mn1 (Z.of_nat a) = Ok (Z.of_nat (sigma a)).
Variable inp : list T.
Hypothesis inp_length : length inp = N.

#[local] Open Scope nat_scope.

(** The state between two cycles: visited positions hold their final
    element, the others their original one, and the visited set is a union
    of cycles. *)
Record scanned (buf : list T) (visited : list bool) : Prop := {
  sc_len_buf : length buf = N;
  sc_len_vis : length visited = N;
  sc_done : forall a, a < N -> visited !! sigma a = Some true ->
                      buf !! sigma a = inp !! a;
  sc_todo : forall a, a < N -> visited !! a = Some false -> buf !! a = inp !! a;
  sc_closed : forall a, a < N -> visited !! sigma a = visited !! a
}.

Section OneCycle.
Variables (s : nat) (buf0 : list T) (vis0 : list bool).
Hypothesis s_lt : s < N.
Hypothesis start : scanned buf0 vis0.
Hypothesis s_fresh : vis0 !! s = Some false.

(** The [j]-th position on the cycle of [s]. *)
Definition orb (j : nat) : nat := Nat.iter j sigma s.

Lemma orb_S j : orb (S j) = sigma (orb j).
Proof. reflexivity. Qed.

Lemma orb_lt j : orb j < N.
Proof. induction j; [exact s_lt|]. rewrite orb_S. by apply sigma_lt. Qed.

Lemma orb_fresh j : vis0 !! orb j = Some false.
Proof.
  induction j; [exact s_fresh|].
  rewrite orb_S, (sc_closed _ _ start); [done|apply orb_lt].
Qed.

Lemma orb_untouched j : buf0 !! orb j = inp !! orb j.
Proof. apply (sc_todo _ _ start); [apply orb_lt|apply orb_fresh]. Qed.

Lemma orb_back i j : orb (j + i) = orb i -> orb j = s.
Proof.
  induction i as [|i IH]; [by rewrite Nat.add_0_r|].
  rewrite Nat.add_succ_r, !orb_S. intros H.
  apply IH, sigma_inj; [apply orb_lt..|done].
Qed.

(** While the cycle has not come back to [s], its positions are distinct. *)
Lemma orb_distinct k i j :
  (forall l, 1 <= l <= k -> orb l <> s) -> i <= k -> j <= k -> orb i = orb j -> i = j.
Proof.
  intros Hopen Hi Hj Heq.
  destruct (Nat.lt_trichotomy i j) as [Hlt|[->|Hlt]]; [exfalso| done |exfalso].
  - apply (Hopen (j - i)); [lia|]. apply (orb_back i).
    by replace (j - i + i) with j by lia.
  - apply (Hopen (i - j)); [lia|]. apply (orb_back j).
    by replace (i - j + j) with i by lia.
Qed.

Lemma orb_bounded k : (forall l, 1 <= l <= k -> orb l <> s) -> k < N.
Proof.
  intros Hopen.
  assert (Hnd : NoDup (orb <$> seq 0 (S k))).
  { apply NoDup_fmap_2_strong; [|apply NoDup_seq].
    intros i j Hi%elem_of_seq Hj%elem_of_seq. apply (orb_distinct k); [done|lia..]. }
  assert (Hsub : orb <$> seq 0 (S k) ⊆+ seq 0 N).
  { apply NoDup_submseteq; [done|]. intros x (j & -> & _)%list_elem_of_fmap.
    apply elem_of_seq. pose proof (orb_lt j). lia. }
  apply submseteq_length in Hsub.
  rewrite length_fmap, !length_seq in Hsub. lia.
Qed.

(** The state after [k] iterations of the inner loop. *)
Record cycling (k : nat) (buf : list T) (vis : list bool) : Prop := {
  cy_len_buf : length buf = N;
  cy_len_vis : length vis = N;
  cy_vis_chain : forall j, 1 <= j <= k -> vis !! orb j = Some true;
  cy_vis_other : forall x, (forall j, 1 <= j <= k -> x <> orb j) -> vis !! x = vis0 !! x;
  cy_buf_chain : forall j, 1 <= j <= k -> buf !! orb j = inp !! orb (j - 1);
  cy_buf_start : buf !! s = inp !! orb k;
  cy_buf_other : forall x, x <> s -> (forall j, 1 <= j <= k -> x <> orb j) ->
                           buf !! x = buf0 !! x
}.

Lemma cycling_0 : cycling 0 buf0 vis0.
Proof.
  split; try (intros; lia); try done.
  - apply start.
  - apply start.
  - apply (orb_untouched 0).
Qed.

Lemma on_chain_dec k x :
  (exists j, 1 <= j <= k /\ x = orb j) \/ (forall j, 1 <= j <= k -> x <> orb j).
Proof.
  induction k as [|k [(j & Hj & ->)|IH]].
  - right. intros; lia.
  - left. exists j. split; [lia|done].
  - destruct (decide (x = orb (S k))) as [->|Hne].
    + left. exists (S k). split; [lia|done].
    + right. intros j Hj. destruct (decide (j = S k)) as [->|]; [done|].
      apply IH. lia.
Qed.

Lemma cycling_step k buf vis x y :
  cycling k buf vis -> (forall l, 1 <= l <= S k -> orb l <> s) ->
  buf !! orb (S k) = Some x -> buf !! s = Some y ->
  cycling (S k) (<[s := x]> (<[orb (S k) := y]> buf)) (<[orb (S k) := true]> vis).
Proof.
  intros Hc Hopen Hx Hy.
  assert (Hopen' : forall l, 1 <= l <= k -> orb l <> s) by (intros; apply Hopen; lia).
  assert (Hnew : forall j, j <= k -> orb j <> orb (S k)).
  { intros j Hj Heq. apply (orb_distinct (S k)) in Heq; [lia|done|lia..]. }
  split.
  - rewrite !length_insert. apply Hc.
  - rewrite length_insert. apply Hc.
  - intros j Hj. destruct (decide (j = S k)) as [->|Hne].
    + apply list_lookup_insert_eq. rewrite (cy_len_vis _ _ _ Hc). apply orb_lt.
    + rewrite list_lookup_insert_ne by (intros Heq; apply (Hnew j); [lia|done]).
      apply Hc. lia.
  - intros z Hz. rewrite list_lookup_insert_ne by (intros Heq; apply (Hz (S k)); [lia|done]).
    apply Hc. intros j Hj. apply Hz. lia.
  - intros j Hj.
    rewrite list_lookup_insert_ne by (intros Heq; apply (Hopen j); [lia|done]).
    destruct (decide (j = S k)) as [->|Hne].
    + rewrite list_lookup_insert_eq by (rewrite (cy_len_buf _ _ _ Hc); apply orb_lt).
      rewrite <- Hy, (cy_buf_start _ _ _ Hc). by replace (S k - 1) with k by lia.
    + rewrite list_lookup_insert_ne by (intros Heq; apply (Hnew j); [lia|done]).
      apply Hc. lia.
  - rewrite list_lookup_insert_eq by (rewrite length_insert, (cy_len_buf _ _ _ Hc); exact s_lt).
    rewrite <- Hx, (cy_buf_other _ _ _ Hc), orb_untouched; [done| |].
    + apply Hopen. lia.
    + intros j Hj Heq. apply (Hnew j); [lia|done].
  - intros z Hzs Hz.
    rewrite list_lookup_insert_ne by done.
    rewrite list_lookup_insert_ne by (intros Heq; apply (Hz (S k)); [lia|done]).
    apply Hc; [done|]. intros j Hj. apply Hz. lia.
Qed.

Lemma cycling_close k buf vis :
  cycling k buf vis -> (forall l, 1 <= l <= k -> orb l <> s) -> orb (S k) = s ->
  scanned buf (<[s := true]> vis).
Proof.
  intros Hc Hopen Hback.
  assert (Hs_vis : <[s := true]> vis !! s = Some true).
  { apply list_lookup_insert_eq. by rewrite (cy_len_vis _ _ _ Hc). }
  assert (Hon : forall z, z = s \/ (exists j, 1 <= j <= k /\ z = orb j) ->
                          <[s := true]> vis !! z = Some true).
  { intros z [->|(j & Hj & ->)]; [done|].
    rewrite list_lookup_insert_ne by (intros Heq; by apply (Hopen j)). by apply Hc. }
  assert (Hoff : forall z, z <> s -> (forall j, 1 <= j <= k -> z <> orb j) ->
                           <[s := true]> vis !! z = vis0 !! z).
  { intros z Hzs Hz. rewrite list_lookup_insert_ne by done. by apply Hc. }
  assert (Hpred : forall a, a < N -> sigma a = s -> a = orb k).
  { intros a Ha Heq. apply sigma_inj; [done|apply orb_lt|]. by rewrite <- orb_S, Hback. }
  assert (Hpred' : forall a j, a < N -> sigma a = orb (S j) -> a = orb j).
  { intros a j Ha Heq. apply sigma_inj; [done|apply orb_lt|done]. }
  split.
  - apply Hc.
  - rewrite length_insert. apply Hc.
  - intros a Ha Hv. destruct (decide (sigma a = s)) as [Heq|Hne].
    + rewrite Heq, (Hpred a Ha Heq). apply Hc.
    + destruct (on_chain_dec k (sigma a)) as [(j & Hj & Heq)|Hz].
      * destruct j as [|j]; [lia|]. rewrite Heq, (Hpred' a j Ha Heq).
        rewrite (cy_buf_chain _ _ _ Hc) by done. by replace (S j - 1) with j by lia.
      * rewrite Hoff in Hv by done.
        rewrite (cy_buf_other _ _ _ Hc) by done. by apply (sc_done _ _ start).
  - intros a Ha Hv. destruct (decide (a = s)) as [->|Hne]; [congruence|].
    destruct (on_chain_dec k a) as [Hin|Hz].
    + rewrite Hon in Hv by auto. congruence.
    + rewrite Hoff in Hv by done.
      rewrite (cy_buf_other _ _ _ Hc) by done. by apply (sc_todo _ _ start).
  - intros a Ha.
    assert (Hiff : (a = s \/ (exists j, 1 <= j <= k /\ a = orb j)) <->
                   (sigma a = s \/ (exists j, 1 <= j <= k /\ sigma a = orb j))).
    { split.
      - intros [->|(j & Hj & ->)].
        + destruct k as [|k']; [by left|]. right. exists 1. split; [lia|done].
        + destruct (decide (j = k)) as [->|Hjk]; [by left|].
          right. exists (S j). split; [lia|done].
      - intros [Heq|(j & Hj & Heq)].
        + rewrite (Hpred a Ha Heq). destruct k as [|k']; [by left|].
          right. exists (S k'). split; [lia|done].
        + destruct j as [|j]; [lia|]. rewrite (Hpred' a j Ha Heq).
          destruct j as [|j]; [by left|]. right. exists (S j). split; [lia|done]. }
    destruct (decide (a = s)) as [Has|Has].
    { rewrite !Hon; [done|by left|apply Hiff; by left]. }
    destruct (on_chain_dec k a) as [Hin|Hz].
    { rewrite !Hon; [done|by right|apply Hiff; by right]. }
    assert (Hout : ~ (sigma a = s \/ (exists j, 1 <= j <= k /\ sigma a = orb j))).
    { intros H. apply Hiff in H as [?|(j & Hj & ?)]; [done|]. by apply (Hz j). }
    rewrite !Hoff; [by apply (sc_closed _ _ start)|done|done|tauto|].
    intros j Hj Heq. apply Hout. right. by exists j.
Qed.

Lemma follow_cycle_spec fuel : forall k buf vis,
  k + fuel = N -> cycling k buf vis -> (forall l, 1 <= l <= k -> orb l <> s) ->
  exists buf' vis',
    follow_cycle fuel n mn1 (Z.of_nat s) (Z.of_nat (orb k)) buf vis = Ok (buf', vis') /\
    scanned buf' vis' /\ vis' !! s = Some true /\
    (forall x, vis0 !! x = Some true -> vis' !! x = Some true).
Proof.
  induction fuel as [|fuel IH]; intros k buf vis Hfuel Hc Hopen.
  { pose proof (orb_bounded k Hopen). lia. }
  cbn [follow_cycle]. rewrite next_sigma by apply orb_lt.
  cbn [obind]. rewrite <- orb_S.
  destruct (lookup_lt_is_Some_2 buf (orb (S k))) as [x Hx].
  { rewrite (cy_len_buf _ _ _ Hc). apply orb_lt. }
  destruct (lookup_lt_is_Some_2 buf s) as [y Hy].
  { by rewrite (cy_len_buf _ _ _ Hc). }
  rewrite (swap_of_nat _ _ _ _ _ Hx Hy). cbn [obind].
  rewrite store_of_nat by (rewrite (cy_len_vis _ _ _ Hc); apply orb_lt). cbn [obind].
  destruct (Z.eqb_spec (Z.of_nat (orb (S k))) (Z.of_nat s)) as [Heq%Nat2Z.inj|Hne].
  - rewrite !Heq in *.
    assert (x = y) as -> by congruence.
    rewrite (list_insert_id buf s y), (list_insert_id buf s y) by done.
    exists buf, (<[s := true]> vis). split; [done|].
    split; [by apply (cycling_close k)|]. split.
    + apply list_lookup_insert_eq. by rewrite (cy_len_vis _ _ _ Hc).
    + intros z Hz. destruct (decide (z = s)) as [->|Hzs]; [congruence|].
      rewrite list_lookup_insert_ne by done.
      destruct (on_chain_dec k z) as [(j & Hj & ->)|Hoff]; [by apply Hc|].
      by rewrite (cy_vis_other _ _ _ Hc).
  - assert (Hopen' : forall l, 1 <= l <= S k -> orb l <> s).
    { intros l Hl. destruct (decide (l = S k)) as [->|]; [congruence|]. apply Hopen. lia. }
    apply (IH (S k)); [lia| |done]. by apply cycling_step.
Qed.

End OneCycle.

Lemma scanned_initial : scanned inp (replicate N false).
Proof.
  split.
  - exact inp_length.
  - apply length_replicate.
  - intros a Ha Hv. apply lookup_replicate in Hv as [? _]. done.
  - done.
  - intros a Ha. by rewrite !lookup_replicate_2 by auto.
Qed.

Lemma scanned_final buf vis :
  scanned buf vis -> (forall x, 1 <= x < N -> vis !! x = Some true) ->
  forall a, a < N -> buf !! sigma a = inp !! a.
Proof.
  intros Hsc Hall a Ha. destruct (decide (sigma a = 0)) as [H0|H0].
  - assert (a = 0) as -> by (apply sigma_inj; [done|lia|by rewrite sigma_0]).
    rewrite sigma_0.
    destruct (lookup_lt_is_Some_2 vis 0) as [[] Hv]; [rewrite (sc_len_vis _ _ Hsc); lia|..].
    + rewrite <- sigma_0 at 1. apply Hsc; [done|by rewrite sigma_0].
    + by apply Hsc.
  - apply Hsc; [done|]. apply Hall. pose proof (sigma_lt a Ha). lia.
Qed.

Lemma scan_cycles_spec fuel : forall c buf vis,
  c + fuel = S N -> c < N -> scanned buf vis ->
  (forall x, 1 <= x <= c -> vis !! x = Some true) ->
  exists out,
    scan_cycles fuel n mn1 (Z.of_nat N) (Z.of_nat c) buf vis = Ok out /\
    length out = N /\ forall a, a < N -> out !! sigma a = inp !! a.
Proof.
  induction fuel as [|fuel IH]; intros c buf vis Hfuel Hc Hsc Hall; [lia|].
  cbn [scan_cycles]. replace (Z.of_nat c + 1)%Z with (Z.of_nat (S c)) by lia.
  destruct (Z.eqb_spec (Z.of_nat (S c)) (Z.of_nat N)) as [Heq%Nat2Z.inj|Hne].
  - exists buf. split; [done|]. split; [apply Hsc|].
    apply (scanned_final buf vis Hsc). intros x Hx. apply Hall. lia.
  - assert (Hlt : S c < N) by lia.
    destruct (lookup_lt_is_Some_2 vis (S c)) as [seen Hseen].
    { by rewrite (sc_len_vis _ _ Hsc). }
    rewrite (load_of_nat _ _ _ Hseen). cbn [obind]. destruct seen.
    + apply IH; [lia|done|done|].
      intros x Hx. destruct (decide (x = S c)) as [->|]; [done|]. apply Hall. lia.
    + rewrite Int.of_Z_id, (sc_len_buf _ _ Hsc).
      2:{ unfold Int.in_range, Int.max_signed, Int.min_signed in *.
          apply andb_true_intro. split; apply Z.leb_le; lia. }
      destruct (follow_cycle_spec (S c) buf vis Hlt Hsc Hseen N 0 buf vis)
        as (buf' & vis' & Hrun & Hsc' & Hs & Hmono).
      * lia.
      * by apply cycling_0.
      * intros; lia.
      * change (orb (S c) 0) with (S c) in Hrun. rewrite Hrun. cbn [obind].
        apply IH; [lia|done|done|].
        intros x Hx. destruct (decide (x = S c)) as [->|]; [done|].
        apply Hmono, Hall. lia.
Qed.

(** Both loops, from the initial state. *)
Lemma cycles_permute :
  1 <= N ->
  exists out,
    scan_cycles (S N) n mn1 (Z.of_nat N) 0 inp (replicate N false) = Ok out /\
    length out = N /\ forall a, a < N -> out !! sigma a = inp !! a.
Proof.
  intros HN. apply (scan_cycles_spec (S N) 0); [lia|lia|apply scanned_initial|].
  intros; lia.
Qed.

End CycleFollowing.

(** ** The transposition permutation *)

Section TransposedIndex.
#[local] Open Scope nat_scope.

Lemma transposed_index_rc R C r c :
  r < R -> c < C -> transposed_index R C (r * C + c) = c * R + r.
Proof.
  intros Hr Hc. unfold transposed_index.
  replace ((r * C + c) mod C) with c.
  2:{ by rewrite Nat.add_comm, Nat.Div0.mod_add, Nat.mod_small. }
  replace ((r * C + c) / C) with r; [done|].
  rewrite Nat.div_add_l by lia. rewrite Nat.div_small by done. lia.
Qed.

Lemma index_split R C a :
  a < R * C -> a = a / C * C + a mod C /\ a / C < R /\ a mod C < C.
Proof.
  intros Ha. assert (HC : C <> 0) by (intros ->; lia).
  pose proof (Nat.div_mod_eq a C) as Hdm.
  assert (Hc : a mod C < C) by (by apply Nat.mod_upper_bound).
  split; [lia|]. split; [|done].
  apply Nat.Div0.div_lt_upper_bound. lia.
Qed.

Lemma transposed_index_lt R C a : a < R * C -> transposed_index R C a < R * C.
Proof.
  intros (Ha & Hr & Hc)%index_split. unfold transposed_index. nia.
Qed.

Lemma transposed_index_inv R C a :
  a < R * C -> transposed_index C R (transposed_index R C a) = a.
Proof.
  intros Ha. destruct (index_split R C a Ha) as (Hdm & Hr & Hc).
  rewrite Hdm at 1. rewrite transposed_index_rc by done.
  rewrite transposed_index_rc by done. lia.
Qed.

Lemma transposed_index_inj R C a b :
  a < R * C -> b < R * C ->
  transposed_index R C a = transposed_index R C b -> a = b.
Proof.
  intros Ha Hb Heq.
  rewrite <- (transposed_index_inv R C a), <- (transposed_index_inv R C b) by done.
  by rewrite Heq.
Qed.

Lemma index_unique C r c r' c' :
  c < C -> c' < C -> r * C + c = r' * C + c' -> r = r' /\ c = c'.
Proof.
  intros Hc Hc' Heq.
  assert (Hr : (r * C + c) / C = r).
  { rewrite Nat.div_add_l by lia. rewrite Nat.div_small by done. lia. }
  assert (Hr' : (r' * C + c') / C = r').
  { rewrite Nat.div_add_l by lia. rewrite Nat.div_small by done. lia. }
  rewrite Heq, Hr' in Hr. subst r'. split; [done|lia].
Qed.

Lemma transposed_index_0 R C : transposed_index R C 0 = 0.
Proof.
  unfold transposed_index. by rewrite Nat.Div0.mod_0_l, Nat.Div0.div_0_l.
Qed.

End TransposedIndex.

(** Within the range of [int], the index arithmetic of the loop computes
    the transposition permutation. *)
Lemma next_index_transposed (R C a : nat) :
  (1 <= R)%nat -> (1 <= C)%nat -> (a < R * C)%nat ->
  Z.of_nat R * Z.of_nat (R * C) <= Int.max_signed ->
  next_index (Z.of_nat R) (Z.of_nat (R * C) - 1) (Z.of_nat a)
  = Ok (Z.of_nat (transposed_index R C a)).
Proof.
  intros HR HC Ha Hmax.
  destruct (index_split R C a Ha) as (Hdm & Hr & Hc).
  set (r := (a / C)%nat) in *. set (c := (a mod C)%nat) in *.
  assert (Ht : transposed_index R C a = (c * R + r)%nat).
  { rewrite Hdm. by apply transposed_index_rc. }
  rewrite Ht. unfold next_index.
  destruct (Z.eqb_spec (Z.of_nat a) (Z.of_nat (R * C) - 1)) as [Heq|Hne].
  - f_equal. nia.
  - unfold Int.mul.
    assert (Hrange : Int.in_range (Z.of_nat R * Z.of_nat a) = true).
    { unfold Int.in_range, Int.min_signed, Int.max_signed in *.
      apply andb_true_intro. split; apply Z.leb_le; nia. }
    rewrite Hrange. cbn [obind]. unfold Int.rem.
    destruct (Z.eqb_spec (Z.of_nat (R * C) - 1) 0) as [H0|H0]; [nia|].
    destruct (Z.eqb_spec (Z.of_nat (R * C) - 1) (-1)) as [H1|H1]; [nia|].
    rewrite andb_false_r. f_equal.
    rewrite Z.rem_mod_nonneg by nia.
    symmetry. apply (Z.mod_unique_pos _ _ (Z.of_nat r)); nia.
Qed.

(** [transposeMemoryInPlace] on an [R] x [C] buffer whose index products
    fit in [int]. *)
Lemma transposeMemoryInPlace_spec {T : Type} (R C : nat) (buf : list T) :
  (1 <= R)%nat -> (1 <= C)%nat -> length buf = (R * C)%nat ->
  Z.of_nat R * Z.of_nat (R * C) <= Int.max_signed ->
  exists out,
    transposeMemoryInPlace buf (Z.of_nat C) = Ok out /\
    length out = (R * C)%nat /\
    forall a, (a < R * C)%nat -> out !! transposed_index R C a = buf !! a.
Proof.
  intros HR HC Hlen Hmax. unfold transposeMemoryInPlace. rewrite Hlen.
  destruct (Z.eqb_spec (Z.of_nat C) 0) as [?|_]; [lia|].
  assert (Hbound : Z.of_nat (R * C) <= Int.max_signed) by nia.
  rewrite !Int.of_Z_id.
  - rewrite Nat2Z.inj_mul, Z.quot_mul by lia. rewrite <- Nat2Z.inj_mul.
    apply (cycles_permute (R * C)%nat (transposed_index R C)); try done.
    + apply transposed_index_lt.
    + apply transposed_index_inj.
    + apply transposed_index_0.
    + intros a Ha. by apply next_index_transposed.
    + nia.
  - unfold Int.in_range, Int.min_signed, Int.max_signed in *.
    apply andb_true_intro. split; apply Z.leb_le; nia.
  - rewrite Nat2Z.inj_mul, Z.quot_mul by lia.
    unfold Int.in_range, Int.min_signed, Int.max_signed in *.
    apply andb_true_intro. split; apply Z.leb_le; nia.
Qed.
(** Runs of [transposeMemoryInPlace] on small buffers. *)
Example transpose_2x4 :
  transposeMemoryInPlace [0; 1; 2; 3; 4; 5; 6; 7] 4 = Ok [0; 4; 1; 5; 2; 6; 3; 7].
Proof. reflexivity. Qed.

Example transpose_3x2 :
  transposeMemoryInPlace [1; 2; 3; 4; 5; 6] 2 = Ok [1; 3; 5; 2; 4; 6].
Proof. reflexivity. Qed.

Example transpose_1x1 : transposeMemoryInPlace [7] 1 = Ok [7].
Proof. reflexivity. Qed.

Example transpose_empty : transposeMemoryInPlace (@nil Z) 3 = Undefined.
Proof. reflexivity. Qed.

(** ** The reference collaborators honour their contracts *)

Lemma Real_ltb_lt (x y : Real) : Real_ltb x y = true <-> (x < y)%Qc.
Proof.
  unfold Real_ltb, Qclt, Qccompare. rewrite Qlt_alt.
  destruct (this x ?= this y)%Q; split; congruence.
Qed.

Lemma Real_ltb_ge (x y : Real) : Real_ltb x y = false <-> (y <= x)%Qc.
Proof.
  rewrite <- not_true_iff_false, Real_ltb_lt. split.
  - apply Qcnot_lt_le.
  - apply Qcle_not_lt.
Qed.

#[global] Instance eigenInfo_le_trans : Transitive eigenInfo_le.
Proof.
  intros a b c. unfold eigenInfo_le, eigenInfo_lt. rewrite !Real_ltb_ge.
  apply Qcle_trans.
Qed.

#[global] Instance eigenInfo_le_total : Total eigenInfo_le.
Proof.
  intros a b. unfold eigenInfo_le, eigenInfo_lt. rewrite !Real_ltb_ge.
  destruct (Qclt_le_dec (valueReal a) (valueReal b)) as [Hlt|Hle]; [left|right; done].
  by apply Qclt_le_weak.
Qed.

#[global, refine] Instance merge_StdSort : StdSort :=
  {| std_sort := merge_sort eigenInfo_le |}.
Proof.
  - intros l. apply merge_sort_Permutation.
  - intros l. apply (StronglySorted_merge_sort eigenInfo_le).
Defined.

#[global, refine] Instance diagonal_LapackWrapper : LapackWrapper :=
  {| diagonalizer := diagonal_solver |}.
Proof.
  - intros n a. unfold diagonal_solver. destruct (is_diagonal n a); simpl.
    + by rewrite length_fmap, length_seq.
    + apply length_replicate.
  - intros n a. unfold diagonal_solver.
    destruct (is_diagonal n a); simpl; apply length_replicate.
  - intros n a. unfold diagonal_solver. destruct (is_diagonal n a); simpl.
    + by rewrite length_fmap, length_seq.
    + apply length_replicate.
Defined.

(** ** Reasoning about computations on the store *)

Section WeakestPrecondition.
Context {T : Type}.
Context {E : string -> Prop} {U : Prop}.
Implicit Types (h : heap T) (l : loc).

#[local] Abbreviation wp m h Q := (wpg m h Q E U).

Lemma wp_run {A : Type} (m : M T A) h Q :
  wp_total m h Q <-> exists a h', m h = Ok (a, h') /\ Q a h'.
Proof.
  unfold wpg. split.
  - destruct (m h) as [[a h']| | |]; [|done..]. intros HQ. by exists a, h'.
  - intros (a & h' & -> & HQ). done.
Qed.

(** A total specification holds whatever is asked of the other outcomes. *)
Lemma wp_of_total {A : Type} (m : M T A) h (Q : A -> heap T -> Prop) :
  wp_total m h Q -> wp m h Q.
Proof. unfold wpg. by destruct (m h) as [[a h']| | |]. Qed.

Lemma wp_mono {A : Type} (m : M T A) h (Q Q' : A -> heap T -> Prop) :
  wp m h Q -> (forall a h', Q a h' -> Q' a h') -> wp m h Q'.
Proof.
  unfold wpg. destruct (m h) as [[a h']| | |]; [|done..]. intros HQ HQQ. by apply HQQ.
Qed.

Lemma wp_ret {A : Type} (a : A) h (Q : A -> heap T -> Prop) : Q a h -> wp (ret a) h Q.
Proof. done. Qed.

Lemma wp_throw {A : Type} (what : string) h (Q : A -> heap T -> Prop) :
  E what -> wp (throw what) h Q.
Proof. done. Qed.

Lemma wp_bind {A B : Type} (m : M T A) (k : A -> M T B) h (Q : B -> heap T -> Prop) :
  wp m h (fun a h' => wp (k a) h' Q) -> wp (bind m k) h Q.
Proof.
  unfold wpg, bind. destruct (m h) as [[a h']| | |]; done.
Qed.

Lemma wp_lift {A : Type} (x : outcome A) (a : A) h (Q : A -> heap T -> Prop) :
  x = Ok a -> Q a h -> wp (lift x) h Q.
Proof. intros -> HQ. done. Qed.

Lemma wp_alloc (init : list T) h (Q : loc -> heap T -> Prop) :
  (forall l, h !! l = None -> Q l (<[l := init]> h)) -> wp (alloc init) h Q.
Proof.
  intros HQ. unfold wpg, alloc. apply HQ.
  apply not_elem_of_dom. apply is_fresh.
Qed.

Lemma wp_get_range l off len h b (Q : list T -> heap T -> Prop) :
  h !! l = Some b -> (off + len <= length b)%nat ->
  Q (take len (drop off b)) h -> wp (get_range l off len) h Q.
Proof.
  intros Hl Hlen HQ. unfold wpg, get_range. rewrite Hl.
  by destruct (Nat.leb_spec (off + len) (length b)); [|lia].
Qed.

Lemma overwrite_ok (b : list T) off new :
  (off + length new <= length b)%nat ->
  overwrite b off new = Ok (take off b ++ new ++ drop (off + length new) b).
Proof.
  intros Hlen. unfold overwrite.
  by destruct (Nat.leb_spec (off + length new) (length b)); [|lia].
Qed.

Lemma wp_set_range l off new h b (Q : unit -> heap T -> Prop) :
  h !! l = Some b -> (off + length new <= length b)%nat ->
  Q tt (<[l := take off b ++ new ++ drop (off + length new) b]> h) ->
  wp (set_range l off new) h Q.
Proof.
  intros Hl Hlen HQ. unfold wpg, set_range. rewrite Hl, overwrite_ok by done. done.
Qed.

Lemma wp_load_at l i h b x (Q : T -> heap T -> Prop) :
  h !! l = Some b -> b !! i = Some x -> Q x h -> wp (load_at l i) h Q.
Proof.
  intros Hl Hi HQ. unfold wpg, load_at. rewrite Hl, (load_of_nat _ _ _ Hi). done.
Qed.

Lemma wp_store_at l i x h b (Q : unit -> heap T -> Prop) :
  h !! l = Some b -> (i < length b)%nat ->
  Q tt (<[l := <[i := x]> b]> h) -> wp (store_at l i x) h Q.
Proof.
  intros Hl Hi HQ. unfold wpg, store_at. rewrite Hl, store_of_nat by done. done.
Qed.

(** A loop over [start, start + n) with the invariant [I]. *)
Lemma wp_mfoldl_seq {A : Type} (I : nat -> A -> heap T -> Prop)
      (f : A -> nat -> M T A) n : forall start a h,
  I 0%nat a h ->
  (forall k a h, (k < n)%nat -> I k a h -> wp (f a (start + k)%nat) h (I (S k))) ->
  wp (mfoldl f a (seq start n)) h (I n).
Proof.
  revert I. induction n as [|n IH]; intros I start a h H0 Hstep; [done|].
  cbn [seq mfoldl]. apply wp_bind.
  eapply wp_mono.
  { rewrite <- (Nat.add_0_r start). apply Hstep; [lia|done]. }
  intros a' h' H1. apply (IH (fun k => I (S k))); [done|].
  intros k a'' h'' Hk HI. rewrite Nat.add_succ_comm. apply Hstep; [lia|done].
Qed.

End WeakestPrecondition.

(** ** Construction, cloning and transposition of matrices *)

Section StorageFacts.
Context {T : Type} `{Zero T}.
Implicit Types (h : heap T) (this : Matrix) (buf : list T).
Context {E : string -> Prop} {U : Prop}.
#[local] Abbreviation wp m h Q := (wpg m h Q E U).
#[local] Open Scope nat_scope.

Lemma contents_Some h this buf :
  contents h this = Some buf <->
  exists b, h !! data_ this = Some b /\ nRows_ this * nCols_ this <= length b /\
            buf = take (nRows_ this * nCols_ this) b.
Proof.
  unfold contents. destruct (h !! data_ this) as [b|].
  - destruct (Nat.leb_spec (nRows_ this * nCols_ this) (length b)) as [Hle|Hgt].
    + split; [intros [= <-]; by exists b|].
      intros (b' & Hb' & _ & ->). congruence.
    + split; [done|]. intros (b' & Hb' & Hle & _).
      assert (b' = b) as -> by congruence. lia.
  - split; [done|]. intros (b' & Hb' & _). done.
Qed.

Lemma contents_length h this buf :
  contents h this = Some buf -> length buf = nRows_ this * nCols_ this.
Proof.
  intros (b & _ & Hlen & ->)%contents_Some. rewrite length_take. lia.
Qed.

Lemma contents_insert_ne h this l b :
  l <> data_ this -> contents (<[l := b]> h) this = contents h this.
Proof. intros Hne. unfold contents. by rewrite lookup_insert_ne. Qed.

Lemma contents_insert h this b :
  nRows_ this * nCols_ this <= length b ->
  contents (<[data_ this := b]> h) this = Some (take (nRows_ this * nCols_ this) b).
Proof.
  intros Hlen. unfold contents. rewrite lookup_insert_eq.
  by destruct (Nat.leb_spec (nRows_ this * nCols_ this) (length b)); [|lia].
Qed.

Lemma contents_insert_mk h l nRows nCols b :
  nRows * nCols <= length b ->
  contents (<[l := b]> h) (mkMatrix nRows nCols l) = Some (take (nRows * nCols) b).
Proof. apply (contents_insert h (mkMatrix nRows nCols l)). Qed.

Lemma contents_insert_exact h l nRows nCols b :
  length b = nRows * nCols ->
  contents (<[l := b]> h) (mkMatrix nRows nCols l) = Some b.
Proof.
  intros Hlen. rewrite contents_insert_mk by lia. f_equal. apply take_ge. lia.
Qed.

Lemma entry_Some h this buf r c :
  contents h this = Some buf -> c < nCols_ this ->
  entry h this r c = buf !! (r * nCols_ this + c).
Proof.
  intros Hc Hlt. unfold entry. rewrite Hc.
  by destruct (Nat.ltb_spec c (nCols_ this)); [|lia].
Qed.

(** [elements] reads the contents and leaves the store alone. *)
Lemma wp_elements h this buf (Q : list T -> heap T -> Prop) :
  contents h this = Some buf -> Q buf h -> wp (elements this) h Q.
Proof.
  intros (b & Hb & Hlen & ->)%contents_Some HQ.
  by apply (wp_get_range _ _ _ _ b).
Qed.

(** The allocating constructor: a new block of zeros. *)
Lemma wp_Matrix_new nRows nCols h (Q : Matrix -> heap T -> Prop) :
  (forall l, h !! l = None ->
             Q (mkMatrix nRows nCols l) (<[l := replicate (nRows * nCols) zero]> h)) ->
  wp (Matrix_new nRows nCols) h Q.
Proof.
  intros HQ. unfold Matrix_new. apply wp_bind, wp_alloc. intros l Hl.
  apply wp_ret. by apply HQ.
Qed.

(** Overwriting all the elements of a matrix. *)
Lemma wp_set_all h this new b (Q : unit -> heap T -> Prop) :
  h !! data_ this = Some b -> length new <= length b ->
  Q tt (<[data_ this := new ++ drop (length new) b]> h) ->
  wp (set_range (data_ this) 0 new) h Q.
Proof.
  intros Hb Hlen HQ. by apply (wp_set_range _ _ _ _ b).
Qed.

(** Overwriting a whole block. *)
Lemma wp_set_whole h l new b (Q : unit -> heap T -> Prop) :
  h !! l = Some b -> length new = length b ->
  Q tt (<[l := new]> h) -> wp (set_range l 0 new) h Q.
Proof.
  intros Hb Hlen HQ. apply (wp_set_range l 0 new h b); [done|lia|].
  cbn [take app Nat.add]. by rewrite drop_ge, app_nil_r by lia.
Qed.

Lemma wp_clone h this buf (Q : Matrix -> heap T -> Prop) :
  contents h this = Some buf ->
  (forall l, h !! l = None ->
             Q (mkMatrix (nRows_ this) (nCols_ this) l) (<[l := buf]> h)) ->
  wp (clone this) h Q.
Proof.
  intros Hc HQ. unfold clone. apply wp_bind, wp_Matrix_new. intros l Hl.
  assert (Hne : l <> data_ this).
  { intros ->. apply contents_Some in Hc as (b & Hb & _). congruence. }
  apply wp_bind, (wp_elements _ _ buf); [by rewrite contents_insert_ne|].
  pose proof (contents_length _ _ _ Hc) as Hlen.
  apply wp_bind. cbn [data_].
  apply (wp_set_range _ _ _ _ (replicate (nRows_ this * nCols_ this) zero)).
  - apply lookup_insert_eq.
  - rewrite length_replicate. lia.
  - cbn [take app Nat.add].
    rewrite insert_insert_eq, drop_ge, app_nil_r by (rewrite length_replicate; lia).
    apply wp_ret. by apply HQ.
Qed.

(** [transposeInPlace] on a matrix with at least one element whose index
    products fit in [int]. *)
Lemma wp_transposeInPlace h this buf (Q : Matrix -> heap T -> Prop) :
  contents h this = Some buf ->
  1 <= nRows_ this -> 1 <= nCols_ this ->
  (Z.of_nat (nRows_ this) * Z.of_nat (nRows_ this * nCols_ this) <= Int.max_signed)%Z ->
  (forall out b,
      h !! data_ this = Some b ->
      length out = nRows_ this * nCols_ this ->
      (forall a, a < nRows_ this * nCols_ this ->
                 out !! transposed_index (nRows_ this) (nCols_ this) a = buf !! a) ->
      Q (mkMatrix (nCols_ this) (nRows_ this) (data_ this))
        (<[data_ this := out ++ drop (length out) b]> h)) ->
  wp (transposeInPlace this) h Q.
Proof.
  intros Hc HR HC Hmax HQ. unfold transposeInPlace.
  apply wp_bind, (wp_elements _ _ buf); [done|].
  pose proof (contents_length _ _ _ Hc) as Hlen.
  destruct (transposeMemoryInPlace_spec (nRows_ this) (nCols_ this) buf HR HC Hlen Hmax)
    as (out & Hrun & Hout & Hperm).
  apply contents_Some in Hc as (b & Hb & Hble & ->).
  apply wp_bind, (wp_lift _ out).
  { rewrite Int.of_Z_id; [done|].
    unfold Int.in_range, Int.min_signed, Int.max_signed in *.
    apply andb_true_intro. split; apply Z.leb_le; nia. }
  apply wp_bind, (wp_set_all _ _ _ b); [done|lia|].
  apply wp_ret. by apply HQ.
Qed.

End StorageFacts.

(** ** In-place transposition and [transpose] *)

Section TransposeFacts.
Context {T : Type} `{Zero T}.
Implicit Types (h : heap T) (this : Matrix) (buf : list T).
Context {E : string -> Prop} {U : Prop}.
#[local] Abbreviation wp m h Q := (wpg m h Q E U).
#[local] Open Scope nat_scope.

Lemma wp_transpose h this buf (Q : Matrix -> heap T -> Prop) :
  contents h this = Some buf ->
  1 <= nRows_ this -> 1 <= nCols_ this ->
  (Z.of_nat (nRows_ this) * Z.of_nat (nRows_ this * nCols_ this) <= Int.max_signed)%Z ->
  (forall l out,
      h !! l = None -> length out = nRows_ this * nCols_ this ->
      (forall a, a < nRows_ this * nCols_ this ->
                 out !! transposed_index (nRows_ this) (nCols_ this) a = buf !! a) ->
      Q (mkMatrix (nCols_ this) (nRows_ this) l) (<[l := out]> h)) ->
  wp (transpose this) h Q.
Proof.
  intros Hc HR HC Hmax HQ. unfold transpose.
  pose proof (contents_length _ _ _ Hc) as Hlen.
  apply wp_bind, (wp_clone _ _ buf); [done|]. intros l Hl.
  apply (wp_transposeInPlace _ _ buf); cbn [nRows_ nCols_ data_]; [|done..|].
  - apply contents_insert_exact. lia.
  - intros out b Hb Hout Hperm. rewrite lookup_insert_eq in Hb.
    assert (b = buf) as -> by congruence.
    rewrite insert_insert_eq, drop_ge, app_nil_r by lia. by apply HQ.
Qed.

End TransposeFacts.

Section TransposeTwice.
Context {T : Type} `{Zero T}.
Implicit Types (h : heap T) (this : Matrix) (buf : list T).
#[local] Open Scope nat_scope.

(** Within the range of [int], [transposeInPlace] swaps the dimensions and
    moves the element of row [r] and column [c] to row [c] and column [r];
    the other blocks of the store are left alone. *)
Lemma transposeInPlace_in_range h this buf :
  contents h this = Some buf ->
  1 <= nRows_ this -> 1 <= nCols_ this ->
  (Z.of_nat (nRows_ this) * Z.of_nat (nRows_ this * nCols_ this) <= Int.max_signed)%Z ->
  exists h',
    transposeInPlace this h
    = Ok (mkMatrix (nCols_ this) (nRows_ this) (data_ this), h') /\
    (forall l, l <> data_ this -> h' !! l = h !! l) /\
    forall r c, r < nRows_ this -> c < nCols_ this ->
      entry h' (mkMatrix (nCols_ this) (nRows_ this) (data_ this)) c r
      = entry h this r c.
Proof.
  intros Hc HR HC Hmax.
  assert (Hwp : wp_total (transposeInPlace this) h (fun this' h' =>
            this' = mkMatrix (nCols_ this) (nRows_ this) (data_ this) /\
            (forall l, l <> data_ this -> h' !! l = h !! l) /\
            forall r c, r < nRows_ this -> c < nCols_ this ->
              entry h' this' c r = entry h this r c)).
  { apply (wp_transposeInPlace _ _ buf); [done..|].
    intros out b Hb Hout Hperm. split; [done|]. split.
    { intros l Hl. by rewrite lookup_insert_ne. }
    intros r c Hr Hc'.
    assert (Hble : nRows_ this * nCols_ this <= length b).
    { apply contents_Some in Hc as (b' & Hb' & Hle & _). congruence. }
    rewrite (entry_Some h this buf r c) by done.
    rewrite (entry_Some _ _ out); cbn [nRows_ nCols_ data_]; [|  |done].
    - rewrite <- (transposed_index_rc (nRows_ this) (nCols_ this)) by done.
      apply Hperm. nia.
    - rewrite contents_insert_mk.
      + f_equal. rewrite take_app_length'; [done|lia].
      + rewrite length_app, length_drop. lia. }
  apply wp_run in Hwp as (this' & h' & Hrun & -> & Hframe & Hent).
  by exists h'.
Qed.

(** Within the range of [int], transposing twice gives back a matrix with
    the dimensions and the elements of the argument, and the argument is as
    it was. *)
Lemma transpose_transpose_in_range h this buf :
  contents h this = Some buf ->
  1 <= nRows_ this -> 1 <= nCols_ this ->
  (Z.of_nat (nRows_ this) * Z.of_nat (nRows_ this * nCols_ this) <= Int.max_signed)%Z ->
  (Z.of_nat (nCols_ this) * Z.of_nat (nCols_ this * nRows_ this) <= Int.max_signed)%Z ->
  exists back h',
    (run t <- transpose this; transpose t) h = Ok (back, h') /\
    nRows_ back = nRows_ this /\ nCols_ back = nCols_ this /\
    contents h' back = Some buf /\ contents h' this = Some buf /\
    (forall l b, h !! l = Some b -> h' !! l = Some b).
Proof.
  intros Hc HR HC Hmax Hmax'.
  pose proof (contents_length _ _ _ Hc) as Hlen.
  apply wp_run, wp_bind, (wp_transpose _ _ buf); [done..|].
  intros l out Hl Hout Hperm.
  assert (Hne : l <> data_ this).
  { intros ->. apply contents_Some in Hc as (b & Hb & _). congruence. }
  apply (wp_transpose _ _ out); cbn [nRows_ nCols_ data_]; [|done..|].
  { apply contents_insert_exact. lia. }
  intros l' out' Hl' Hout' Hperm'. cbn [nRows_ nCols_ data_].
  assert (Hne' : l' <> data_ this).
  { intros ->. rewrite lookup_insert_ne in Hl' by done.
    apply contents_Some in Hc as (b & Hb & _). congruence. }
  assert (out' = buf) as ->.
  { apply list_eq. intros a. destruct (decide (a < nRows_ this * nCols_ this)) as [Ha|Ha].
    - rewrite <- (transposed_index_inv (nRows_ this) (nCols_ this) a) at 1 by done.
      rewrite Hperm'; [by apply Hperm|].
      rewrite Nat.mul_comm. by apply transposed_index_lt.
    - rewrite !lookup_ge_None_2; [done|lia..]. }
  split; [done|]. split; [done|]. split; [|split].
  - apply contents_insert_exact. lia.
  - by rewrite !contents_insert_ne.
  - intros k b Hk.
    assert (Hlk : l <> k) by (intros ->; congruence).
    assert (Hlk' : l' <> k).
    { intros ->. rewrite lookup_insert_ne in Hl' by done. congruence. }
    by rewrite !lookup_insert_ne.
Qed.

End TransposeTwice.

(** ** [multiply] *)

Section MultiplyFacts.
Implicit Types (h : heap Real) (this other : Matrix).
Context {E : string -> Prop} {U : Prop}.
#[local] Abbreviation wp m h Q := (wpg m h Q E U).
#[local] Open Scope nat_scope.

Lemma contents_lookup h this (buf : list Real) i :
  contents h this = Some buf -> i < nRows_ this * nCols_ this ->
  exists b, h !! data_ this = Some b /\ b !! i = Some (elem buf i).
Proof.
  intros (b & Hb & Hlen & ->)%contents_Some Hi. exists b. split; [done|].
  unfold elem. rewrite lookup_take_lt by done.
  destruct (lookup_lt_is_Some_2 b i) as [x ->]; [lia|done].
Qed.

Lemma elem_lookup (buf : list Real) i : i < length buf -> buf !! i = Some (elem buf i).
Proof.
  intros Hi. unfold elem. by destruct (lookup_lt_is_Some_2 buf i Hi) as [x ->].
Qed.

Section Loops.
Variables (h : heap Real) (this other : Matrix) (a b : list Real) (l : loc).
Hypothesis this_contents : contents h this = Some a.
Hypothesis other_contents : contents h other = Some b.
Hypothesis compatible : nCols_ this = nRows_ other.
Hypothesis l_fresh : h !! l = None.

Let R := nRows_ this.
Let K := nCols_ this.
Let C := nCols_ other.

(** The product block while the loops run: the elements before [output]
    are final, the element at [output] holds the partial sum [acc], and
    the elements after it are still zero. *)
Definition multiplying (output : nat) (acc : Real) (h' : heap Real) : Prop :=
  exists p, h' = <[l := p]> h /\ length p = R * C /\
    (forall r c, r < R -> c < C -> r * C + c < output ->
                 p !! (r * C + c) = Some (product_entry a b K C r c)) /\
    (output < R * C -> p !! output = Some acc) /\
    (forall j, output < j -> j < R * C -> p !! j = Some 0%Qc).

Lemma l_not_this : l <> data_ this.
Proof.
  intros ->. apply contents_Some in this_contents as (? & ? & _). congruence.
Qed.

Lemma l_not_other : l <> data_ other.
Proof.
  intros ->. apply contents_Some in other_contents as (? & ? & _). congruence.
Qed.

Lemma multiplying_link r c k h' :
  r < R -> c < C -> k < K ->
  multiplying (r * C + c) (sum_upto k (fun k => elem a (r * K + k) * elem b (k * C + c))%Qc) h' ->
  wp (run x <- load_at (data_ this) (r * nCols_ this + k);
      run y <- load_at (data_ other) (k * nCols_ other + c);
      run acc <- load_at (data_ (mkMatrix (nRows_ this) (nCols_ other) l)) (r * C + c);
      store_at (data_ (mkMatrix (nRows_ this) (nCols_ other) l)) (r * C + c) (acc + x * y)%Qc)
     h'
     (fun _ => multiplying (r * C + c)
                 (sum_upto (S k) (fun k => elem a (r * K + k) * elem b (k * C + c))%Qc)).
Proof.
  intros Hr Hc Hk (p & -> & Hlen & Hdone & Hacc & Hrest).
  assert (Ho : r * C + c < R * C) by nia.
  destruct (contents_lookup h this a (r * K + k) this_contents) as (ba & Hba & Hx);
    [fold R K; nia|].
  destruct (contents_lookup h other b (k * C + c) other_contents) as (bb & Hbb & Hy);
    [rewrite <- compatible; fold K C; nia|].
  apply wp_bind, (wp_load_at _ _ _ ba (elem a (r * K + k)));
    [by rewrite lookup_insert_ne by apply l_not_this|done|].
  apply wp_bind, (wp_load_at _ _ _ bb (elem b (k * C + c)));
    [by rewrite lookup_insert_ne by apply l_not_other|done|].
  cbn [data_].
  apply wp_bind. eapply wp_load_at; [apply lookup_insert_eq|by apply Hacc|].
  apply (wp_store_at _ _ _ _ p); [apply lookup_insert_eq|lia|].
  eexists. split; [by rewrite insert_insert_eq|]. split; [by rewrite length_insert|].
  split; [|split].
  - intros r' c' Hr' Hc' Hlt. rewrite list_lookup_insert_ne by lia. by apply Hdone.
  - intros _. rewrite list_lookup_insert_eq by lia. done.
  - intros j Hj Hj'. rewrite list_lookup_insert_ne by lia. by apply Hrest.
Qed.

Lemma multiplying_next r c h' :
  r < R -> c < C ->
  multiplying (r * C + c) (product_entry a b K C r c) h' ->
  multiplying (S (r * C + c)) 0%Qc h'.
Proof.
  intros Hr Hc (p & -> & Hlen & Hdone & Hacc & Hrest).
  exists p. split; [done|]. split; [done|]. split; [|split].
  - intros r' c' Hr' Hc' Hlt.
    destruct (decide (r' * C + c' = r * C + c)) as [Heq|Hne].
    + apply index_unique in Heq as [-> ->]; [|done..]. apply Hacc. nia.
    + apply Hdone; [done..|lia].
  - intros Hlt. apply Hrest; lia.
  - intros j Hj Hj'. apply Hrest; lia.
Qed.

End Loops.

Lemma wp_multiply h this other a b (Q : Matrix -> heap Real -> Prop) :
  contents h this = Some a -> contents h other = Some b ->
  nCols_ this = nRows_ other ->
  (forall l p,
      h !! l = None -> length p = nRows_ this * nCols_ other ->
      (forall r c, r < nRows_ this -> c < nCols_ other ->
         p !! (r * nCols_ other + c)
         = Some (product_entry a b (nCols_ this) (nCols_ other) r c)) ->
      Q (mkMatrix (nRows_ this) (nCols_ other) l) (<[l := p]> h)) ->
  wp (multiply this other) h Q.
Proof.
  intros Ha Hb Hcompat HQ. unfold multiply.
  rewrite Hcompat, Nat.eqb_refl. cbn [negb]. rewrite <- Hcompat.
  apply wp_bind, wp_Matrix_new. intros l Hl.
  set (R := nRows_ this). set (K := nCols_ this). set (C := nCols_ other).
  apply wp_bind.
  eapply wp_mono.
  { apply (wp_mfoldl_seq
             (fun r output h' => output = r * C /\ multiplying h this other a b l output 0%Qc h')).
    - split; [done|]. exists (replicate (R * C) 0%Qc).
      split; [done|]. split; [apply length_replicate|]. split; [|split].
      + intros; lia.
      + intros Hlt. by apply lookup_replicate_2.
      + intros j _ Hj. by apply lookup_replicate_2.
    - intros r output h' Hr [-> Hm]. cbn [Nat.add].
      eapply wp_mono.
      { apply (wp_mfoldl_seq
                 (fun c output h' => output = r * C + c /\
                                     multiplying h this other a b l output 0%Qc h')).
        - split; [lia|done].
        - intros c output h'' Hc [-> Hm']. cbn [Nat.add].
          apply wp_bind. eapply wp_mono.
          { apply (wp_mfoldl_seq
                     (fun k (_ : unit) h' =>
                        multiplying h this other a b l (r * C + c)
                          (sum_upto k (fun k => elem a (r * K + k) * elem b (k * C + c))%Qc) h')).
            - done.
            - intros k [] h3 Hk Hm3. cbn [Nat.add].
              by apply (multiplying_link h this other a b l). }
          intros [] h3 Hm3. apply wp_ret. split; [lia|].
          by apply (multiplying_next h this other a b l). }
      intros output' h'' [-> Hm']. split; [lia|].
      by replace (S r * C) with (r * C + C) by lia. }
  intros output h' [-> Hm]. apply wp_ret.
  destruct Hm as (p & -> & Hlen & Hdone & _). apply HQ; [done..|].
  intros r c Hr Hc. apply Hdone; [done..|]. fold R C. nia.
Qed.

End MultiplyFacts.

(** ** The inverse of a 3 x 3 matrix *)

Section Inverse3.
Context `{LapackWrapper} `{StdSort}.
Implicit Types (h : heap Real) (this : Matrix).
Context {E : string -> Prop} {U : Prop}.
#[local] Abbreviation wp m h Q := (wpg m h Q E U).
#[local] Open Scope nat_scope.

Lemma length_9 {A : Type} (d : list A) :
  length d = 9 -> exists d0 d1 d2 d3 d4 d5 d6 d7 d8, d = [d0; d1; d2; d3; d4; d5; d6; d7; d8].
Proof.
  intros Hlen. do 9 (destruct d as [|? d]; [done|]). destruct d; [|done].
  by repeat eexists.
Qed.

(** The nine statements of the 3 x 3 branch. *)
Lemma wp_inverse_3x3 h this (d : list Real) (Q : Matrix -> heap Real -> Prop) :
  nRows_ this = 3 -> nCols_ this = 3 -> contents h this = Some d ->
  (forall l, h !! l = None ->
     Q (mkMatrix 3 3 l)
       (<[l := (fun k => closed_form_inverse d (k / 3) (k mod 3)) <$> seq 0 9]> h)) ->
  wp (inverse this) h Q.
Proof.
  intros Hrows Hcols Hd HQ. unfold inverse, assertSquare.
  rewrite Hrows, Hcols. cbn [Nat.eqb negb]. apply wp_bind, wp_ret.
  apply wp_bind, wp_Matrix_new. intros l Hl. cbn [data_].
  assert (Hne : l <> data_ this).
  { intros ->. apply contents_Some in Hd as (b & Hb & _). congruence. }
  pose proof (contents_length _ _ _ Hd) as Hlen. rewrite Hrows, Hcols in Hlen.
  assert (Hload : forall i, i < 9 -> exists b,
             h !! data_ this = Some b /\ b !! i = Some (elem d i)).
  { intros i Hi. apply (contents_lookup h this d i Hd). rewrite Hrows, Hcols. lia. }
  destruct (length_9 d Hlen) as (d0 & d1 & d2 & d3 & d4 & d5 & d6 & d7 & d8 & ->).
  do 9 (apply wp_bind;
        match goal with
        | |- wp (load_at _ ?i) _ _ =>
            let b := fresh "b" in let Hb := fresh "Hb" in let Hi := fresh "Hi" in
            destruct (Hload i) as (b & Hb & Hi); [lia|];
            apply (wp_load_at _ _ _ b _ _ (eq_trans (lookup_insert_ne _ _ _ _ Hne) Hb) Hi);
            clear b Hb Hi
        end).
  unfold elem. cbn [lookup list_lookup default from_option id].
  do 9 (apply wp_bind;
        eapply wp_store_at;
        [apply lookup_insert_eq | cbn; lia | rewrite insert_insert_eq; cbn [replicate Nat.mul Nat.add]]).
  apply wp_ret.
  cbn -[Qcmult Qcplus Qcminus Qcdiv Q2Qc].
  match goal with
  | |- Q _ (<[l := ?x]> h) =>
      replace x with ((fun k => closed_form_inverse [d0; d1; d2; d3; d4; d5; d6; d7; d8]
                                  (k / 3) (k mod 3)) <$> seq 0 9)
  end; [by apply HQ|].
  cbn -[Qcmult Qcplus Qcminus Qcdiv Q2Qc closed_form_inverse].
  unfold closed_form_inverse, determinant, cofactor, elem.
  cbn -[Qcmult Qcplus Qcminus Qcdiv Q2Qc].
  repeat f_equal;
    match goal with
    | |- (_ / ?D1 = _ * (1 / ?D2))%Qc => replace D1 with D2 by ring
    end; unfold Qcdiv; ring.
Qed.


End Inverse3.

Section Inverse3Claim.
Context `{LapackWrapper} `{StdSort}.
Implicit Types (h : heap Real) (this : Matrix).
#[local] Open Scope nat_scope.

(** C2.  For a 3 x 3 matrix with a nonzero determinant, [inverse] returns
    the closed-form inverse (transposed cofactors over the determinant),
    the product of that inverse with the matrix is the identity matrix,
    exactly, and the matrix is unchanged. *)
Theorem inverse_3x3_times_matrix_is_identity h this (d : list Real) :
  nRows_ this = 3 -> nCols_ this = 3 -> contents h this = Some d ->
  determinant d <> 0%Qc ->
  exists inv h1 product h2,
    inverse this h = Ok (inv, h1) /\
    multiply inv this h1 = Ok (product, h2) /\
    (forall i j, i < 3 -> j < 3 -> entry h1 inv i j = Some (closed_form_inverse d i j)) /\
    nRows_ product = 3 /\ nCols_ product = 3 /\
    (forall i j, i < 3 -> j < 3 -> entry h2 product i j = Some (identity_entry i j)) /\
    contents h1 this = Some d /\ contents h2 this = Some d.
Proof.
  intros Hrows Hcols Hd Hdet.
  pose proof (contents_length _ _ _ Hd) as Hlen. rewrite Hrows, Hcols in Hlen.
  set (invdata := (fun k => closed_form_inverse d (k / 3) (k mod 3)) <$> seq 0 9).
  assert (Hinv : wp_total (inverse this) h (fun inv h1 =>
            exists l, h !! l = None /\ inv = mkMatrix 3 3 l /\ h1 = <[l := invdata]> h)).
  { apply (wp_inverse_3x3 _ _ d); [done..|]. intros l Hl. by exists l. }
  apply wp_run in Hinv as (inv & h1 & Hrun1 & l & Hl & -> & ->).
  assert (Hne : l <> data_ this).
  { intros ->. apply contents_Some in Hd as (b & Hb & _). congruence. }
  assert (Hd1 : contents (<[l := invdata]> h) this = Some d)
    by (by rewrite contents_insert_ne).
  assert (Hi1 : contents (<[l := invdata]> h) (mkMatrix 3 3 l) = Some invdata)
    by (by apply contents_insert_exact).
  assert (Hmul : wp_total (multiply (mkMatrix 3 3 l) this) (<[l := invdata]> h)
            (fun product h2 =>
               nRows_ product = 3 /\ nCols_ product = 3 /\
               (forall i j, i < 3 -> j < 3 ->
                            entry h2 product i j = Some (identity_entry i j)) /\
               contents h2 this = Some d)).
  { apply (wp_multiply _ _ _ invdata d); [done|done|by rewrite Hrows|].
    cbn [nRows_ nCols_]. rewrite Hcols. intros l' p Hl' Hp Hprod.
    assert (Hne' : l' <> data_ this).
    { intros ->. apply contents_Some in Hd1 as (b & Hb & _). congruence. }
    split; [done|]. split; [done|]. split; [|by rewrite contents_insert_ne].
    intros i j Hi Hj.
    rewrite (entry_Some _ _ p); cbn [nRows_ nCols_]; [|by apply contents_insert_exact|done].
    rewrite Hprod by done. f_equal.
    destruct (length_9 d Hlen) as (d0 & d1 & d2 & d3 & d4 & d5 & d6 & d7 & d8 & ->).
    assert (Hdet' : (d0 * (d4 * d8 - d5 * d7) + d1 * (d5 * d6 - d3 * d8)
                     + d2 * (d3 * d7 - d4 * d6))%Qc <> 0%Qc).
    { intros Hz. apply Hdet. rewrite <- Hz.
      unfold determinant, cofactor, elem. cbn -[Qcmult Qcplus Qcminus Q2Qc]. ring. }
    assert (Hij : (i = 0 \/ i = 1 \/ i = 2) /\ (j = 0 \/ j = 1 \/ j = 2)) by lia.
    destruct Hij as [[-> | [-> | ->]] [-> | [-> | ->]]];
      unfold product_entry, identity_entry, invdata, closed_form_inverse,
             determinant, cofactor, elem;
      cbn -[Qcmult Qcplus Qcminus Qcdiv Q2Qc];
      field; intros Hz; apply Hdet'; rewrite <- Hz; ring. }
  apply wp_run in Hmul as (product & h2 & Hrun2 & Hr & Hc & Hid & Hd2).
  exists (mkMatrix 3 3 l), (<[l := invdata]> h), product, h2.
  repeat split; try done.
  intros i j Hi Hj. rewrite (entry_Some _ _ invdata) by done. cbn [nCols_].
  unfold invdata. rewrite list_lookup_fmap, lookup_seq_lt by lia. cbn [fmap option_fmap option_map Nat.add].
  f_equal. f_equal.
  - rewrite Nat.div_add_l by lia. rewrite Nat.div_small by done. lia.
  - by rewrite Nat.add_comm, Nat.Div0.mod_add, Nat.mod_small.
Qed.

End Inverse3Claim.
(** ** [multiply] accumulates into zeros *)

(** C10.  The allocating constructor returns a matrix all of whose
    [nRows * nCols] elements are zero; [multiply] returns the standard
    matrix product, the sum over the link index. *)
Theorem multiply_is_standard_product :
  (forall nRows nCols (h : heap Real),
      exists m h',
        Matrix_new nRows nCols h = Ok (m, h') /\
        nRows_ m = nRows /\ nCols_ m = nCols /\
        contents h' m = Some (replicate (nRows * nCols) 0%Qc)) /\
  (forall (h : heap Real) this other a b,
      contents h this = Some a -> contents h other = Some b ->
      nCols_ this = nRows_ other ->
      exists product h',
        multiply this other h = Ok (product, h') /\
        nRows_ product = nRows_ this /\ nCols_ product = nCols_ other /\
        forall r c, (r < nRows_ this)%nat -> (c < nCols_ other)%nat ->
          entry h' product r c
          = Some (product_entry a b (nCols_ this) (nCols_ other) r c)).
Proof.
  split.
  - intros nRows nCols h. apply wp_run, wp_Matrix_new. intros l Hl.
    split; [done|]. split; [done|].
    apply contents_insert_exact, length_replicate.
  - intros h this other a b Ha Hb Hcompat.
    apply wp_run, (wp_multiply _ _ _ a b); [done..|].
    intros l p Hl Hp Hprod. split; [done|]. split; [done|].
    intros r c Hr Hc.
    rewrite (entry_Some _ _ p); cbn [nRows_ nCols_];
      [by apply Hprod|by apply contents_insert_exact|done].
Qed.

(** ** [almostEquals] *)

Section AlmostEquals.
Context {E : string -> Prop} {U : Prop}.
#[local] Abbreviation wp m h Q := (wpg m h Q E U).
#[local] Open Scope nat_scope.

Lemma Qcabs_lt_condition (x y : Real) : (Qcabs x < y)%Qc <-> (- y < x)%Qc /\ (x < y)%Qc.
Proof.
  unfold Qclt. cbn [this Qcabs]. rewrite Qabs_Qlt_condition.
  unfold Qcopp, Q2Qc. cbn [this]. by rewrite Qred_correct.
Qed.

Lemma std_equal_true {A : Type} (p : A -> A -> bool) (a b : list A) :
  length a = length b ->
  std_equal p a b = true <->
  forall i x y, a !! i = Some x -> b !! i = Some y -> p x y = true.
Proof.
  revert b. induction a as [|x a IH]; intros [|y b] Hlen; try done.
  cbn [std_equal]. rewrite andb_true_iff, IH by (simpl in Hlen; lia). split.
  - intros [Hxy Hrest] [|i] x' y'; cbn; [by intros [= <-] [= <-]|apply Hrest].
  - intros Hall. split; [by apply (Hall 0)|]. intros i. apply (Hall (S i)).
Qed.

Lemma assertSameSize_same {T : Type} this other :
  nRows_ this = nRows_ other -> nCols_ this = nCols_ other ->
  assertSameSize (T := T) this other = ret tt.
Proof.
  intros Hr Hc. unfold assertSameSize. by rewrite Hr, Hc, !Nat.eqb_refl.
Qed.

Lemma assertSameSize_differ {T : Type} this other :
  nRows_ this <> nRows_ other \/ nCols_ this <> nCols_ other ->
  assertSameSize (T := T) this other
  = throw "Attepting to compare matrices of different sizes!".
Proof.
  intros Hne. unfold assertSameSize.
  destruct (Nat.eqb_spec (nRows_ this) (nRows_ other));
    destruct (Nat.eqb_spec (nCols_ this) (nCols_ other)); try done. tauto.
Qed.

(** The comparison loop of both versions. *)
Lemma wp_compare {T : Type} (h : heap T) this other (a b : list T)
      (p : T -> T -> bool) (Q : bool -> heap T -> Prop) :
  contents h this = Some a -> contents h other = Some b ->
  nRows_ this = nRows_ other -> nCols_ this = nCols_ other ->
  Q (std_equal p a b) h ->
  wp (run a <- elements this;
      run b <- get_range (data_ other) 0 (length a);
      ret (std_equal p a b)) h Q.
Proof.
  intros Ha Hb Hrows Hcols HQ.
  pose proof (contents_length _ _ _ Ha) as Hlen.
  apply wp_bind, (wp_elements _ _ a); [done|].
  apply contents_Some in Hb as (bb & Hbb & Hble & ->).
  apply wp_bind, (wp_get_range _ _ _ _ bb); [done|lia|].
  apply wp_ret. cbn [drop]. by rewrite Hlen, Hrows, Hcols.
Qed.

End AlmostEquals.

(** C6.  On matrices of the same dimensions [almostEquals] returns true
    exactly when every pair of corresponding elements differs by less than
    the tolerance in absolute value, the real and the imaginary parts being
    compared separately in the complex version; on matrices of different
    dimensions it throws. *)
Theorem almostEquals_compares_elementwise :
  (forall (h : heap Real) this other a b tolerance,
      contents h this = Some a -> contents h other = Some b ->
      nRows_ this = nRows_ other -> nCols_ this = nCols_ other ->
      exists result,
        almostEquals this other tolerance h = Ok (result, h) /\
        (result = true <->
         forall i x y, a !! i = Some x -> b !! i = Some y ->
                       (Qcabs (x - y) < tolerance)%Qc)) /\
  (forall (h : heap Real) this other tolerance,
      nRows_ this <> nRows_ other \/ nCols_ this <> nCols_ other ->
      is_throw (almostEquals this other tolerance h) = true) /\
  (forall (h : heap complex) this other a b tolerance,
      contents h this = Some a -> contents h other = Some b ->
      nRows_ this = nRows_ other -> nCols_ this = nCols_ other ->
      exists result,
        almostEquals_complex this other tolerance h = Ok (result, h) /\
        (result = true <->
         forall i x y, a !! i = Some x -> b !! i = Some y ->
                       (Qcabs (real x - real y) < real tolerance)%Qc /\
                       (Qcabs (imag x - imag y) < real tolerance)%Qc)) /\
  (forall (h : heap complex) this other tolerance,
      nRows_ this <> nRows_ other \/ nCols_ this <> nCols_ other ->
      is_throw (almostEquals_complex this other tolerance h) = true).
Proof.
  split; [|split; [|split]].
  - intros h this other a b tolerance Ha Hb Hrows Hcols.
    pose proof (contents_length _ _ _ Ha) as Hla.
    pose proof (contents_length _ _ _ Hb) as Hlb.
    assert (Hwp : wp_total (almostEquals this other tolerance) h (fun result h' =>
              h' = h /\ result = std_equal (within_tolerance tolerance) a b)).
    { unfold almostEquals. rewrite assertSameSize_same by done.
      apply wp_bind, wp_ret. by apply (wp_compare h this other a b). }
    apply wp_run in Hwp as (result & h' & Hrun & -> & ->).
    eexists. split; [exact Hrun|].
    rewrite std_equal_true by (simpl in *; lia). unfold within_tolerance.
    split; intros Hall i x y Hx Hy; specialize (Hall i x y Hx Hy).
    + apply andb_true_iff in Hall as [H1%Real_ltb_lt H2%Real_ltb_lt].
      by apply Qcabs_lt_condition.
    + apply Qcabs_lt_condition in Hall as [H1 H2].
      apply andb_true_iff. by rewrite !Real_ltb_lt.
  - intros h this other tolerance Hne. unfold almostEquals.
    by rewrite assertSameSize_differ.
  - intros h this other a b tolerance Ha Hb Hrows Hcols.
    pose proof (contents_length _ _ _ Ha) as Hla.
    pose proof (contents_length _ _ _ Hb) as Hlb.
    assert (Hwp : wp_total (almostEquals_complex this other tolerance) h (fun result h' =>
              h' = h /\
              result = std_equal (within_tolerance_complex (real tolerance)) a b)).
    { unfold almostEquals_complex. rewrite assertSameSize_same by done.
      apply wp_bind, wp_ret. by apply (wp_compare h this other a b). }
    apply wp_run in Hwp as (result & h' & Hrun & -> & ->).
    eexists. split; [exact Hrun|].
    rewrite std_equal_true by (simpl in *; lia). unfold within_tolerance_complex.
    split; intros Hall i x y Hx Hy; specialize (Hall i x y Hx Hy).
    + rewrite !andb_true_iff, !Real_ltb_lt in Hall.
      destruct Hall as [[[H1 H2] H3] H4].
      by rewrite !Qcabs_lt_condition.
    + rewrite !Qcabs_lt_condition in Hall.
      rewrite !andb_true_iff, !Real_ltb_lt. tauto.
  - intros h this other tolerance Hne. unfold almostEquals_complex.
    by rewrite assertSameSize_differ.
Qed.

(** ** The flat-call boundary *)

Lemma try_catch_guarded {A : Type} (body : raised A) (name : string) :
  guarded body
    (try_catch body
       [catch_runtime_error (fun what => cerr_exit what 1);
        catch_all (cerr_exit name 1)]).
Proof.
  destruct body as [a|[what|]]; cbn; [done|..].
  - by exists 1, what.
  - by exists 1, name.
Qed.

(** C5.  Each entry point returns what the wrapped operation returns, and
    ends the process with a nonzero status after a diagnostic on
    [std::cerr] when the operation raises an exception, whichever it is: no
    exception leaves the boundary. *)
Theorem boundary_catches_every_exception
    (world PMEInstanceD PMEInstanceF double float : Type)
    new_PMEInstanceD new_PMEInstanceF setupD setupF
    setLatticeVectorsD setLatticeVectorsF computeEFRecD computeEFRecF :
  (forall w,
      guarded (new_PMEInstanceD w)
        (helpme_createD world PMEInstanceD new_PMEInstanceD w)) /\
  (forall w,
      guarded (new_PMEInstanceF w)
        (helpme_createF world PMEInstanceF new_PMEInstanceF w)) /\
  (forall pme rPower kappa splineOrder aDim bDim cDim scaleFactor nThreads w,
      guarded (setupD pme rPower kappa splineOrder aDim bDim cDim scaleFactor nThreads w)
        (helpme_setupD world PMEInstanceD double setupD
           pme rPower kappa splineOrder aDim bDim cDim scaleFactor nThreads w)) /\
  (forall pme rPower kappa splineOrder aDim bDim cDim scaleFactor nThreads w,
      guarded (setupF pme rPower kappa splineOrder aDim bDim cDim scaleFactor nThreads w)
        (helpme_setupF world PMEInstanceF float setupF
           pme rPower kappa splineOrder aDim bDim cDim scaleFactor nThreads w)) /\
  (forall pme A B C alpha beta gamma latticeType w,
      guarded (setLatticeVectorsD pme A B C alpha beta gamma latticeType w)
        (helpme_set_lattice_vectorsD world PMEInstanceD double setLatticeVectorsD
           pme A B C alpha beta gamma latticeType w)) /\
  (forall pme A B C alpha beta gamma latticeType w,
      guarded (setLatticeVectorsF pme A B C alpha beta gamma latticeType w)
        (helpme_set_lattice_vectorsF world PMEInstanceF float setLatticeVectorsF
           pme A B C alpha beta gamma latticeType w)) /\
  (forall pme nAtoms parameterAngMom parameters coordinates forces w,
      guarded
        (computeEFRecD pme parameterAngMom
           (Matrix_view parameters (size_t_of_int nAtoms)
              (size_t_of_int (nCartesian parameterAngMom)))
           (Matrix_view coordinates (size_t_of_int nAtoms) 3)
           (Matrix_view forces (size_t_of_int nAtoms) 3) w)
        (helpme_compute_EF_recD world PMEInstanceD double computeEFRecD
           pme nAtoms parameterAngMom parameters coordinates forces w)) /\
  (forall pme nAtoms parameterAngMom parameters coordinates forces w,
      guarded
        (computeEFRecF pme parameterAngMom
           (Matrix_view parameters (size_t_of_int nAtoms)
              (size_t_of_int (nCartesian parameterAngMom)))
           (Matrix_view coordinates (size_t_of_int nAtoms) 3)
           (Matrix_view forces (size_t_of_int nAtoms) 3) w)
        (helpme_compute_EF_recF world PMEInstanceF float computeEFRecF
           pme nAtoms parameterAngMom parameters coordinates forces w)).
Proof.
  repeat split; intros; apply try_catch_guarded.
Qed.

(** ** Slices *)

Section SliceFacts.
Implicit Types (h : heap Real) (s other : sliceIterator).
Context {E : string -> Prop} {U : Prop}.
#[local] Abbreviation wp m h Q := (wpg m h Q E U).
#[local] Open Scope nat_scope.

Lemma slice_size_valid h s : slice_valid h s -> Slice.size s = Ok (slice_count s).
Proof.
  intros (Hstride & Hle & Hmax & _). unfold Slice.size, slice_count.
  destruct (Nat.eqb_spec (stride_ s) 0) as [?|_]; [done|]. f_equal.
  rewrite Z.mod_small by lia.
  rewrite <- Nat2Z.inj_sub, <- Nat2Z.inj_div by done. apply Nat2Z.id.
Qed.

Lemma slice_count_contiguous s :
  stride_ s = 1 -> slice_count s = end_ s - begin_ s.
Proof. intros Hs. unfold slice_count. rewrite Hs. apply Nat.div_1_r. Qed.

Lemma slice_checks_pass h s other :
  slice_valid h s -> slice_valid h other ->
  slice_count s = slice_count other -> stride_ s = 1 -> stride_ other = 1 ->
  slice_checks s other h = Ok (tt, h).
Proof.
  intros Hs Ho Hsize H1 H2.
  unfold slice_checks, Slice.assertSameSize, Slice.assertContiguous, bind, lift.
  rewrite (slice_size_valid h s Hs), (slice_size_valid h other Ho). cbn [obind].
  by rewrite Hsize, Nat.eqb_refl, H1, H2.
Qed.

Lemma slice_checks_throw h s other :
  slice_valid h s -> slice_valid h other ->
  ~ (slice_count s = slice_count other /\ stride_ s = 1 /\ stride_ other = 1) ->
  exists what, slice_checks s other h = Throw what.
Proof.
  intros Hs Ho Hnot.
  unfold slice_checks, Slice.assertSameSize, Slice.assertContiguous, bind, lift.
  rewrite (slice_size_valid h s Hs), (slice_size_valid h other Ho). cbn [obind].
  destruct (Nat.eqb_spec (slice_count s) (slice_count other)); [|by eexists].
  destruct (Nat.eqb_spec (stride_ s) 1); [|by eexists].
  destruct (Nat.eqb_spec (stride_ other) 1); [|by eexists].
  tauto.
Qed.

Lemma same_shape_lookup h h' l b :
  same_shape h h' -> h !! l = Some b -> exists b', h' !! l = Some b' /\ length b' = length b.
Proof.
  intros Hsh Hl. specialize (Hsh l). rewrite Hl in Hsh.
  destruct (h' !! l) as [b'|]; [|done]. exists b'. split; [done|]. by injection Hsh.
Qed.

Lemma same_shape_store h h' l b i x :
  same_shape h h' -> h' !! l = Some b ->
  same_shape h (<[l := <[i := x]> b]> h').
Proof.
  intros Hsh Hl k. destruct (decide (l = k)) as [<-|Hne].
  - rewrite lookup_insert_eq, <- Hsh, Hl. cbn. by rewrite length_insert.
  - by rewrite lookup_insert_ne.
Qed.

Lemma wp_std_transform h0 h src1 first1 last1 src2 first2 dst d_first op b1 b2 bd :
  same_shape h0 h ->
  h0 !! src1 = Some b1 -> h0 !! src2 = Some b2 -> h0 !! dst = Some bd ->
  first1 <= last1 -> last1 <= length b1 ->
  first2 + (last1 - first1) <= length b2 ->
  d_first + (last1 - first1) <= length bd ->
  wp (Slice.std_transform src1 first1 last1 src2 first2 dst d_first op) h
     (fun _ h' => same_shape h0 h').
Proof.
  intros Hsh H1 H2 Hd Hle Hb1 Hb2 Hbd. unfold Slice.std_transform.
  destruct (Nat.ltb_spec last1 first1) as [?|_]; [lia|].
  apply (wp_mfoldl_seq (fun _ _ h' => same_shape h0 h')); [done|].
  intros k [] h' Hk Hsh'. cbn [Nat.add].
  destruct (same_shape_lookup _ _ _ _ Hsh' H1) as (b1' & H1' & Hl1).
  destruct (same_shape_lookup _ _ _ _ Hsh' H2) as (b2' & H2' & Hl2).
  destruct (same_shape_lookup _ _ _ _ Hsh' Hd) as (bd' & Hd' & Hld).
  destruct (lookup_lt_is_Some_2 b1' (first1 + k)) as [x Hx]; [lia|].
  destruct (lookup_lt_is_Some_2 b2' (first2 + k)) as [y Hy]; [lia|].
  apply wp_bind, (wp_load_at _ _ _ b1' x); [done..|].
  apply wp_bind, (wp_load_at _ _ _ b2' y); [done..|].
  apply (wp_store_at _ _ _ _ bd'); [done|lia|].
  by apply same_shape_store.
Qed.

(** The scalar loop: the positions the view steps on are updated by [f],
    the others are left alone. *)
Lemma for_each_from_spec (f : Real -> Real) blk bg en stride :
  stride <> 0 ->
  forall n fuel ptr b h,
    h !! blk = Some b -> ptr + n * stride = en -> n < fuel ->
    (forall k, k < n -> ptr + k * stride < length b) ->
    exists b',
      Slice.for_each_from fuel f (mkSlice blk bg en ptr stride) (Slice.end' (mkSlice blk bg en bg stride)) h
      = Ok (tt, <[blk := b']> h) /\
      length b' = length b /\
      (forall k, k < n -> b' !! (ptr + k * stride) = f <$> b !! (ptr + k * stride)) /\
      (forall i, (forall k, k < n -> i <> ptr + k * stride) -> b' !! i = b !! i).
Proof.
  intros Hstride. induction n as [|n IH]; intros fuel ptr b h Hb Hend Hfuel Hin.
  - destruct fuel as [|fuel]; [lia|]. exists b.
    cbn [Slice.for_each_from]. unfold Slice.neq, Slice.end', Slice.make.
    cbn [ptr_ end_ slice_block begin_ stride_].
    replace ptr with en by lia. rewrite Nat.eqb_refl. cbn [negb].
    split; [by rewrite insert_id|]. split; [done|]. split; [intros; lia|done].
  - destruct fuel as [|fuel]; [lia|].
    cbn [Slice.for_each_from]. unfold Slice.neq at 1. unfold Slice.end' at 1, Slice.make at 1.
    cbn [ptr_ end_ slice_block begin_ stride_].
    destruct (Nat.eqb_spec ptr en) as [Heq|Hne]; [nia|]. cbn [negb].
    destruct (lookup_lt_is_Some_2 b ptr) as [x Hx].
    { specialize (Hin 0). rewrite Nat.mul_0_l, Nat.add_0_r in Hin. apply Hin. lia. }
    destruct (IH fuel (ptr + stride) (<[ptr := f x]> b) (<[blk := <[ptr := f x]> b]> h))
      as (b' & Hrun & Hlen & Hon & Hoff).
    { apply lookup_insert_eq. }
    { lia. }
    { lia. }
    { intros k Hk. rewrite length_insert.
      specialize (Hin (S k)). replace (ptr + stride + k * stride) with (ptr + S k * stride) by lia.
      apply Hin. lia. }
    exists b'. split; [|split; [|split]].
    + unfold bind at 1. unfold load_at at 1. rewrite Hb, (load_of_nat _ _ _ Hx). cbn [obind].
      unfold bind at 1. unfold store_at at 1.
      rewrite Hb, store_of_nat by (by eapply lookup_lt_Some). cbn [obind].
      unfold Slice.incr. cbn [slice_block begin_ end_ ptr_ stride_].
      cbn [Slice.end' Slice.make slice_block end_] in Hrun.
      rewrite Hrun. by rewrite insert_insert_eq.
    + by rewrite Hlen, length_insert.
    + intros [|k] Hk.
      * rewrite Nat.mul_0_l, Nat.add_0_r, Hoff.
        -- rewrite list_lookup_insert_eq by (by eapply lookup_lt_Some). by rewrite Hx.
        -- intros k' _. nia.
      * replace (ptr + S k * stride) with (ptr + stride + k * stride) by lia.
        rewrite Hon by lia. by rewrite list_lookup_insert_ne by nia.
    + intros i Hi. rewrite Hoff.
      * apply list_lookup_insert_ne. specialize (Hi 0). lia.
      * intros k Hk. specialize (Hi (S k)). lia.
Qed.


Lemma checks_then {A : Type} (k : M Real A) h s other :
  (run _ <- Slice.assertSameSize s other;
   run _ <- Slice.assertContiguous s;
   run _ <- Slice.assertContiguous other;
   k) h
  = (run _ <- slice_checks s other; k) h.
Proof.
  unfold slice_checks, bind.
  destruct (Slice.assertSameSize s other h) as [[[] h1]| | |]; cbn [obind]; [|done..].
  by destruct (Slice.assertContiguous s h1) as [[[] h2]| | |].
Qed.

Lemma checked_throw {A : Type} (k : M Real A) h s other :
  slice_valid h s -> slice_valid h other ->
  ~ (slice_count s = slice_count other /\ stride_ s = 1 /\ stride_ other = 1) ->
  is_throw ((run _ <- slice_checks s other; k) h) = true.
Proof.
  intros Hs Ho Hnot. destruct (slice_checks_throw h s other Hs Ho Hnot) as [what Hw].
  unfold bind. by rewrite Hw.
Qed.

Lemma wp_checked {A : Type} (k : M Real A) h s other (Q : A -> heap Real -> Prop) :
  slice_valid h s -> slice_valid h other ->
  slice_count s = slice_count other -> stride_ s = 1 -> stride_ other = 1 ->
  wp k h Q -> wp (run _ <- slice_checks s other; k) h Q.
Proof.
  intros Hs Ho Hsize H1 H2 Hk. apply wp_bind. unfold wpg at 1.
  by rewrite (slice_checks_pass h s other).
Qed.

Lemma wp_is_ok {A : Type} (m : M Real A) h (Q : A -> heap Real -> Prop) :
  wp_total m h Q -> is_ok (m h) = true.
Proof. unfold wpg. by destruct (m h) as [[]| | |]. Qed.

(** A contiguous valid view lies within its block. *)
Lemma contiguous_within h s :
  slice_valid h s -> stride_ s = 1 ->
  exists b, h !! slice_block s = Some b /\ end_ s <= length b \/
            h !! slice_block s = Some b /\ begin_ s = end_ s.
Proof.
  intros (_ & Hle & _ & _ & b & Hb & Hin) H1. exists b.
  destruct (decide (begin_ s = end_ s)) as [Heq|Hne]; [by right|]. left. split; [done|].
  specialize (Hin (end_ s - begin_ s - 1)). rewrite H1 in Hin. lia.
Qed.

(** The in-place operators [-=] and [+=]. *)
Lemma wp_assign h s other op :
  slice_valid h s -> slice_valid h other ->
  slice_count s = slice_count other -> stride_ s = 1 -> stride_ other = 1 ->
  wp (Slice.std_transform (slice_block s) (begin_ s) (end_ s)
        (slice_block other) (begin_ other) (slice_block s) (begin_ s) op) h
     (fun _ h' => same_shape h h').
Proof.
  intros Hs Ho Hsize H1 H2.
  rewrite !slice_count_contiguous in Hsize by done.
  pose proof Hs as (_ & Hle & _). pose proof Ho as (_ & Hle' & _).
  destruct (decide (begin_ s = end_ s)) as [Hempty|Hne].
  { unfold Slice.std_transform.
    rewrite Hempty, Nat.ltb_irrefl, Nat.sub_diag. by apply wp_ret. }
  destruct (contiguous_within h s Hs H1) as (b1 & [[Hb1 Hin1]|[_ ?]]); [|done].
  destruct (contiguous_within h other Ho H2) as (b2 & [[Hb2 Hin2]|[_ ?]]); [|lia].
  apply (wp_std_transform h h _ _ _ _ _ _ _ _ b1 b2 b1); try done; lia.
Qed.

(** The operator [-] that returns a new row matrix. *)
Lemma wp_sub_body h s other :
  slice_valid h s -> slice_valid h other ->
  slice_count s = slice_count other -> stride_ s = 1 -> stride_ other = 1 ->
  wp (run n <- lift (Slice.size s);
      run ret' <- Matrix_new 1 n;
      run _ <- Slice.std_transform (slice_block s) (begin_ s) (end_ s)
                 (slice_block other) (begin_ other)
                 (data_ ret') (0 * nCols_ ret') (fun a b => a - b)%Qc;
      ret ret') h
     (fun r h' => nRows_ r = 1 /\ nCols_ r = slice_count s /\ h !! data_ r = None).
Proof.
  intros Hs Ho Hsize H1 H2.
  apply wp_bind, (wp_lift _ (slice_count s)); [by apply (slice_size_valid h)|].
  apply wp_bind, wp_Matrix_new. intros l Hl. cbn [data_ nCols_ Nat.mul].
  rewrite Nat.add_0_r.
  apply wp_bind.
  set (h0 := <[l := replicate (slice_count s) 0%Qc]> h).
  assert (Hkeep : forall k b, h !! k = Some b -> h0 !! k = Some b).
  { intros k b Hk. unfold h0. rewrite lookup_insert_ne; [done|congruence]. }
  apply (wp_mono _ _ (fun _ h' => same_shape h0 h')); [|intros [] h' _; by apply wp_ret].
  pose proof Hsize as Hsize'.
  rewrite !slice_count_contiguous in Hsize' by done.
  pose proof Hs as (_ & Hle & _). pose proof Ho as (_ & Hle' & _).
  assert (Hcount : slice_count s = end_ s - begin_ s) by (by apply slice_count_contiguous).
  destruct (decide (begin_ s = end_ s)) as [Hempty|Hne].
  { unfold Slice.std_transform.
    rewrite Hempty, Nat.ltb_irrefl, Nat.sub_diag. by apply wp_ret. }
  destruct (contiguous_within h s Hs H1) as (b1 & [[Hb1 Hin1]|[_ ?]]); [|done].
  destruct (contiguous_within h other Ho H2) as (b2 & [[Hb2 Hin2]|[_ ?]]); [|lia].
  apply (wp_std_transform h0 h0 _ _ _ _ _ _ _ _ b1 b2 (replicate (slice_count s) 0%Qc));
    try done; try (by apply Hkeep); try lia.
  - apply lookup_insert_eq.
  - rewrite length_replicate. lia.
Qed.

Lemma slice_count_times s n :
  stride_ s <> 0 -> end_ s = begin_ s + n * stride_ s -> slice_count s = n.
Proof.
  intros Hstride Hend. unfold slice_count. rewrite Hend.
  replace (begin_ s + n * stride_ s - begin_ s) with (n * stride_ s) by lia.
  by apply Nat.div_mul.
Qed.

(** A scalar operator on a valid view. *)
Lemma scalar_spec (f : Real -> Real) h s :
  slice_valid h s ->
  exists b b',
    h !! slice_block s = Some b /\
    Slice.for_each f s h = Ok (tt, <[slice_block s := b']> h) /\
    length b' = length b /\
    (forall i, slice_position s i -> b' !! i = f <$> b !! i) /\
    (forall i, ~ slice_position s i -> b' !! i = b !! i).
Proof.
  intros (Hstride & Hle & _ & [n Hend] & b & Hb & Hin).
  pose proof (slice_count_times s n Hstride Hend) as Hcount.
  assert (Hin' : forall k, k < n -> begin_ s + k * stride_ s < length b).
  { intros k Hk. apply Hin. nia. }
  assert (Hn : n < S (length b)).
  { destruct n as [|n]; [lia|]. specialize (Hin' n). nia. }
  destruct (for_each_from_spec f (slice_block s) (begin_ s) (end_ s) (stride_ s) Hstride
              n (S (length b)) (begin_ s) b h Hb (eq_sym Hend) Hn Hin')
    as (b' & Hrun & Hlen & Hon & Hoff).
  exists b, b'. split; [done|]. split; [|split; [done|split]].
  - unfold Slice.for_each. rewrite Hb. exact Hrun.
  - intros i (k & Hk & ->). apply Hon. lia.
  - intros i Hi. apply Hoff. intros k Hk ->. apply Hi. exists k. split; [lia|done].
Qed.

End SliceFacts.

Section SliceClaim.
Implicit Types (h : heap Real) (s other : sliceIterator).
#[local] Open Scope nat_scope.

(** C7.  On valid views, the operators that combine two slices succeed
    exactly when the slices have the same size and are both contiguous, and
    throw otherwise; the scalar operators update every position the view
    steps on, whatever the stride, and nothing else. *)
Theorem slice_arithmetic :
  (forall h s other,
      slice_valid h s -> slice_valid h other ->
      (slice_count s = slice_count other /\ stride_ s = 1 /\ stride_ other = 1 ->
       is_ok (Slice.sub s other h) = true /\
       is_ok (Slice.sub_assign s other h) = true /\
       is_ok (Slice.add_assign s other h) = true) /\
      (~ (slice_count s = slice_count other /\ stride_ s = 1 /\ stride_ other = 1) ->
       is_throw (Slice.sub s other h) = true /\
       is_throw (Slice.sub_assign s other h) = true /\
       is_throw (Slice.add_assign s other h) = true)) /\
  (forall h s val,
      slice_valid h s ->
      forall op f,
        (op, f) ∈ [(Slice.mul_scalar, fun x => x * val);
                   (Slice.div_scalar, fun x => x / val);
                   (Slice.sub_scalar, fun x => x - val);
                   (Slice.add_scalar, fun x => x + val)]%Qc ->
        exists b b',
          h !! slice_block s = Some b /\
          op s val h = Ok (s, <[slice_block s := b']> h) /\
          length b' = length b /\
          (forall i, slice_position s i -> b' !! i = f <$> b !! i) /\
          (forall i, ~ slice_position s i -> b' !! i = b !! i)).
Proof.
  split.
  - intros h s other Hs Ho. split.
    + intros (Hsize & H1 & H2). repeat split.
      * unfold Slice.sub. rewrite checks_then.
        eapply wp_is_ok, wp_checked; [done..|]. by apply wp_sub_body.
      * unfold Slice.sub_assign. rewrite checks_then.
        apply (wp_is_ok _ _ (fun _ _ => True)), wp_checked; [done..|].
        apply wp_bind. eapply wp_mono; [by apply wp_assign|].
        intros [] h' _. by apply wp_ret.
      * unfold Slice.add_assign. rewrite checks_then.
        apply (wp_is_ok _ _ (fun _ _ => True)), wp_checked; [done..|].
        apply wp_bind. eapply wp_mono; [by apply wp_assign|].
        intros [] h' _. by apply wp_ret.
    + intros Hnot. repeat split.
      * unfold Slice.sub. rewrite checks_then. by apply checked_throw.
      * unfold Slice.sub_assign. rewrite checks_then. by apply checked_throw.
      * unfold Slice.add_assign. rewrite checks_then. by apply checked_throw.
  - intros h s val Hs op f Hop.
    assert (Hrun : forall g, exists b b',
               h !! slice_block s = Some b /\
               (run _ <- Slice.for_each g s; ret s) h = Ok (s, <[slice_block s := b']> h) /\
               length b' = length b /\
               (forall i, slice_position s i -> b' !! i = g <$> b !! i) /\
               (forall i, ~ slice_position s i -> b' !! i = b !! i)).
    { intros g. destruct (scalar_spec g h s Hs) as (b & b' & Hb & Hrun & Hrest).
      exists b, b'. split; [done|]. split; [|done]. unfold bind. by rewrite Hrun. }
    rewrite !elem_of_cons, elem_of_nil in Hop.
    destruct Hop as [[= -> ->]|[[= -> ->]|[[= -> ->]|[[= -> ->]|[]]]]].
    + apply Hrun.
    + destruct (Hrun (fun element => element * (1 / val))%Qc)
        as (b & b' & Hb & Hr & Hlen & Hon & Hoff).
      exists b, b'. split; [done|]. split; [exact Hr|]. split; [done|]. split; [|done].
      intros i Hi. rewrite (Hon i Hi). destruct (b !! i) as [x|]; [|done].
      cbn. f_equal. unfold Qcdiv. ring.
    + apply Hrun.
    + apply Hrun.
Qed.

End SliceClaim.
(** ** [diagonalize] *)

Section ThreeBlocks.
Implicit Types (h : heap Real) (l : loc).

Lemma three_blocks_1 h l1 l2 l3 b1 b2 b3 h' b1' :
  l1 <> l2 -> l1 <> l3 ->
  three_blocks h l1 l2 l3 b1 b2 b3 h' ->
  three_blocks h l1 l2 l3 b1' b2 b3 (<[l1 := b1']> h').
Proof.
  intros H12 H13 [H1 H2 H3 Hf]. split.
  - apply lookup_insert_eq.
  - by rewrite lookup_insert_ne.
  - by rewrite lookup_insert_ne.
  - intros l Hl1 Hl2 Hl3. rewrite lookup_insert_ne by done. by apply Hf.
Qed.

Lemma three_blocks_2 h l1 l2 l3 b1 b2 b3 h' b2' :
  l1 <> l2 -> l2 <> l3 ->
  three_blocks h l1 l2 l3 b1 b2 b3 h' ->
  three_blocks h l1 l2 l3 b1 b2' b3 (<[l2 := b2']> h').
Proof.
  intros H12 H23 [H1 H2 H3 Hf]. split.
  - by rewrite lookup_insert_ne.
  - apply lookup_insert_eq.
  - by rewrite lookup_insert_ne.
  - intros l Hl1 Hl2 Hl3. rewrite lookup_insert_ne by done. by apply Hf.
Qed.

Lemma three_blocks_3 h l1 l2 l3 b1 b2 b3 h' b3' :
  l1 <> l3 -> l2 <> l3 ->
  three_blocks h l1 l2 l3 b1 b2 b3 h' ->
  three_blocks h l1 l2 l3 b1 b2 b3' (<[l3 := b3']> h').
Proof.
  intros H13 H23 [H1 H2 H3 Hf]. split.
  - by rewrite lookup_insert_ne.
  - by rewrite lookup_insert_ne.
  - apply lookup_insert_eq.
  - intros l Hl1 Hl2 Hl3. rewrite lookup_insert_ne by done. by apply Hf.
Qed.

Lemma three_blocks_contents h l1 l2 l3 b1 b2 b3 h' this (a : list Real) :
  three_blocks h l1 l2 l3 b1 b2 b3 h' ->
  h !! l1 = None -> h !! l2 = None -> h !! l3 = None ->
  contents h this = Some a -> contents h' this = Some a.
Proof.
  intros [_ _ _ Hf] H1 H2 H3 Ha. unfold contents in *.
  rewrite Hf; [done|intros <-..].
  - by rewrite H1 in Ha.
  - by rewrite H2 in Ha.
  - by rewrite H3 in Ha.
Qed.

End ThreeBlocks.

Section DiagonalizeFacts.
Context `{LapackWrapper} `{StdSort}.
Implicit Types (h : heap Real) (this : Matrix).
Context {E : string -> Prop} {U : Prop}.
#[local] Abbreviation wp m h Q := (wpg m h Q E U).
#[local] Open Scope nat_scope.

Lemma ordered_tuples_perm order tuples : ordered_tuples order tuples ≡ₚ tuples.
Proof.
  destruct order; cbn.
  - apply std_sort_perm.
  - rewrite reverse_Permutation. apply std_sort_perm.
Qed.

Lemma solver_tuples_length n solved : length (solver_tuples n solved) = n.
Proof. unfold solver_tuples. by rewrite length_fmap, length_seq. Qed.

Lemma ordered_tuples_length order n solved :
  length (ordered_tuples order (solver_tuples n solved)) = n.
Proof. by rewrite ordered_tuples_perm, solver_tuples_length. Qed.

Lemma ordered_tuples_vector order n solved k e :
  ordered_tuples order (solver_tuples n solved) !! k = Some e ->
  exists j, j < n /\ vector e = j * n.
Proof.
  intros He%list_elem_of_lookup_2. rewrite ordered_tuples_perm in He.
  unfold solver_tuples in He. apply list_elem_of_fmap in He as (j & -> & Hj%elem_of_seq).
  exists j. split; [lia|done].
Qed.

(** The loop that gathers the tuples. *)
Lemma wp_gather_tuples h n l1 l2 nCols3 (wr wi : list Real)
      (Q : list eigenInfo -> heap Real -> Prop) :
  h !! l1 = Some wr -> h !! l2 = Some wi -> length wr = n -> length wi = n ->
  Q ((fun val => mkEigenInfo (elem wr val) (elem wi val) (val * nCols3)) <$> seq 0 n) h ->
  wp (mfoldl (fun tuples val =>
        run r <- load_at l1 (val * 1 + 0);
        run i <- load_at l2 (val * 1 + 0);
        ret (tuples ++ [mkEigenInfo r i (val * nCols3)]))
      [] (seq 0 n)) h Q.
Proof.
  intros H1 H2 Hwr Hwi HQ.
  eapply wp_mono.
  { apply (wp_mfoldl_seq (fun k tuples h' =>
       h' = h /\
       tuples = (fun val => mkEigenInfo (elem wr val) (elem wi val) (val * nCols3))
                  <$> seq 0 k)); [done|].
    intros k tuples h' Hk [-> ->]. cbn [Nat.add].
    replace (k * 1 + 0) with k by lia.
    apply wp_bind, (wp_load_at _ _ _ wr (elem wr k)); [done|apply elem_lookup; lia|].
    apply wp_bind, (wp_load_at _ _ _ wi (elem wi k)); [done|apply elem_lookup; lia|].
    apply wp_ret. split; [done|]. by rewrite seq_S, fmap_app. }
  by intros tuples h' [-> ->].
Qed.

(** The loop that stores the ordered eigenvalues and gathers the ordered
    eigenvectors in [clone]. *)
Lemma wp_store_ordered h h0 n l1 l2 l3 (wr wi vl a : list Real) (ordered : list eigenInfo)
      (Q : list Real -> heap Real -> Prop) :
  l1 <> l2 -> l1 <> l3 -> l2 <> l3 ->
  three_blocks h0 l1 l2 l3 wr wi vl h ->
  length wr = n -> length wi = n -> length vl = n * n -> length a = n * n ->
  length ordered = n ->
  (forall k e, ordered !! k = Some e -> exists j, j < n /\ vector e = j * n) ->
  (forall clone h',
      three_blocks h0 l1 l2 l3 (valueReal <$> ordered) (valueImag <$> ordered) vl h' ->
      length clone = n * n ->
      (forall r c e, r < n -> c < n -> ordered !! r = Some e ->
                     clone !! (r * n + c) = Some (elem vl (vector e + c))) ->
      Q clone h') ->
  wp (mfoldl (fun clone val =>
        run e <- lift (load ordered (Z.of_nat val));
        run _ <- store_at l1 val (valueReal e);
        run _ <- store_at l2 val (valueImag e);
        run v <- get_range l3 (vector e) n;
        lift (overwrite clone (val * n) v))
      a (seq 0 n)) h Q.
Proof.
  intros H12 H13 H23 Htb Hwr Hwi Hvl Ha Hord Hvec HQ.
  eapply wp_mono.
  { apply (wp_mfoldl_seq (fun k clone h' =>
       exists b1 b2,
         three_blocks h0 l1 l2 l3 b1 b2 vl h' /\ length b1 = n /\ length b2 = n /\
         (forall j e, j < k -> ordered !! j = Some e ->
                      b1 !! j = Some (valueReal e) /\ b2 !! j = Some (valueImag e)) /\
         length clone = n * n /\
         (forall r c e, r < k -> c < n -> ordered !! r = Some e ->
                        clone !! (r * n + c) = Some (elem vl (vector e + c))))).
    { exists wr, wi. split; [done|]. split; [done|]. split; [done|].
      split; [intros; lia|]. split; [done|]. intros; lia. }
    intros k clone h' Hk (b1 & b2 & Htb' & Hb1 & Hb2 & Hvals & Hclone & Hrows).
    cbn [Nat.add].
    destruct (lookup_lt_is_Some_2 ordered k) as [e He]; [lia|].
    destruct (Hvec k e He) as (j & Hj & Hje).
    apply wp_bind, (wp_lift _ e); [by apply load_of_nat|].
    apply wp_bind, (wp_store_at _ _ _ _ b1); [apply Htb'|lia|].
    apply wp_bind, (wp_store_at _ _ _ _ b2).
    { rewrite lookup_insert_ne by done. apply Htb'. }
    { lia. }
    apply wp_bind, (wp_get_range _ _ _ _ vl).
    { rewrite !lookup_insert_ne by done. apply Htb'. }
    { rewrite Hje, Hvl. nia. }
    assert (Hv : length (take n (drop (vector e) vl)) = n).
    { rewrite length_take, length_drop, Hje, Hvl. nia. }
    apply (wp_lift _ (take (k * n) clone ++ take n (drop (vector e) vl)
                       ++ drop (k * n + n) clone)).
    { rewrite overwrite_ok by (rewrite Hv, Hclone; nia). by rewrite Hv. }
    exists (<[k := valueReal e]> b1), (<[k := valueImag e]> b2).
    split; [|split; [|split; [|split; [|split]]]].
    - eapply three_blocks_2; [done..|]. eapply three_blocks_1; [done..|]. exact Htb'.
    - by rewrite length_insert.
    - by rewrite length_insert.
    - intros j' e' Hj' He'. destruct (decide (j' = k)) as [->|Hne].
      + assert (e' = e) as -> by congruence.
        by rewrite !list_lookup_insert_eq by lia.
      + rewrite !list_lookup_insert_ne by done. apply Hvals; [lia|done].
    - rewrite !length_app, length_take, length_drop, Hv, Hclone. nia.
    - intros r c e' Hr Hc He'.
      assert (Htake : length (take (k * n) clone) = k * n).
      { rewrite length_take, Hclone. nia. }
      destruct (decide (r = k)) as [->|Hne].
      + assert (e' = e) as -> by congruence.
        rewrite lookup_app_r by (rewrite Htake; lia).
        rewrite Htake, lookup_app_l by (rewrite Hv; lia).
        replace (k * n + c - k * n) with c by lia.
        rewrite lookup_take_lt by done. rewrite lookup_drop.
        apply elem_lookup. rewrite Hje, Hvl. nia.
      + rewrite lookup_app_l by (rewrite Htake; nia).
        rewrite lookup_take_lt by nia. apply Hrows; [lia|done..]. }
  intros clone h' (b1 & b2 & Htb' & Hb1 & Hb2 & Hvals & Hclone & Hrows).
  assert (b1 = valueReal <$> ordered) as ->.
  { apply list_eq. intros j. rewrite list_lookup_fmap.
    destruct (ordered !! j) as [e|] eqn:He.
    - apply (Hvals j e); [|done]. apply lookup_lt_Some in He. lia.
    - apply lookup_ge_None in He. apply lookup_ge_None. lia. }
  assert (b2 = valueImag <$> ordered) as ->.
  { apply list_eq. intros j. rewrite list_lookup_fmap.
    destruct (ordered !! j) as [e|] eqn:He.
    - apply (Hvals j e); [|done]. apply lookup_lt_Some in He. lia.
    - apply lookup_ge_None in He. apply lookup_ge_None. lia. }
  by apply HQ.
Qed.


(** The allocations and the call of the solver. *)
Lemma three_blocks_fresh h l1 l2 l3 (b1 b2 b3 : list Real) :
  h !! l1 = None -> <[l1 := b1]> h !! l2 = None ->
  <[l2 := b2]> (<[l1 := b1]> h) !! l3 = None ->
  l1 <> l2 /\ l1 <> l3 /\ l2 <> l3 /\ h !! l2 = None /\ h !! l3 = None /\
  three_blocks h l1 l2 l3 b1 b2 b3 (<[l3 := b3]> (<[l2 := b2]> (<[l1 := b1]> h))).
Proof.
  intros H1 H2 H3.
  apply lookup_insert_None in H2 as [H2 H12].
  apply lookup_insert_None in H3 as [H3 H23].
  apply lookup_insert_None in H3 as [H3 H13].
  split; [done|]. split; [done|]. split; [done|]. split; [done|]. split; [done|].
  split.
  - by rewrite !lookup_insert_ne, lookup_insert_eq by congruence.
  - by rewrite lookup_insert_ne, lookup_insert_eq by congruence.
  - by rewrite lookup_insert_eq.
  - intros l Hl1 Hl2 Hl3. by rewrite !lookup_insert_ne by congruence.
Qed.

Ltac diagonalize_start this a Ha Hsq l1 l2 l3 Htb :=
  let Hl1 := fresh "Hl1" in
  let Hl2 := fresh "Hl2" in
  let Hl3 := fresh "Hl3" in
  unfold diagonalize; rewrite Hsq, Nat.eqb_refl; cbn [negb];
  apply wp_bind, wp_Matrix_new; intros l1 Hl1;
  apply wp_bind, wp_Matrix_new; intros l2 Hl2;
  apply wp_bind, wp_Matrix_new; intros l3 Hl3;
  destruct (three_blocks_fresh _ _ _ _ _ _
              (replicate (nCols_ this * nCols_ this) (zero : Real)) Hl1 Hl2 Hl3)
    as (?H12 & ?H13 & ?H23 & ?Hf2 & ?Hf3 & Htb);
  apply wp_bind;
  eapply wp_elements;
    [exact (three_blocks_contents _ _ _ _ _ _ _ _ _ _ Htb Hl1 Hf2 Hf3 Ha)|];
  cbn [data_];
  apply wp_bind;
  eapply wp_set_whole;
    [apply Htb | by rewrite diagonalizer_wr, length_replicate, Nat.mul_1_r |];
  eapply (three_blocks_1 _ _ _ _ _ _ _ _ (geev_wr (diagonalizer (nCols_ this) a))) in Htb; [|done..];
  apply wp_bind;
  eapply wp_set_whole;
    [apply Htb | by rewrite diagonalizer_wi, length_replicate, Nat.mul_1_r |];
  eapply (three_blocks_2 _ _ _ _ _ _ _ _ (geev_wi (diagonalizer (nCols_ this) a))) in Htb; [|done..];
  apply wp_bind;
  eapply wp_set_whole;
    [apply Htb | by rewrite diagonalizer_vl, length_replicate |];
  eapply (three_blocks_3 _ _ _ _ _ _ _ _ (geev_vl (diagonalizer (nCols_ this) a))) in Htb; [|done..].

Lemma wp_diagonalize_nonsquare h this order (Q : Matrix * Matrix * Matrix -> heap Real -> Prop) :
  nRows_ this <> nCols_ this ->
  E "Attempting to diagonalize a non-square matrix." ->
  wp (diagonalize this order) h Q.
Proof.
  intros Hne HE. unfold diagonalize.
  destruct (Nat.eqb_spec (nRows_ this) (nCols_ this)); [done|]. by apply wp_throw.
Qed.

Lemma wp_diagonalize_failed h this (a : list Real) order
      (Q : Matrix * Matrix * Matrix -> heap Real -> Prop) :
  contents h this = Some a -> nRows_ this = nCols_ this ->
  geev_info (diagonalizer (nCols_ this) a) <> 0%Z ->
  E "Something went wrong during diagonalization!" ->
  wp (diagonalize this order) h Q.
Proof.
  intros Ha Hsq Hinfo HE.
  diagonalize_start this a Ha Hsq l1 l2 l3 Htb.
  destruct (Z.eqb_spec (geev_info (diagonalizer (nCols_ this) a)) 0); [done|].
  by apply wp_throw.
Qed.

(** Up to the transposition that puts the eigenvectors in columns:
    [evecs] holds the ordered eigenvectors by row. *)
Lemma wp_diagonalize_rows h this (a : list Real) order
      (Q : Matrix * Matrix * Matrix -> heap Real -> Prop) :
  let n := nCols_ this in
  let solved := diagonalizer n a in
  let ordered := ordered_tuples order (solver_tuples n solved) in
  contents h this = Some a -> nRows_ this = nCols_ this ->
  geev_info solved = 0%Z ->
  (forall l1 l2 l3 h' clone,
      h !! l1 = None -> h !! l2 = None -> h !! l3 = None ->
      l1 <> l2 -> l1 <> l3 -> l2 <> l3 ->
      three_blocks h l1 l2 l3 (valueReal <$> ordered) (valueImag <$> ordered) clone h' ->
      length clone = n * n ->
      (forall r c e, r < n -> c < n -> ordered !! r = Some e ->
                     clone !! (r * n + c) = Some (elem (geev_vl solved) (vector e + c))) ->
      wp (run evecs <- transposeInPlace (mkMatrix n n l3);
          ret (mkMatrix n 1 l1, mkMatrix n 1 l2, evecs)) h' Q) ->
  wp (diagonalize this order) h Q.
Proof.
  intros n solved ordered Ha Hsq Hinfo HQ.
  pose proof (contents_length _ _ _ Ha) as Hlen. rewrite Hsq in Hlen. fold n in Hlen.
  diagonalize_start this a Ha Hsq l1 l2 l3 Htb.
  fold n solved in Htb |- *. rewrite Hinfo. cbn [Z.eqb negb nCols_].
  apply wp_bind.
  apply (wp_gather_tuples _ n l1 l2 n (geev_wr solved) (geev_wi solved));
    [apply Htb|apply Htb|apply diagonalizer_wr|apply diagonalizer_wi|].
  fold (solver_tuples n solved).
  change (match order with
          | Ascending => std_sort (solver_tuples n solved)
          | Descending => reverse (std_sort (solver_tuples n solved))
          end) with ordered.
  apply wp_bind.
  apply (wp_store_ordered _ h n l1 l2 l3 (geev_wr solved) (geev_wi solved) (geev_vl solved));
    try done.
  - apply diagonalizer_wr.
  - apply diagonalizer_wi.
  - apply diagonalizer_vl.
  - apply ordered_tuples_length.
  - intros k e. apply ordered_tuples_vector.
  - intros clone h' Htb' Hclone Hrows.
    apply wp_bind. eapply wp_set_whole;
      [apply Htb'|rewrite Hclone; symmetry; apply diagonalizer_vl|].
    apply (three_blocks_3 _ _ _ _ _ _ _ _ clone) in Htb'; [|done..].
    by apply (HQ l1 l2 l3 _ clone).
Qed.

End DiagonalizeFacts.

Section DiagonalizeTotal.
Context `{LapackWrapper} `{StdSort}.
Context {E : string -> Prop} {U : Prop}.
#[local] Abbreviation wp m h Q := (wpg m h Q E U).
Implicit Types (h : heap Real) (this : Matrix).
#[local] Open Scope nat_scope.

(** [diagonalize] on a matrix the solver succeeds on, within the range of
    [int]: the eigenvalues are stored in their order, and column [k] of
    [evecs] is the eigenvector of the [k]-th tuple. *)
Lemma wp_diagonalize h this (a : list Real) order
      (Q : Matrix * Matrix * Matrix -> heap Real -> Prop) :
  let n := nCols_ this in
  let solved := diagonalizer n a in
  let ordered := ordered_tuples order (solver_tuples n solved) in
  contents h this = Some a -> nRows_ this = nCols_ this ->
  geev_info solved = 0%Z ->
  1 <= n -> (Z.of_nat n * Z.of_nat (n * n) <= Int.max_signed)%Z ->
  (forall l1 l2 l3 h' vecs,
      h !! l1 = None -> h !! l2 = None -> h !! l3 = None ->
      l1 <> l2 -> l1 <> l3 -> l2 <> l3 ->
      three_blocks h l1 l2 l3 (valueReal <$> ordered) (valueImag <$> ordered) vecs h' ->
      length vecs = n * n ->
      (forall r k e, r < n -> k < n -> ordered !! k = Some e ->
                     vecs !! (r * n + k) = Some (elem (geev_vl solved) (vector e + r))) ->
      Q (mkMatrix n 1 l1, mkMatrix n 1 l2, mkMatrix n n l3) h') ->
  wp (diagonalize this order) h Q.
Proof.
  intros n solved ordered Ha Hsq Hinfo Hn Hmax HQ.
  apply (wp_diagonalize_rows h this a order); [done..|].
  fold n solved ordered.
  intros l1 l2 l3 h' clone Hl1 Hl2 Hl3 H12 H13 H23 Htb Hclone Hrows.
  apply wp_bind, (wp_transposeInPlace _ _ clone); cbn [nRows_ nCols_ data_]; [|done..|].
  { unfold contents. cbn [nRows_ nCols_ data_]. rewrite (tb_3 _ _ _ _ _ _ _ _ Htb).
    destruct (Nat.leb_spec (n * n) (length clone)); [|lia].
    f_equal. apply take_ge. lia. }
  intros out b Hb Hout Hperm. rewrite (tb_3 _ _ _ _ _ _ _ _ Htb) in Hb.
  assert (b = clone) as -> by congruence.
  rewrite drop_ge, app_nil_r by lia.
  apply wp_ret. apply (HQ l1 l2 l3 _ out); try done.
  - by apply (three_blocks_3 _ _ _ _ _ _ clone).
  - intros r k e Hr Hk He.
    rewrite <- (transposed_index_rc n n k r) by done.
    rewrite Hperm by nia. by apply Hrows.
Qed.

End DiagonalizeTotal.

Section DiagonalizeClaim.
Context `{LapackWrapper} `{StdSort}.
Implicit Types (h : heap Real) (this : Matrix).
#[local] Open Scope nat_scope.

Lemma StronglySorted_lookup {A : Type} (R : A -> A -> Prop) (l : list A) i j x y :
  StronglySorted R l -> i < j -> l !! i = Some x -> l !! j = Some y -> R x y.
Proof.
  intros Hs. revert i j. induction Hs as [|z l Hs IH Hall]; intros i j Hij Hx Hy; [done|].
  destruct j as [|j]; [lia|]. destruct i as [|i].
  - injection Hx as <-. rewrite Forall_forall in Hall. apply Hall.
    by eapply list_elem_of_lookup_2.
  - apply (IH i j); [lia|done..].
Qed.

Lemma take_drop_elem (vl : list Real) off n :
  off + n <= length vl ->
  take n (drop off vl) = (fun r => elem vl (off + r)) <$> seq 0 n.
Proof.
  intros Hlen. apply list_eq. intros i. rewrite list_lookup_fmap.
  destruct (decide (i < n)) as [Hi|Hi].
  - rewrite lookup_take_lt, lookup_drop, lookup_seq_lt by done. cbn.
    apply elem_lookup. lia.
  - rewrite lookup_take_ge, lookup_seq_ge by lia. done.
Qed.

Lemma elem_fmap {A : Type} (f : A -> Real) (l : list A) k x :
  l !! k = Some x -> elem (f <$> l) k = f x.
Proof. intros Hk. unfold elem. by rewrite list_lookup_fmap, Hk. Qed.

(** The eigenpairs a result holds are those of the ordered tuples. *)
Lemma result_eigenpairs_ordered n (vl vecs : list Real) (ordered : list eigenInfo) :
  length ordered = n -> length vl = n * n ->
  (forall k e, ordered !! k = Some e -> exists j, j < n /\ vector e = j * n) ->
  (forall r k e, r < n -> k < n -> ordered !! k = Some e ->
                 vecs !! (r * n + k) = Some (elem vl (vector e + r))) ->
  result_eigenpairs n (valueReal <$> ordered) (valueImag <$> ordered) vecs
  = eigenpair_of n vl <$> ordered.
Proof.
  intros Hlen Hvl Hvec Hcols. apply list_eq. intros k.
  unfold result_eigenpairs. rewrite !list_lookup_fmap.
  destruct (ordered !! k) as [e|] eqn:He.
  - assert (Hk : k < n) by (apply lookup_lt_Some in He; lia).
    rewrite lookup_seq_lt by done. cbn. f_equal. unfold eigenpair_of.
    rewrite (elem_fmap _ _ _ _ He), (elem_fmap _ _ _ _ He). f_equal.
    destruct (Hvec k e He) as (j & Hj & Hje).
    rewrite take_drop_elem by (rewrite Hje, Hvl; nia).
    unfold column. apply list_fmap_ext. intros i r Hr%lookup_seq. cbn in Hr.
    destruct Hr as [-> Hr]. unfold elem at 1. by rewrite (Hcols i k e).
  - apply lookup_ge_None in He. rewrite lookup_seq_ge by lia. done.
Qed.

Lemma ordered_tuples_monotone order tuples :
  monotone order (valueReal <$> ordered_tuples order tuples).
Proof.
  assert (Hsorted : forall i j x y, i <= j ->
             std_sort tuples !! i = Some x -> std_sort tuples !! j = Some y ->
             (valueReal x <= valueReal y)%Qc).
  { intros i j x y Hij Hx Hy. destruct (decide (i = j)) as [->|Hne].
    - assert (x = y) as -> by congruence. apply Qcle_refl.
    - apply Real_ltb_ge.
      apply (StronglySorted_lookup _ _ i j x y (std_sort_sorted tuples)); [lia|done..]. }
  destruct order; cbn; intros i j x y Hij; rewrite !list_lookup_fmap;
    intros Hx Hy.
  - destruct (std_sort tuples !! i) as [ei|] eqn:Hi; [|done].
    destruct (std_sort tuples !! j) as [ej|] eqn:Hj; [|done].
    injection Hx as <-. injection Hy as <-. by apply (Hsorted i j).
  - destruct (reverse (std_sort tuples) !! i) as [ei|] eqn:Hi; [|done].
    destruct (reverse (std_sort tuples) !! j) as [ej|] eqn:Hj; [|done].
    injection Hx as <-. injection Hy as <-.
    pose proof (lookup_lt_Some _ _ _ Hi) as Hli.
    pose proof (lookup_lt_Some _ _ _ Hj) as Hlj.
    rewrite length_reverse in Hli, Hlj.
    rewrite reverse_lookup in Hi, Hj by done.
    apply (Hsorted _ _ _ _ (ltac:(lia) : length (std_sort tuples) - S j
                                          <= length (std_sort tuples) - S i) Hj Hi).
Qed.

Lemma wp_is_throw {A : Type} (m : M Real A) h :
  wpg m h (fun _ _ => False) (fun _ => True) False -> is_throw (m h) = true.
Proof. unfold wpg. by destruct (m h) as [[]| | |]. Qed.

(** C4, amended.  [diagonalize] throws on a matrix that is not square and
    when the eigensolver reports an error.  On a square matrix with at
    least one element, within the range of [int], on which the solver
    succeeds, it returns; the eigenpairs of the result (eigenvalue [k] with
    column [k] of the eigenvector matrix) are the eigenpairs of the solver
    in another order, and their real parts are monotone in the requested
    order, equal values being allowed. *)
Theorem diagonalize_orders_eigenpairs h this (a : list Real) order :
  contents h this = Some a ->
  let n := nCols_ this in
  let solved := diagonalizer n a in
  (nRows_ this <> nCols_ this -> is_throw (diagonalize this order h) = true) /\
  (nRows_ this = nCols_ this -> geev_info solved <> 0%Z ->
   is_throw (diagonalize this order h) = true) /\
  (nRows_ this = nCols_ this -> geev_info solved = 0%Z ->
   1 <= n -> (Z.of_nat n * Z.of_nat (n * n) <= Int.max_signed)%Z ->
   exists evalsReal evalsImag evecs h' re im vecs,
     diagonalize this order h = Ok ((evalsReal, evalsImag, evecs), h') /\
     contents h' evalsReal = Some re /\ contents h' evalsImag = Some im /\
     contents h' evecs = Some vecs /\
     length re = n /\ length im = n /\ nRows_ evecs = n /\ nCols_ evecs = n /\
     result_eigenpairs n re im vecs
       ≡ₚ eigenpair_of n (geev_vl solved) <$> solver_tuples n solved /\
     monotone order re).
Proof.
  intros Ha n solved. split; [|split].
  - intros Hne. by apply wp_is_throw, wp_diagonalize_nonsquare.
  - intros Hsq Hinfo. by apply wp_is_throw, (wp_diagonalize_failed h this a).
  - intros Hsq Hinfo Hn Hmax.
    set (ordered := ordered_tuples order (solver_tuples n solved)).
    assert (Hwp : wp_total (diagonalize this order) h (fun result h' =>
              exists l1 l2 l3 vecs,
                result = (mkMatrix n 1 l1, mkMatrix n 1 l2, mkMatrix n n l3) /\
                three_blocks h l1 l2 l3 (valueReal <$> ordered) (valueImag <$> ordered)
                             vecs h' /\
                length vecs = n * n /\
                (forall r k e, r < n -> k < n -> ordered !! k = Some e ->
                   vecs !! (r * n + k) = Some (elem (geev_vl solved) (vector e + r))))).
    { apply (wp_diagonalize h this a order); [done..|].
      intros l1 l2 l3 h' vecs _ _ _ _ _ _ Htb Hlen Hcols. by exists l1, l2, l3, vecs. }
    apply wp_run in Hwp
      as (result & h' & Hrun & l1 & l2 & l3 & vecs & -> & Htb & Hlen & Hcols).
    assert (Hord : length ordered = n) by apply ordered_tuples_length.
    exists (mkMatrix n 1 l1), (mkMatrix n 1 l2), (mkMatrix n n l3), h',
           (valueReal <$> ordered), (valueImag <$> ordered), vecs.
    split; [done|].
    assert (Hblock : forall l (b : list Real) r c,
              h' !! l = Some b -> length b = r * c ->
              contents h' (mkMatrix r c l) = Some b).
    { intros l b r c Hl Hb. unfold contents. cbn [nRows_ nCols_ data_]. rewrite Hl.
      destruct (Nat.leb_spec (r * c) (length b)); [|lia]. f_equal. apply take_ge. lia. }
    split; [apply Hblock; [apply Htb|rewrite length_fmap; lia]|].
    split; [apply Hblock; [apply Htb|rewrite length_fmap; lia]|].
    split; [apply Hblock; [apply Htb|done]|].
    split; [by rewrite length_fmap|]. split; [by rewrite length_fmap|].
    split; [done|]. split; [done|]. split.
    + rewrite (result_eigenpairs_ordered n (geev_vl solved) vecs ordered); try done.
      * unfold ordered. by rewrite ordered_tuples_perm.
      * apply diagonalizer_vl.
      * intros k e. apply ordered_tuples_vector.
    + apply ordered_tuples_monotone.
Qed.

End DiagonalizeClaim.

(** ** [applyOperation] and the spectral branch of [inverse] *)

Section ApplyOperationFacts.
Context `{LapackWrapper} `{StdSort}.
Context {E : string -> Prop} {U : Prop}.
#[local] Abbreviation wp m h Q := (wpg m h Q E U).
Implicit Types (h : heap Real) (this : Matrix).
#[local] Open Scope nat_scope.

(** [assertSymmetric] passes on a symmetric matrix and throws on any
    other. *)
Lemma wp_assertSymmetric h this (a : list Real) threshold (Q : unit -> heap Real -> Prop) :
  contents h this = Some a -> nRows_ this = nCols_ this ->
  (symmetric_within threshold (nCols_ this) a -> Q tt h) ->
  (~ symmetric_within threshold (nCols_ this) a ->
   E "Unexpected non-symmetric matrix found.") ->
  wp (assertSymmetric this threshold) h Q.
Proof.
  intros Ha Hsq Hpass Hthrow. unfold assertSymmetric, assertSquare.
  rewrite Hsq, Nat.eqb_refl. cbn [negb]. apply wp_bind, wp_ret.
  set (n := nCols_ this).
  pose proof (contents_length _ _ _ Ha) as Hlen. rewrite Hsq in Hlen. fold n in Hlen.
  set (ok := fun row col =>
               (Qcabs (elem a (row * n + col) - elem a (col * n + row)) <= threshold)%Qc).
  eapply wp_mono.
  { apply (wp_mfoldl_seq (fun r (_ : unit) h' =>
       h' = h /\ forall row col, col < row -> row < r -> ok row col)).
    { split; [done|]. intros; lia. }
    intros r [] h' Hr [-> Hrows]. cbn [Nat.add].
    eapply wp_mono.
    { apply (wp_mfoldl_seq (fun c (_ : unit) h' =>
         h' = h /\ forall col, col < c -> ok r col)).
      { split; [done|]. intros; lia. }
      intros c [] h' Hc [-> Hcols]. cbn [Nat.add].
      destruct (contents_lookup h this a (r * n + c) Ha) as (b & Hb & Hx);
        [rewrite Hsq; fold n; nia|].
      destruct (contents_lookup h this a (c * n + r) Ha) as (b' & Hb' & Hy);
        [rewrite Hsq; fold n; nia|].
      assert (b' = b) as -> by congruence.
      apply wp_bind, (wp_load_at _ _ _ b (elem a (r * n + c))); [done..|].
      apply wp_bind, (wp_load_at _ _ _ b (elem a (c * n + r))); [done..|].
      destruct (Real_ltb threshold (Qcabs (elem a (r * n + c) - elem a (c * n + r))))
        eqn:Hcmp.
      - apply wp_throw, Hthrow. intros Hsym.
        apply Real_ltb_lt in Hcmp. apply (Qclt_not_le _ _ Hcmp). by apply Hsym.
      - apply wp_ret. split; [done|]. intros col Hcol.
        destruct (decide (col = c)) as [->|Hne]; [by apply Real_ltb_ge|].
        apply Hcols. lia. }
    intros [] h' [-> Hcols]. split; [done|].
    intros row col Hcol Hrow. destruct (decide (row = r)) as [->|Hne]; [by apply Hcols|].
    apply Hrows; lia. }
  intros [] h' [-> Hall]. apply Hpass. intros row col Hcol Hrow. by apply Hall.
Qed.

Lemma wp_isNearZero h this (vals : list Real) threshold (Q : bool -> heap Real -> Prop) :
  contents h this = Some vals ->
  Q (negb (existsb (fun val => Real_ltb threshold (Qcabs val)) vals)) h ->
  wp (isNearZero this threshold) h Q.
Proof.
  intros Hc HQ. unfold isNearZero. apply wp_bind, (wp_elements _ _ vals); [done|].
  by apply wp_ret.
Qed.

(** The loop that scales row [k] of [evecsT] by the transformed
    eigenvalue [k]. *)
Lemma wp_scale_rows h n l1 l4 (flam vT : list Real) (Q : unit -> heap Real -> Prop) :
  h !! l1 = Some flam -> l1 <> l4 -> length flam = n -> length vT = n * n ->
  (forall w, length w = n * n ->
             (forall k c, k < n -> c < n ->
                          w !! (k * n + c) = Some (elem vT (k * n + c) * elem flam k)%Qc) ->
             Q tt (<[l4 := w]> h)) ->
  wp (mfoldl (fun _ row =>
        run transformedEigenvalue <- load_at l1 (row * 1 + 0);
        mfoldl (fun _ i =>
          run val <- load_at l4 i;
          store_at l4 i (val * transformedEigenvalue)%Qc)
        tt (seq (row * n) n))
      tt (seq 0 n)) (<[l4 := vT]> h) Q.
Proof.
  intros Hl1 Hne Hflam HvT HQ.
  set (scaled := fun pos (h' : heap Real) =>
     exists w, h' = <[l4 := w]> h /\ length w = n * n /\
       forall k c, k < n -> c < n ->
         w !! (k * n + c)
         = Some (if k * n + c <? pos then elem vT (k * n + c) * elem flam k
                 else elem vT (k * n + c))%Qc).
  eapply wp_mono.
  { apply (wp_mfoldl_seq (fun r (_ : unit) h' => scaled (r * n) h')).
    { exists vT. split; [done|]. split; [done|]. intros k c Hk Hc. cbn.
      apply elem_lookup. nia. }
    intros r [] h' Hr Hsc. cbn [Nat.add]. replace (r * 1 + 0) with r by lia.
    apply wp_bind, (wp_load_at _ _ _ flam (elem flam r)).
    { destruct Hsc as (w & -> & _). by rewrite lookup_insert_ne. }
    { apply elem_lookup. lia. }
    eapply wp_mono.
    { apply (wp_mfoldl_seq (fun c (_ : unit) h' => scaled (r * n + c) h')).
      { by rewrite Nat.add_0_r. }
      intros c [] h'' Hc (w & -> & Hw & Hvals).
      apply wp_bind, (wp_load_at _ _ _ w (elem vT (r * n + c))).
      { apply lookup_insert_eq. }
      { rewrite Hvals by done. by rewrite Nat.ltb_irrefl. }
      apply (wp_store_at _ _ _ _ w); [apply lookup_insert_eq|nia|].
      eexists. split; [by rewrite insert_insert_eq|]. split; [by rewrite length_insert|].
      intros k c' Hk Hc'. destruct (decide (k * n + c' = r * n + c)) as [Heq|Hneq].
      - rewrite Heq, list_lookup_insert_eq by nia.
        apply index_unique in Heq as [-> ->]; [|done..].
        destruct (Nat.ltb_spec (r * n + c) (r * n + S c)); [done|lia].
      - rewrite list_lookup_insert_ne by done. rewrite Hvals by done.
        destruct (Nat.ltb_spec (k * n + c') (r * n + c));
          destruct (Nat.ltb_spec (k * n + c') (r * n + S c)); try done; lia. }
    intros [] h'' Hsc'. by replace (S r * n) with (r * n + n) by lia. }
  intros [] h' (w & -> & Hw & Hvals). apply HQ; [done|].
  intros k c Hk Hc. rewrite Hvals by done.
  destruct (Nat.ltb_spec (k * n + c) (n * n)); [done|nia].
Qed.


Lemma sum_upto_ext n (f g : nat -> Real) :
  (forall k, k < n -> f k = g k) -> sum_upto n f = sum_upto n g.
Proof.
  induction n as [|n IH]; intros Hfg; [done|]. cbn.
  rewrite IH by (intros; apply Hfg; lia). by rewrite Hfg by lia.
Qed.

Lemma elem_of_lookup (l : list Real) i x : l !! i = Some x -> elem l i = x.
Proof. intros Hi. unfold elem. by rewrite Hi. Qed.

(** The four ways out of [applyOperation]. *)
Lemma wp_applyOperation h this (a : list Real) (f : Real -> Real)
      (Q : Matrix -> heap Real -> Prop) :
  let n := nCols_ this in
  let solved := diagonalizer n a in
  let ordered := ordered_tuples Ascending (solver_tuples n solved) in
  let lam := valueReal <$> ordered in
  let im := valueImag <$> ordered in
  let complex_found := existsb (fun val => Real_ltb default_threshold (Qcabs val)) im in
  contents h this = Some a -> nRows_ this = nCols_ this ->
  1 <= n -> (Z.of_nat n * Z.of_nat (n * n) <= Int.max_signed)%Z ->
  (~ symmetric_within default_threshold n a ->
   E "Unexpected non-symmetric matrix found.") ->
  (symmetric_within default_threshold n a -> geev_info solved <> 0%Z ->
   E "Something went wrong during diagonalization!") ->
  (symmetric_within default_threshold n a -> geev_info solved = 0%Z ->
   complex_found = true ->
   E "Unexpected complex eigenvalues encountered when applying operator to Matrix.") ->
  (symmetric_within default_threshold n a -> geev_info solved = 0%Z ->
   complex_found = false ->
   forall l p vecs h',
     h !! l = None -> h' !! l = Some p ->
     (forall k b, h !! k = Some b -> h' !! k = Some b) ->
     length p = n * n -> length vecs = n * n ->
     (forall r k e, r < n -> k < n -> ordered !! k = Some e ->
                    vecs !! (r * n + k) = Some (elem (geev_vl solved) (vector e + r))) ->
     (forall i j, i < n -> j < n ->
                  p !! (i * n + j) = Some (recomposed_entry f n lam vecs i j)) ->
     Q (mkMatrix n n l) h') ->
  wp (applyOperation this f) h Q.
Proof.
  intros n solved ordered lam im complex_found Ha Hsq Hn Hmax Hasym Hfail Hcomplex HQ.
  unfold applyOperation. rewrite Hsq.
  apply wp_bind, (wp_assertSymmetric _ _ a); [done..| |done].
  intros Hsym. fold n in Hsym.
  destruct (decide (geev_info solved = 0%Z)) as [Hinfo|Hinfo].
  2:{ apply wp_bind, (wp_diagonalize_failed h this a); [done..|]. by apply Hfail. }
  apply wp_bind, (wp_diagonalize h this a Ascending); [done..|].
  fold n solved ordered lam im.
  intros l1 l2 l3 h1 vecs Hl1 Hl2 Hl3 H12 H13 H23 Htb Hvecs Hcols.
  assert (Hord : length ordered = n) by apply ordered_tuples_length.
  assert (Hlam : length lam = n) by (unfold lam; by rewrite length_fmap).
  assert (Him : length im = n) by (unfold im; by rewrite length_fmap).
  assert (Hblock : forall (h' : heap Real) l (b : list Real) r c,
            h' !! l = Some b -> length b = r * c ->
            contents h' (mkMatrix r c l) = Some b).
  { intros h' l b r c Hl Hb. unfold contents. cbn [nRows_ nCols_ data_]. rewrite Hl.
    destruct (Nat.leb_spec (r * c) (length b)); [|lia]. f_equal. apply take_ge. lia. }
  apply wp_bind, (wp_isNearZero _ _ im); [apply Hblock; [apply Htb|lia]|].
  fold complex_found. destruct complex_found eqn:Hfound; cbn [negb].
  { by apply wp_throw, Hcomplex. }
  unfold applyOperationToEachElement.
  apply wp_bind, wp_bind, (wp_elements _ _ lam); [apply Hblock; [apply Htb|lia]|].
  cbn [data_]. eapply wp_set_whole; [apply Htb|by rewrite length_fmap|].
  set (flam := f <$> lam).
  assert (Hflam : length flam = n) by (unfold flam; by rewrite length_fmap).
  set (h2 := <[l1 := flam]> h1).
  assert (Htb2 : three_blocks h l1 l2 l3 flam im vecs h2) by (by eapply three_blocks_1).
  apply wp_bind, (wp_transpose _ _ vecs); cbn [nRows_ nCols_ data_];
    [apply Hblock; [apply Htb2|lia]|done..|].
  intros l4 vT Hl4 HvT Hperm.
  assert (H14 : l1 <> l4) by (intros <-; pose proof (tb_1 _ _ _ _ _ _ _ _ Htb2); congruence).
  assert (H34 : l3 <> l4) by (intros <-; pose proof (tb_3 _ _ _ _ _ _ _ _ Htb2); congruence).
  apply wp_bind. cbn [nCols_ data_]. fold n.
  apply (wp_scale_rows h2 n l1 l4 flam vT); [apply Htb2|done..|].
  intros w Hw Hscaled.
  set (h3 := <[l4 := w]> h2).
  apply (wp_multiply _ _ _ vecs w); cbn [nRows_ nCols_ data_].
  { apply Hblock; [|lia]. unfold h3. rewrite lookup_insert_ne by done. apply Htb2. }
  { apply Hblock; [|lia]. unfold h3. apply lookup_insert_eq. }
  { done. }
  intros l5 p Hl5 Hp Hprod.
  assert (Hfresh5 : h !! l5 = None /\ l5 <> l1 /\ l5 <> l2 /\ l5 <> l3 /\ l5 <> l4).
  { unfold h3 in Hl5. apply lookup_insert_None in Hl5 as [Hl5 H45].
    assert (l5 <> l1) by (intros ->; pose proof (tb_1 _ _ _ _ _ _ _ _ Htb2); congruence).
    assert (l5 <> l2) by (intros ->; pose proof (tb_2 _ _ _ _ _ _ _ _ Htb2); congruence).
    assert (l5 <> l3) by (intros ->; pose proof (tb_3 _ _ _ _ _ _ _ _ Htb2); congruence).
    split; [|by repeat split]. by rewrite <- (tb_frame _ _ _ _ _ _ _ _ Htb2). }
  destruct Hfresh5 as (Hf5 & H51 & H52 & H53 & H54).
  apply (HQ Hsym Hinfo eq_refl l5 p vecs); try done.
  - apply lookup_insert_eq.
  - intros k b Hk.
    assert (k <> l5) by congruence. assert (k <> l1) by congruence.
    assert (k <> l2) by congruence. assert (k <> l3) by congruence.
    assert (k <> l4).
    { intros ->. unfold h2 in Hl4. rewrite lookup_insert_ne in Hl4 by done.
      rewrite (tb_frame _ _ _ _ _ _ _ _ Htb) in Hl4 by done. congruence. }
    unfold h3, h2. rewrite !lookup_insert_ne by done.
    by rewrite (tb_frame _ _ _ _ _ _ _ _ Htb).
  - intros i j Hi Hj. rewrite Hprod by done. f_equal.
    unfold product_entry, recomposed_entry. apply sum_upto_ext. intros k Hk.
    f_equal. rewrite (elem_of_lookup w _ _ (Hscaled k j Hk Hj)). f_equal.
    + rewrite <- (transposed_index_rc n n j k) by done.
      unfold elem. rewrite Hperm by nia. done.
    + unfold flam, elem. rewrite list_lookup_fmap.
      destruct (lookup_lt_is_Some_2 lam k) as [x ->]; [lia|]. done.
Qed.

(** The spectral branch of [inverse]. *)
Lemma wp_inverse_spectral h this (a : list Real) (Q : Matrix -> heap Real -> Prop) :
  contents h this = Some a -> nRows_ this = nCols_ this -> nCols_ this <> 3 ->
  (forall l0, h !! l0 = None ->
              wp (applyOperation this (fun element => 1 / element)%Qc)
                 (<[l0 := replicate (nCols_ this * nCols_ this) 0%Qc]> h) Q) ->
  wp (inverse this) h Q.
Proof.
  intros Ha Hsq Hn3 HQ. unfold inverse, assertSquare.
  rewrite Hsq, Nat.eqb_refl. cbn [negb]. apply wp_bind, wp_ret.
  apply wp_bind, wp_Matrix_new. intros l0 Hl0.
  destruct (Nat.eqb_spec (nCols_ this) 3); [done|]. by apply HQ.
Qed.

End ApplyOperationFacts.

Section InverseSpectralClaim.
Context `{LapackWrapper} `{StdSort}.
Implicit Types (h : heap Real) (this : Matrix).
#[local] Open Scope nat_scope.

Lemma solver_tuples_imag n solved :
  length (geev_wi solved) = n -> valueImag <$> solver_tuples n solved = geev_wi solved.
Proof.
  intros Hlen. unfold solver_tuples. rewrite <- list_fmap_compose.
  apply list_eq. intros i. rewrite list_lookup_fmap.
  destruct (decide (i < n)) as [Hi|Hi].
  - rewrite lookup_seq_lt by done. cbn. symmetry. apply elem_lookup. lia.
  - rewrite lookup_seq_ge, lookup_ge_None_2 by lia. done.
Qed.

(** The near-zero test sees the imaginary parts the solver returned. *)
Lemma complex_found_iff order n solved (p : Real -> bool) :
  length (geev_wi solved) = n ->
  existsb p (valueImag <$> ordered_tuples order (solver_tuples n solved)) = true <->
  Exists (fun v => p v = true) (geev_wi solved).
Proof.
  intros Hlen. rewrite existsb_exists, Exists_exists.
  assert (Hperm : valueImag <$> ordered_tuples order (solver_tuples n solved)
                  ≡ₚ geev_wi solved).
  { by rewrite ordered_tuples_perm, solver_tuples_imag. }
  split; intros (x & Hx & Hp); exists x; (split; [|done]).
  - apply list_elem_of_In in Hx. by rewrite <- Hperm.
  - apply list_elem_of_In. by rewrite Hperm.
Qed.

(** C3, amended.  On a square matrix that is not 3 x 3, with at least one
    element and within the range of [int], [inverse] throws when the matrix
    is not symmetric within the threshold, when the eigensolver reports an
    error and when an eigenvalue has an imaginary part above the threshold.
    In every other case it returns V * diag(1 / lambda) * V^T for the
    eigenpairs of the solver: no eigenvalue is tested against a guard
    threshold, and a singular matrix gets a result. *)
Theorem inverse_spectral_has_no_guard h this (a : list Real) :
  let n := nCols_ this in
  let solved := diagonalizer n a in
  contents h this = Some a -> nRows_ this = nCols_ this -> n <> 3 ->
  1 <= n -> (Z.of_nat n * Z.of_nat (n * n) <= Int.max_signed)%Z ->
  (~ symmetric_within default_threshold n a ->
   is_throw (inverse this h) = true) /\
  (symmetric_within default_threshold n a -> geev_info solved <> 0%Z ->
   is_throw (inverse this h) = true) /\
  (symmetric_within default_threshold n a -> geev_info solved = 0%Z ->
   Exists (fun v => (default_threshold < Qcabs v)%Qc) (geev_wi solved) ->
   is_throw (inverse this h) = true) /\
  (symmetric_within default_threshold n a -> geev_info solved = 0%Z ->
   Forall (fun v => (Qcabs v <= default_threshold)%Qc) (geev_wi solved) ->
   exists result h' lam im vecs,
     inverse this h = Ok (result, h') /\
     nRows_ result = n /\ nCols_ result = n /\
     result_eigenpairs n lam im vecs
       ≡ₚ eigenpair_of n (geev_vl solved) <$> solver_tuples n solved /\
     (forall i j, i < n -> j < n ->
        entry h' result i j
        = Some (recomposed_entry (fun x => 1 / x)%Qc n lam vecs i j)) /\
     contents h' this = Some a).
Proof.
  intros n solved Ha Hsq Hn3 Hn Hmax.
  set (p := fun val => Real_ltb default_threshold (Qcabs val)).
  assert (Hfound : forall b,
            existsb p (valueImag <$> ordered_tuples Ascending (solver_tuples n solved)) = b ->
            if b then Exists (fun v => (default_threshold < Qcabs v)%Qc) (geev_wi solved)
            else Forall (fun v => (Qcabs v <= default_threshold)%Qc) (geev_wi solved)).
  { intros [] Hb.
    - apply (complex_found_iff Ascending n solved p) in Hb; [|apply diagonalizer_wi].
      eapply Exists_impl; [exact Hb|]. intros v Hv. by apply Real_ltb_lt.
    - apply Forall_forall. intros v Hv. apply Real_ltb_ge. fold (p v).
      destruct (p v) eqn:Hp; [|done].
      assert (Hex : Exists (fun v => p v = true) (geev_wi solved))
        by (apply Exists_exists; by exists v).
      apply (complex_found_iff Ascending n solved p) in Hex; [|apply diagonalizer_wi].
      congruence. }
  assert (Hexcl : Exists (fun v => (default_threshold < Qcabs v)%Qc) (geev_wi solved) ->
                  Forall (fun v => (Qcabs v <= default_threshold)%Qc) (geev_wi solved) ->
                  False).
  { intros (v & Hv & Hlt)%Exists_exists Hall. rewrite Forall_forall in Hall.
    apply (Qclt_not_le _ _ Hlt). by apply Hall. }
  assert (Ha0 : forall l0, h !! l0 = None ->
            contents (<[l0 := replicate (n * n) 0%Qc]> h) this = Some a).
  { intros l0 Hl0. rewrite contents_insert_ne; [done|].
    intros ->. apply contents_Some in Ha as (b & Hb & _). congruence. }
  split; [|split; [|split]].
  - intros Hasym. apply wp_is_throw, (wp_inverse_spectral h this a); [done..|].
    intros l0 Hl0. apply (wp_applyOperation _ this a); try done; by auto.
  - intros Hsym Hinfo. apply wp_is_throw, (wp_inverse_spectral h this a); [done..|].
    intros l0 Hl0. apply (wp_applyOperation _ this a); try done; by auto.
  - intros Hsym Hinfo Hex. apply wp_is_throw, (wp_inverse_spectral h this a); [done..|].
    intros l0 Hl0. apply (wp_applyOperation _ this a); try done; try (by auto).
    intros _ _ Hb. apply Hfound in Hb. intros. by apply Hexcl.
  - intros Hsym Hinfo Hall.
    set (ordered := ordered_tuples Ascending (solver_tuples n solved)).
    assert (Hwp : wp_total (inverse this) h (fun result h' =>
              exists vecs,
                nRows_ result = n /\ nCols_ result = n /\
                length vecs = n * n /\
                (forall r k e, r < n -> k < n -> ordered !! k = Some e ->
                   vecs !! (r * n + k) = Some (elem (geev_vl solved) (vector e + r))) /\
                (forall i j, i < n -> j < n ->
                   entry h' result i j
                   = Some (recomposed_entry (fun x => 1 / x)%Qc n
                             (valueReal <$> ordered) vecs i j)) /\
                contents h' this = Some a)).
    { apply (wp_inverse_spectral h this a); [done..|].
      intros l0 Hl0. apply (wp_applyOperation _ this a); try done.
      { by apply Ha0. }
      { intros _ _ Hb. apply Hfound in Hb. by apply Hexcl. }
      intros _ _ _ l q vecs h' Hl Hq Hkeep Hlen Hvecs Hcols Hentries.
      exists vecs. split; [done|]. split; [done|]. split; [done|]. split; [done|].
      assert (Hc : contents h' (mkMatrix n n l) = Some q).
      { unfold contents. cbn [nRows_ nCols_ data_]. rewrite Hq.
        destruct (Nat.leb_spec (n * n) (length q)); [|lia]. f_equal. apply take_ge. lia. }
      split.
      - intros i j Hi Hj. rewrite (entry_Some _ _ q) by done. by apply Hentries.
      - apply contents_Some in Ha as (b & Hb & Hble & ->).
        apply contents_Some. exists b. split; [|done].
        apply Hkeep. rewrite lookup_insert_ne; [done|]. congruence. }
    apply wp_run in Hwp
      as (result & h' & Hrun & vecs & Hr & Hc & Hvecs & Hcols & Hentries & Hthis).
    exists result, h', (valueReal <$> ordered), (valueImag <$> ordered), vecs.
    split; [done|]. split; [done|]. split; [done|]. split; [|done].
    rewrite (result_eigenpairs_ordered n (geev_vl solved) vecs ordered); try done.
    + unfold ordered. by rewrite ordered_tuples_perm.
    + apply ordered_tuples_length.
    + apply diagonalizer_vl.
    + intros k e. apply ordered_tuples_vector.
Qed.

End InverseSpectralClaim.

(** ** What the value-returning operations leave alone *)

Section FrameRules.
Context {T : Type} `{Zero T}.
Variable h0 : heap T.
Implicit Types (h : heap T) (l : loc) (this : Matrix).

Lemma wlp_run {A : Type} (m : M T A) h (Q : A -> heap T -> Prop) :
  wlp m h Q <-> forall a h', m h = Ok (a, h') -> Q a h'.
Proof.
  unfold wpg. split.
  - intros Hm a h' Hrun. by rewrite Hrun in Hm.
  - intros Hm. destruct (m h) as [[a h']| | |]; [|done..]. by apply Hm.
Qed.

Lemma kept_insert h l b : kept h0 h -> h0 !! l = None -> kept h0 (<[l := b]> h).
Proof.
  intros Hk Hl k bk Hbk. rewrite lookup_insert_ne; [by apply Hk|]. congruence.
Qed.

Lemma kept_fresh h l : kept h0 h -> h !! l = None -> h0 !! l = None.
Proof.
  intros Hk Hl. destruct (h0 !! l) as [b|] eqn:Hb; [|done].
  apply Hk in Hb. congruence.
Qed.

Lemma wlp_get_range l off len h (Q : list T -> heap T -> Prop) :
  (forall buf, Q buf h) -> wlp (get_range l off len) h Q.
Proof.
  intros HQ. unfold wpg, get_range. destruct (h !! l) as [b|]; [|done].
  by destruct (off + len <=? length b)%nat.
Qed.

Lemma wlp_set_range l off new h (Q : unit -> heap T -> Prop) :
  (forall b, Q tt (<[l := b]> h)) -> wlp (set_range l off new) h Q.
Proof.
  intros HQ. unfold wpg, set_range. destruct (h !! l) as [b|]; [|done].
  unfold overwrite. destruct (off + length new <=? length b)%nat; cbn; done.
Qed.

Lemma wlp_load_at l i h (Q : T -> heap T -> Prop) :
  (forall x, Q x h) -> wlp (load_at l i) h Q.
Proof.
  intros HQ. unfold wpg, load_at. destruct (h !! l) as [b|]; [|done].
  destruct (load b (Z.of_nat i)); cbn; done.
Qed.

Lemma wlp_store_at l i x h (Q : unit -> heap T -> Prop) :
  (forall b, Q tt (<[l := b]> h)) -> wlp (store_at l i x) h Q.
Proof.
  intros HQ. unfold wpg, store_at. destruct (h !! l) as [b|]; [|done].
  destruct (store b (Z.of_nat i) x); cbn; done.
Qed.

Lemma wlp_lift {A : Type} (x : outcome A) h (Q : A -> heap T -> Prop) :
  (forall a, Q a h) -> wlp (lift x) h Q.
Proof. intros HQ. unfold wpg, lift. destruct x; cbn; done. Qed.

(** A loop with an invariant. *)
Lemma wlp_mfoldl {A B : Type} (I : A -> heap T -> Prop) (f : A -> B -> M T A) (xs : list B) :
  forall a h,
    I a h -> (forall a x h, I a h -> wlp (f a x) h I) -> wlp (mfoldl f a xs) h I.
Proof.
  induction xs as [|x xs IH]; intros a h HI Hstep; [done|].
  cbn [mfoldl]. apply wp_bind. eapply wp_mono; [by apply Hstep|].
  intros a' h' HI'. by apply IH.
Qed.

Lemma frame_Matrix_new nRows nCols h :
  kept h0 h ->
  wlp (Matrix_new nRows nCols) h (fun m h' => kept h0 h' /\ h0 !! data_ m = None).
Proof.
  intros Hk. apply wp_Matrix_new. intros l Hl.
  pose proof (kept_fresh h l Hk Hl). split; [by apply kept_insert|done].
Qed.

Lemma frame_elements this h : wlp (elements this) h (fun _ h' => h' = h).
Proof. by apply wlp_get_range. Qed.

Lemma frame_write l off new h :
  kept h0 h -> h0 !! l = None -> wlp (set_range l off new) h (fun _ h' => kept h0 h').
Proof. intros Hk Hl. apply wlp_set_range. intros b. by apply kept_insert. Qed.

Lemma frame_store l i x h :
  kept h0 h -> h0 !! l = None -> wlp (store_at l i x) h (fun _ h' => kept h0 h').
Proof. intros Hk Hl. apply wlp_store_at. intros b. by apply kept_insert. Qed.

Lemma frame_clone this h :
  kept h0 h -> wlp (clone this) h (fun m h' => kept h0 h' /\ h0 !! data_ m = None).
Proof.
  intros Hk. unfold clone.
  apply wp_bind. eapply wp_mono; [by apply frame_Matrix_new|].
  intros m h1 [Hk1 Hm].
  apply wp_bind. eapply wp_mono; [apply frame_elements|]. intros src h2 ->.
  apply wp_bind. eapply wp_mono; [by apply frame_write|]. intros [] h3 Hk3.
  by apply wp_ret.
Qed.

Lemma frame_transposeInPlace this h :
  kept h0 h -> h0 !! data_ this = None ->
  wlp (transposeInPlace this) h (fun m h' => kept h0 h' /\ data_ m = data_ this).
Proof.
  intros Hk Hthis. unfold transposeInPlace.
  apply wp_bind. eapply wp_mono; [apply frame_elements|]. intros buf h1 ->.
  apply wp_bind, wlp_lift. intros out.
  apply wp_bind. eapply wp_mono; [by apply frame_write|]. intros [] h3 Hk3.
  by apply wp_ret.
Qed.

Lemma frame_transpose this h :
  kept h0 h -> wlp (transpose this) h (fun m h' => kept h0 h' /\ h0 !! data_ m = None).
Proof.
  intros Hk. unfold transpose.
  apply wp_bind. eapply wp_mono; [by apply frame_clone|]. intros copy h1 [Hk1 Hcopy].
  eapply wp_mono; [by apply frame_transposeInPlace|].
  intros m h2 [Hk2 Hm]. split; [done|]. by rewrite Hm.
Qed.

End FrameRules.

Section FrameReal.
Context `{LapackWrapper} `{StdSort}.
Variable h0 : heap Real.
Implicit Types (h : heap Real) (this other : Matrix).

(** The rule of a step that reads and the rule of a step that ends the
    call. *)
#[local] Ltac reads := apply wp_bind, wlp_load_at; intro.
#[local] Ltac ends := first [by apply wp_throw | by apply wp_ret].

Lemma frame_assertSquare this h : wlp (assertSquare this) h (fun _ h' => h' = h).
Proof. unfold assertSquare. destruct (negb _); ends. Qed.

Lemma frame_assertSymmetric this threshold h :
  wlp (assertSymmetric this threshold) h (fun _ h' => h' = h).
Proof.
  unfold assertSymmetric.
  apply wp_bind. eapply wp_mono; [apply frame_assertSquare|]. intros [] h1 ->.
  apply (wlp_mfoldl (fun _ h' => h' = h)); [done|]. intros [] row h1 ->.
  apply (wlp_mfoldl (fun _ h' => h' = h)); [done|]. intros [] col h1 ->.
  do 2 reads. destruct (Real_ltb _ _); ends.
Qed.

Lemma frame_isNearZero this threshold h :
  wlp (isNearZero this threshold) h (fun _ h' => h' = h).
Proof.
  unfold isNearZero.
  apply wp_bind. eapply wp_mono; [apply frame_elements|]. intros vals h1 ->. ends.
Qed.

Lemma frame_multiply this other h :
  kept h0 h ->
  wlp (multiply this other) h (fun m h' => kept h0 h' /\ h0 !! data_ m = None).
Proof.
  intros Hk. unfold multiply. destruct (negb _); [ends|].
  apply wp_bind. eapply wp_mono; [by apply frame_Matrix_new|].
  intros product h1 [Hk1 Hproduct].
  apply wp_bind. eapply wp_mono with (Q := fun _ h' => kept h0 h').
  - apply (wlp_mfoldl (fun _ h' => kept h0 h')); [done|]. intros output row h2 Hk2.
    apply (wlp_mfoldl (fun _ h' => kept h0 h')); [done|]. intros output' col h3 Hk3.
    apply wp_bind. eapply wp_mono with (Q := fun _ h' => kept h0 h').
    + apply (wlp_mfoldl (fun _ h' => kept h0 h')); [done|]. intros [] link h4 Hk4.
      do 3 reads. by apply frame_store.
    + intros [] h4 Hk4. ends.
  - intros output h2 Hk2. ends.
Qed.

Lemma frame_applyOperationToEachElement this function h :
  kept h0 h -> h0 !! data_ this = None ->
  wlp (applyOperationToEachElement this function) h (fun _ h' => kept h0 h').
Proof.
  intros Hk Hthis. unfold applyOperationToEachElement.
  apply wp_bind. eapply wp_mono; [apply frame_elements|]. intros old h1 ->.
  by apply frame_write.
Qed.

Lemma frame_diagonalize this order h :
  kept h0 h ->
  wlp (diagonalize this order) h
    (fun '(evalsReal, evalsImag, evecs) h' =>
       kept h0 h' /\ h0 !! data_ evalsReal = None /\ h0 !! data_ evalsImag = None
       /\ h0 !! data_ evecs = None).
Proof.
  intros Hk. unfold diagonalize. destruct (negb _); [ends|].
  apply wp_bind. eapply wp_mono; [by apply frame_Matrix_new|]. intros re h1 [Hk1 Hre].
  apply wp_bind. eapply wp_mono; [by apply frame_Matrix_new|]. intros im h2 [Hk2 Him].
  apply wp_bind. eapply wp_mono; [by apply frame_Matrix_new|]. intros ev h3 [Hk3 Hev].
  apply wp_bind. eapply wp_mono; [apply frame_elements|]. intros a h4 ->.
  cbv zeta.
  apply wp_bind. eapply wp_mono; [by apply frame_write|]. intros [] h4 Hk4.
  apply wp_bind. eapply wp_mono; [by apply frame_write|]. intros [] h5 Hk5.
  apply wp_bind. eapply wp_mono; [by apply frame_write|]. intros [] h6 Hk6.
  destruct (negb _); [ends|].
  apply wp_bind. eapply wp_mono with (Q := fun _ h' => h' = h6).
  { apply (wlp_mfoldl (fun _ h' => h' = h6)); [done|]. intros tuples val h7 ->.
    do 2 reads. ends. }
  intros tuples h7 ->.
  apply wp_bind. eapply wp_mono with (Q := fun _ h' => kept h0 h').
  { apply (wlp_mfoldl (fun _ h' => kept h0 h')); [done|]. intros b val h7 Hk7.
    apply wp_bind, wlp_lift. intros e.
    apply wp_bind. eapply wp_mono; [by apply frame_store|]. intros [] h8 Hk8.
    apply wp_bind. eapply wp_mono; [by apply frame_store|]. intros [] h9 Hk9.
    apply wp_bind, wlp_get_range. intros v. by apply wlp_lift. }
  intros b h7 Hk7.
  apply wp_bind. eapply wp_mono; [by apply frame_write|]. intros [] h8 Hk8.
  apply wp_bind. eapply wp_mono; [by apply frame_transposeInPlace|].
  intros ev' h9 [Hk9 Hev']. apply wp_ret. by rewrite Hev'.
Qed.

Lemma frame_applyOperation this function h :
  kept h0 h ->
  wlp (applyOperation this function) h (fun m h' => kept h0 h' /\ h0 !! data_ m = None).
Proof.
  intros Hk. unfold applyOperation.
  apply wp_bind. eapply wp_mono; [apply frame_assertSymmetric|]. intros [] h1 ->.
  apply wp_bind. eapply wp_mono; [by apply frame_diagonalize|].
  intros [[re im] ev] h1 (Hk1 & Hre & Him & Hev).
  apply wp_bind. eapply wp_mono; [apply frame_isNearZero|]. intros nearZero h2 ->.
  destruct (negb _); [ends|].
  apply wp_bind. eapply wp_mono; [by apply frame_applyOperationToEachElement|].
  intros [] h2 Hk2.
  apply wp_bind. eapply wp_mono; [by apply frame_transpose|]. intros evT h3 [Hk3 HevT].
  apply wp_bind. eapply wp_mono with (Q := fun _ h' => kept h0 h').
  { apply (wlp_mfoldl (fun _ h' => kept h0 h')); [done|]. intros [] row h4 Hk4.
    apply wp_bind, wlp_load_at. intros transformedEigenvalue.
    apply (wlp_mfoldl (fun _ h' => kept h0 h')); [done|]. intros [] i h5 Hk5.
    reads. by apply frame_store. }
  intros [] h4 Hk4. by apply frame_multiply.
Qed.

Lemma frame_inverse this h :
  kept h0 h ->
  wlp (inverse this) h (fun m h' => kept h0 h' /\ h0 !! data_ m = None).
Proof.
  intros Hk. unfold inverse.
  apply wp_bind. eapply wp_mono; [apply frame_assertSquare|]. intros [] h1 ->.
  apply wp_bind. eapply wp_mono; [by apply frame_Matrix_new|].
  intros matrixInverse h1 [Hk1 Hinv].
  destruct (nRows_ this =? 3)%nat; [|by apply frame_applyOperation].
  cbv zeta. do 9 reads.
  do 9 (apply wp_bind; eapply wp_mono; [by apply frame_store|]; intros [] ? ?).
  ends.
Qed.

End FrameReal.

Lemma kept_contents {T : Type} (h h' : heap T) (this : Matrix) buf :
  kept h h' -> contents h this = Some buf -> contents h' this = Some buf.
Proof.
  intros Hk. unfold contents. destruct (h !! data_ this) as [b|] eqn:Hb; [|done].
  by rewrite (Hk _ _ Hb).
Qed.

Lemma kept_refl {T : Type} (h : heap T) : kept h h.
Proof. by intros l b. Qed.

(** C9: a call of [inverse], [transpose], [clone] or [diagonalize] that
    returns has left every block of the store as it was, so that the
    receiver, whose dimensions the call cannot assign, holds the elements
    it held; the data of each matrix it returns is in a block that the call
    has allocated. *)
Theorem value_returning_operations_keep_receiver `{LapackWrapper} `{StdSort}
    (op : value_returning) (this : Matrix) (h h' : heap Real) (results : list Matrix) :
  call op this h = Ok (results, h') ->
  kept h h'
  /\ (forall buf, contents h this = Some buf -> contents h' this = Some buf)
  /\ Forall (fun result => h !! data_ result = None) results.
Proof.
  intros Hcall.
  assert (kept h h' /\ Forall (fun result => h !! data_ result = None) results)
    as [Hk Hfresh].
  { revert results h' Hcall. apply wlp_run.
    pose proof (kept_refl h) as Hk.
    destruct op as [| | |order]; cbn [call]; apply wp_bind.
    - eapply wp_mono; [by apply frame_inverse|].
      intros result h1 [Hk1 Hresult]. apply wp_ret. by repeat constructor.
    - eapply wp_mono; [by apply frame_transpose|].
      intros result h1 [Hk1 Hresult]. apply wp_ret. by repeat constructor.
    - eapply wp_mono; [by apply frame_clone|].
      intros result h1 [Hk1 Hresult]. apply wp_ret. by repeat constructor.
    - eapply wp_mono; [by apply frame_diagonalize|].
      intros [[re im] ev] h1 (Hk1 & Hre & Him & Hev). apply wp_ret.
      by repeat constructor. }
  split; [done|]. split; [|done]. intros buf. by apply kept_contents.
Qed.

(** ** The transposition outside the range of [int] *)

(** C1: on the 100000 x 3 matrix [Sample.coordinates] the behaviour of
    [transposeInPlace] is undefined.  In [transposeMemoryInPlace], [n] is
    100000 and the first cycle goes from index 1 to index 100000; the next
    index is [n * a] with [a = 100000], a product of [int]s that is out of
    the range of [int]. *)
Theorem transposeInPlace_overflows_int :
  transposeInPlace Sample.coordinates Sample.coordinates_store = Undefined
  /\ next_index 100000 299999 1 = Ok 100000
  /\ next_index 100000 299999 100000 = Undefined.
Proof. vm_compute. done. Qed.

(** C8: on the same matrix the behaviour of [transpose], which transposes
    its copy in place, is undefined, and so is the behaviour of the call
    of [transpose] on its result. *)
Theorem transpose_overflows_int :
  transpose Sample.coordinates Sample.coordinates_store = Undefined
  /\ (run t <- transpose Sample.coordinates; transpose t) Sample.coordinates_store
     = Undefined.
Proof. vm_compute. done. Qed.

(** On a matrix with no element the first [++cycle] steps over [last], and
    the loop reads [visited] out of its bounds. *)
Example transpose_of_empty_matrix :
  transpose Sample.empty Sample.empty_store = Undefined.
Proof. reflexivity. Qed.

(** ** Where the code departs from its description *)

(** C4, as stated, fails on the 2 x 2 identity: [diagonalize] returns the
    eigenvalue 1 twice, a sequence that is not strictly ascending. *)
Lemma diagonalize_identity_not_strict :
  exists evalsReal evalsImag evecs h' re,
    diagonalize (Sample.square 2) Ascending (Sample.store_of Sample.identity2)
    = Ok (evalsReal, evalsImag, evecs, h')
    /\ contents h' evalsReal = Some re
    /\ ~ strictly_monotone Ascending re.
Proof.
  do 5 eexists. split; [vm_compute; reflexivity|]. split; [vm_compute; reflexivity|].
  intros Hstrict. specialize (Hstrict 0%nat 1%nat _ _ ltac:(lia) eq_refl eq_refl).
  by apply Qclt_not_eq in Hstrict.
Qed.

(** C3, as stated, fails on the 2 x 2 zero matrix: it is symmetric, the
    solver reports success and the eigenvalue 0 twice, which is below every
    positive threshold, and [inverse] returns a matrix. *)
Lemma inverse_zero_matrix_returns :
  symmetric_within default_threshold 2 Sample.zero2
  /\ geev_info (diagonalizer 2 Sample.zero2) = 0%Z
  /\ (forall guard : Real, (0 < guard)%Qc ->
        Forall (fun lam => (Qcabs lam < guard)%Qc) (geev_wr (diagonalizer 2 Sample.zero2)))
  /\ is_throw (inverse (Sample.square 2) (Sample.store_of Sample.zero2)) = false
  /\ is_ok (inverse (Sample.square 2) (Sample.store_of Sample.zero2)) = true.
Proof.
  split; [|split; [done|split; [|done]]].
  - intros row col Hcol Hrow.
    assert (row = 1 /\ col = 0)%nat as [-> ->] by lia. done.
  - intros guard Hguard. by repeat constructor.
Qed.

(** ** The theorems at sample inputs *)

(** C2 at the matrix [[2, 0, 1], [3, 1, 0], [0, 4, 1]], whose determinant
    is 14. *)
Lemma inverse_3x3_witness :
  determinant Sample.m3 <> 0%Qc
  /\ exists inv h1 product h2,
       inverse (Sample.square 3) (Sample.store_of Sample.m3) = Ok (inv, h1)
       /\ multiply inv (Sample.square 3) h1 = Ok (product, h2)
       /\ (forall i j, (i < 3)%nat -> (j < 3)%nat ->
             entry h2 product i j = Some (identity_entry i j))
       /\ contents h2 (Sample.square 3) = Some Sample.m3.
Proof.
  assert (determinant Sample.m3 <> 0%Qc) as Hdet.
  { intros Hzero. apply (f_equal this) in Hzero. vm_compute in Hzero. discriminate. }
  split; [exact Hdet|].
  destruct (inverse_3x3_times_matrix_is_identity
              (Sample.store_of Sample.m3) (Sample.square 3) Sample.m3
              eq_refl eq_refl eq_refl Hdet)
    as (inv & h1 & product & h2 & Hinv & Hmul & _ & _ & _ & Hid & _ & Hthis).
  exists inv, h1, product, h2. split; [exact Hinv|]. split; [exact Hmul|].
  split; [exact Hid|exact Hthis].
Defined.

(** C3, amended, at [diag(2, 4)]: [inverse] returns the recomposed matrix. *)
Lemma inverse_spectral_witness :
  exists result h' lam vecs,
    inverse (Sample.square 2) (Sample.store_of Sample.diag24) = Ok (result, h')
    /\ (forall i j, (i < 2)%nat -> (j < 2)%nat ->
          entry h' result i j
          = Some (recomposed_entry (fun x => 1 / x)%Qc 2 lam vecs i j))
    /\ contents h' (Sample.square 2) = Some Sample.diag24.
Proof.
  destruct (inverse_spectral_has_no_guard
              (Sample.store_of Sample.diag24) (Sample.square 2) Sample.diag24
              eq_refl eq_refl ltac:(vm_compute; lia) ltac:(vm_compute; lia) ltac:(vm_compute; discriminate))
    as (_ & _ & _ & Hreturns).
  destruct Hreturns as (result & h' & lam & im & vecs & Hinv & _ & _ & _ & Hentries & Hthis).
  - intros row col Hcol Hrow. unfold Sample.square in *. cbn [nCols_] in *.
    assert (row = 1 /\ col = 0)%nat as [-> ->] by lia. vm_compute. done.
  - reflexivity.
  - repeat constructor; vm_compute; discriminate.
  - exists result, h', lam, vecs. split; [exact Hinv|]. split; [exact Hentries| exact Hthis].
Defined.

(** C4, amended, at [diag(3, 1, 2)] in descending order. *)
Lemma diagonalize_witness :
  exists evalsReal evalsImag evecs h' re,
    diagonalize (Sample.square 3) Descending (Sample.store_of Sample.diag312)
    = Ok (evalsReal, evalsImag, evecs, h')
    /\ contents h' evalsReal = Some re
    /\ monotone Descending re.
Proof.
  destruct (diagonalize_orders_eigenpairs
              (Sample.store_of Sample.diag312) (Sample.square 3) Sample.diag312 Descending
              eq_refl)
    as (_ & _ & Hreturns).
  destruct Hreturns
    as (evalsReal & evalsImag & evecs & h' & re & im & vecs & Hrun & Hre & _ & _ & _ & _ & _
        & _ & _ & Hmono).
  - reflexivity.
  - reflexivity.
  - vm_compute; lia.
  - vm_compute; discriminate.
  - exists evalsReal, evalsImag, evecs, h', re. split; [exact Hrun|]. split; [exact Hre|exact Hmono].
Defined.

(** C6 at two 2 x 3 matrices, and at a 2 x 3 and a 2 x 2 matrix. *)
Lemma almostEquals_witness :
  (exists result,
     almostEquals Sample.lhs Sample.rhs (Q2Qc 6) Sample.two_store
     = Ok (result, Sample.two_store))
  /\ is_throw (almostEquals Sample.lhs (Sample.square 2) (Q2Qc 6) Sample.two_store) = true
  /\ (exists result,
        almostEquals_complex Sample.lhs Sample.rhs (mkComplex 2 0)%Qc Sample.two_complex_store
        = Ok (result, Sample.two_complex_store))
  /\ is_throw (almostEquals_complex Sample.lhs (Sample.square 2) (mkComplex 2 0)%Qc
                 Sample.two_complex_store) = true.
Proof.
  destruct almostEquals_compares_elementwise as (Hreal & Hreal_throw & Hcomplex & Hcomplex_throw).
  split; [|split; [|split]].
  - destruct (Hreal Sample.two_store Sample.lhs Sample.rhs _ _ (Q2Qc 6)
                eq_refl eq_refl eq_refl eq_refl) as (result & Hrun & _).
    exists result. exact Hrun.
  - apply Hreal_throw. right. vm_compute. lia.
  - destruct (Hcomplex Sample.two_complex_store Sample.lhs Sample.rhs _ _ (mkComplex 2 0)%Qc
                eq_refl eq_refl eq_refl eq_refl) as (result & Hrun & _).
    exists result. exact Hrun.
  - apply Hcomplex_throw. right. vm_compute. lia.
Defined.

(** A sufficient condition for a view of [Sample.two_store] to be valid. *)
Lemma slice_valid_sample (s : sliceIterator) (n : nat) :
  stride_ s <> 0%nat -> (Z.of_nat (end_ s) < 2 ^ 64)%Z ->
  end_ s = (begin_ s + n * stride_ s)%nat ->
  (exists b, Sample.two_store !! slice_block s = Some b /\ (end_ s <= length b + stride_ s - 1)%nat) ->
  slice_valid Sample.two_store s.
Proof.
  intros Hstride Hend Hn (b & Hb & Hlen). split; [done|]. split; [nia|]. split; [done|].
  split; [by exists n|]. exists b. split; [done|]. intros k Hk.
  assert (k < n)%nat as Hkn by nia.
  assert (begin_ s + k * stride_ s + stride_ s <= end_ s)%nat by nia. lia.
Qed.

(** C7 at two rows, at a row and a column, and at a column and a scalar. *)
Lemma slice_arithmetic_witness :
  (is_ok (Slice.sub (row Sample.lhs 0) (row Sample.rhs 1) Sample.two_store) = true
   /\ is_ok (Slice.sub_assign (row Sample.lhs 0) (row Sample.rhs 1) Sample.two_store) = true
   /\ is_ok (Slice.add_assign (row Sample.lhs 0) (row Sample.rhs 1) Sample.two_store) = true)
  /\ (is_throw (Slice.sub (row Sample.lhs 0) (col Sample.rhs 0) Sample.two_store) = true
      /\ is_throw (Slice.sub_assign (row Sample.lhs 0) (col Sample.rhs 0) Sample.two_store) = true
      /\ is_throw (Slice.add_assign (row Sample.lhs 0) (col Sample.rhs 0) Sample.two_store) = true)
  /\ exists b b',
       Sample.two_store !! slice_block (col Sample.lhs 1) = Some b
       /\ Slice.add_scalar (col Sample.lhs 1) (Q2Qc 5) Sample.two_store
          = Ok (col Sample.lhs 1, <[slice_block (col Sample.lhs 1) := b']> Sample.two_store)
       /\ forall i, slice_position (col Sample.lhs 1) i ->
                    b' !! i = (fun x => x + Q2Qc 5)%Qc <$> b !! i.
Proof.
  assert (slice_valid Sample.two_store (row Sample.lhs 0)) as Hrow0.
  { apply (slice_valid_sample _ 3); [done|done|done|]. eexists. split; [reflexivity|]. vm_compute. lia. }
  assert (slice_valid Sample.two_store (row Sample.rhs 1)) as Hrow1.
  { apply (slice_valid_sample _ 3); [done|done|done|]. eexists. split; [reflexivity|]. vm_compute. lia. }
  assert (slice_valid Sample.two_store (col Sample.rhs 0)) as Hcol0.
  { apply (slice_valid_sample _ 2); [done|done|done|]. eexists. split; [reflexivity|]. vm_compute. lia. }
  assert (slice_valid Sample.two_store (col Sample.lhs 1)) as Hcol1.
  { apply (slice_valid_sample _ 2); [done|done|done|]. eexists. split; [reflexivity|]. vm_compute. lia. }
  destruct slice_arithmetic as [Hslices Hscalar].
  split; [|split].
  - apply (Hslices _ _ _ Hrow0 Hrow1). vm_compute. done.
  - apply (Hslices _ _ _ Hrow0 Hcol0). vm_compute. intros (Hcount & _). discriminate.
  - destruct (Hscalar _ _ (Q2Qc 5) Hcol1 Slice.add_scalar (fun x => x + Q2Qc 5)%Qc)
      as (b & b' & Hb & Hrun & _ & Hon & _).
    + do 3 apply list_elem_of_further. apply list_elem_of_here.
    + exists b, b'. split; [exact Hb|]. split; [exact Hrun|exact Hon].
Defined.

(** C9 at the call of [transpose] on a 2 x 3 matrix. *)
Lemma value_returning_witness :
  exists results h',
    call Transpose Sample.lhs Sample.two_store = Ok (results, h')
    /\ kept Sample.two_store h'
    /\ contents h' Sample.lhs = Some Sample.lhs_elements
    /\ Forall (fun result => Sample.two_store !! data_ result = None) results.
Proof.
  assert (exists results h', call Transpose Sample.lhs Sample.two_store = Ok (results, h'))
    as (results & h' & Hcall).
  { eexists _, _. vm_compute. reflexivity. }
  destruct (value_returning_operations_keep_receiver Transpose Sample.lhs Sample.two_store h'
              results Hcall) as (Hkept & Hthis & Hfresh).
  exists results, h'. split; [exact Hcall|]. split; [exact Hkept|].
  split; [|exact Hfresh]. apply Hthis. reflexivity.
Defined.

(** C10 at a 2 x 3 store and at the product of a 2 x 3 and a 3 x 2 matrix. *)
Lemma multiply_witness :
  (exists m h', Matrix_new 2 3 Sample.two_store = Ok (m, h')
                /\ contents h' m = Some (replicate 6 0%Qc))
  /\ exists product h',
       multiply Sample.lhs Sample.rhs_3x2 Sample.two_store = Ok (product, h')
       /\ forall r c, (r < 2)%nat -> (c < 2)%nat ->
            entry h' product r c
            = Some (product_entry Sample.lhs_elements
                                  Sample.rhs_elements 3 2 r c).
Proof.
  destruct multiply_is_standard_product as [Hnew Hmultiply]. split.
  - destruct (Hnew 2%nat 3%nat Sample.two_store) as (m & h' & Hrun & _ & _ & Hzero).
    exists m, h'. split; [exact Hrun|exact Hzero].
  - destruct (Hmultiply Sample.two_store Sample.lhs Sample.rhs_3x2 _ _
                eq_refl eq_refl eq_refl) as (product & h' & Hrun & _ & _ & Hentries).
    exists product, h'. split; [exact Hrun|exact Hentries].
Defined.

(** * Further properties of the matrix operations *)

(** ** Outcomes as equations *)

Lemma wp_returns {T A : Type} (m : M T A) (h : heap T) (a : A) (h' : heap T) :
  wp_total m h (fun x k => x = a /\ k = h') -> m h = Ok (a, h').
Proof. unfold wpg. destruct (m h) as [[x k]| | |]; [|done..]. by intros [-> ->]. Qed.

Lemma wp_throws {T A : Type} (m : M T A) (h : heap T) (what : string) :
  wpg m h (fun _ _ => False) (fun w => w = what) False -> m h = Throw what.
Proof. unfold wpg. destruct (m h) as [[x k]| | |]; [done| |done..]. by intros ->. Qed.

(** ** Filling a matrix and testing it against zero *)

Section FillAndTest.
#[local] Open Scope nat_scope.
Implicit Types (h : heap Real) (this : Matrix).

Lemma setConstant_run this h buf (value : Real) :
  contents h this = Some buf ->
  exists b,
    h !! data_ this = Some b
    /\ setConstant this value h
       = Ok (tt, <[data_ this := replicate (nRows_ this * nCols_ this) value
                                 ++ drop (nRows_ this * nCols_ this) b]> h)
    /\ contents (<[data_ this := replicate (nRows_ this * nCols_ this) value
                                 ++ drop (nRows_ this * nCols_ this) b]> h) this
       = Some (replicate (nRows_ this * nCols_ this) value).
Proof.
  intros Hbuf. pose proof Hbuf as Hb. apply contents_Some in Hb as (b & Hb & Hlen & _).
  set (n := nRows_ this * nCols_ this) in *.
  exists b. split; [done|]. split.
  - apply wp_returns. unfold setConstant. fold n.
    apply (wp_set_all h this _ b); [done|by rewrite length_replicate|].
    by rewrite length_replicate.
  - rewrite contents_insert; fold n.
    + by rewrite take_app_length' by (by rewrite length_replicate).
    + rewrite length_app, length_replicate, length_drop. lia.
Qed.

(** X4: [setConstant] sets every element of the matrix to the value, and
    leaves alone what the block holds past the matrix, as a borrowed block
    may, and every other block. *)
Theorem setConstant_fills_the_matrix_only this h buf (value : Real) :
  contents h this = Some buf ->
  exists b h',
    h !! data_ this = Some b
    /\ setConstant this value h = Ok (tt, h')
    /\ h' = <[data_ this := replicate (nRows_ this * nCols_ this) value
                            ++ drop (nRows_ this * nCols_ this) b]> h
    /\ (forall r c, r < nRows_ this -> c < nCols_ this -> entry h' this r c = Some value).
Proof.
  intros Hbuf. destruct (setConstant_run this h buf value Hbuf) as (b & Hb & Hrun & Hfilled).
  eexists b, _. split; [done|]. split; [exact Hrun|]. split; [done|].
  intros r c Hr Hc. rewrite (entry_Some _ _ _ _ _ Hfilled Hc).
  apply lookup_replicate_2. nia.
Qed.

Lemma existsb_above (threshold : Real) (vals : list Real) :
  existsb (fun val => Real_ltb threshold (Qcabs val)) vals = false
  <-> Forall (fun val => (Qcabs val <= threshold)%Qc) vals.
Proof.
  induction vals as [|v vals IH]; cbn; [by split|].
  rewrite orb_false_iff, IH, Real_ltb_ge. split.
  - intros [Hv Hrest]. by constructor.
  - by inversion 1.
Qed.

(** X5: [isNearZero] returns true exactly when no element exceeds the
    threshold in absolute value (an element equal to the threshold passes),
    and leaves the store alone. *)
Theorem isNearZero_tests_every_element this h vals (threshold : Real) :
  contents h this = Some vals ->
  exists result,
    isNearZero this threshold h = Ok (result, h)
    /\ (result = true <-> Forall (fun val => (Qcabs val <= threshold)%Qc) vals).
Proof.
  intros Hvals. eexists. split.
  - apply wp_returns. apply (wp_isNearZero h this vals); [done|]. split; reflexivity.
  - rewrite negb_true_iff. apply existsb_above.
Qed.

Lemma existsb_replicate {A : Type} (p : A -> bool) n x :
  existsb p (replicate (S n) x) = p x.
Proof.
  induction n as [|n IH]; cbn in *; [apply orb_false_r|]. rewrite IH. apply orb_diag.
Qed.

Lemma Qcabs_zero : Qcabs 0 = 0%Qc.
Proof. by apply Qc_is_canon. Qed.

(** X6: after [setZero], [isNearZero] is true for every threshold that is
    not negative; for a negative threshold it is false, unless the matrix
    has no element. *)
Theorem setZero_then_isNearZero this h buf (threshold : Real) :
  contents h this = Some buf ->
  exists h',
    setZero this h = Ok (tt, h')
    /\ isNearZero this threshold h'
       = Ok (negb (Real_ltb threshold 0) || (nRows_ this * nCols_ this =? 0), h').
Proof.
  intros Hbuf.
  destruct (setConstant_run this h buf 0%Qc Hbuf) as (b & _ & Hrun & Hzero).
  eexists. split; [exact Hrun|].
  apply wp_returns. eapply wp_isNearZero; [exact Hzero|]. split; [|done].
  destruct (nRows_ this * nCols_ this) as [|n]; [by rewrite orb_true_r|].
  rewrite orb_false_r, existsb_replicate. by rewrite Qcabs_zero.
Qed.

End FillAndTest.

(** ** Constructors from initializer lists *)

Section InitializerLists.
Context {T : Type}.
Implicit Types (h : heap T) (data : list (list T)).
#[local] Open Scope nat_scope.

Lemma concat_uniform_length data n :
  Forall (fun row => length row = n) data -> length (concat data) = length data * n.
Proof.
  induction 1 as [|row data Hrow _ IH]; [done|].
  cbn. rewrite length_app, IH, Hrow. lia.
Qed.

Lemma concat_uniform_lookup data n r c row :
  Forall (fun row => length row = n) data ->
  data !! r = Some row -> c < n ->
  concat data !! (r * n + c) = row !! c.
Proof.
  intros Hall. revert r. induction Hall as [|first data Hfirst _ IH]; intros r Hr Hc; [done|].
  destruct r as [|r]; cbn in *.
  - injection Hr as ->. by rewrite lookup_app_l by lia.
  - rewrite lookup_app_r by lia. rewrite <- (IH r Hr Hc). f_equal. lia.
Qed.

Lemma first_row_length data :
  forallb (fun row => length row =? match data with [] => 0 | row :: _ => length row end) data
  = true
  <-> Forall (fun row => length row = match data with [] => 0 | row :: _ => length row end) data.
Proof.
  rewrite forallb_forall, Forall_forall. split; intros Hall row Hrow.
  - apply Nat.eqb_eq, Hall. by apply list_elem_of_In.
  - apply Nat.eqb_eq, Hall. by apply list_elem_of_In.
Qed.

(** X1: the constructor from a list of rows returns a matrix exactly when
    every row has the length of the first one, and throws otherwise; the
    matrix has one row per list, in a new block, and its element of row
    [r] and column [c] is element [c] of row [r] of the list.  The
    constructor from a list of values returns a column vector of them. *)
Theorem Matrix_of_rows_builds_or_throws data h :
  let nCols := match data with [] => 0 | row :: _ => length row end in
  (Forall (fun row => length row = nCols) data ->
   exists m h',
     Matrix_of_rows data h = Ok (m, h')
     /\ nRows_ m = length data /\ nCols_ m = nCols
     /\ h !! data_ m = None /\ kept h h'
     /\ forall r c row, data !! r = Some row -> c < nCols ->
          entry h' m r c = row !! c)
  /\ (Exists (fun row => length row <> nCols) data ->
      Matrix_of_rows data h
      = Throw "Inconsistent row dimensions in matrix specification.")
  /\ (forall column : list T,
        exists m h',
          Matrix_of_column column h = Ok (m, h')
          /\ nRows_ m = length column /\ nCols_ m = 1
          /\ h !! data_ m = None /\ kept h h'
          /\ forall r, entry h' m r 0 = column !! r).
Proof.
  intros nCols. split; [|split].
  - intros Hall. pose proof (proj2 (first_row_length data) Hall) as Hcheck.
    unfold Matrix_of_rows. fold nCols in Hcheck |- *. rewrite Hcheck.
    unfold bind, alloc, ret. cbn.
    set (l := fresh (dom h)).
    assert (h !! l = None) as Hl by (apply not_elem_of_dom, is_fresh).
    eexists _, _. split; [reflexivity|]. cbn.
    split; [done|]. split; [done|]. split; [done|].
    split; [by apply kept_insert; [apply kept_refl|]|].
    intros r c row Hrow Hc.
    pose proof (concat_uniform_length data nCols Hall) as Hlen.
    rewrite (entry_Some _ (mkMatrix (length data) nCols l) (concat data)); [|cbn|by cbn].
    + cbn. by apply concat_uniform_lookup.
    + rewrite (contents_insert h (mkMatrix (length data) nCols l)); cbn; [|lia].
      by rewrite <- Hlen, firstn_all.
  - intros Hex. unfold Matrix_of_rows. fold nCols.
    destruct (forallb _ data) eqn:Hcheck; [|done].
    apply first_row_length in Hcheck. fold nCols in Hcheck.
    apply Exists_exists in Hex as (row & Hrow & Hne).
    rewrite Forall_forall in Hcheck. by specialize (Hcheck row Hrow).
  - intros column. unfold Matrix_of_column, bind, alloc, ret. cbn.
    set (l := fresh (dom h)).
    assert (h !! l = None) as Hl by (apply not_elem_of_dom, is_fresh).
    eexists _, _. split; [reflexivity|]. cbn.
    split; [done|]. split; [done|]. split; [done|].
    split; [by apply kept_insert; [apply kept_refl|]|].
    intros r. rewrite (entry_Some _ (mkMatrix (length column) 1 l) column); cbn; [|  |lia].
    + f_equal. lia.
    + apply contents_insert_exact. lia.
Qed.

End InitializerLists.

(** ** Element access *)

Section ElementAccess.
Context {T : Type}.
Implicit Types (h : heap T) (this : Matrix) (b buf : list T).

(** The offset of an element whose row starts within the block. *)
Lemma element_offset_within this b (r : nat) (col : Z) :
  (r * nCols_ this <= length b)%nat -> Z.of_nat r < 2 ^ 64 ->
  Z.of_nat (r * nCols_ this) < 2 ^ 64 ->
  element_offset this (Z.of_nat r) col b = Ok (Z.of_nat (r * nCols_ this) + col).
Proof.
  intros Hrow Hr Hsize. unfold element_offset.
  rewrite (Z.mod_small (Z.of_nat r)) by lia.
  rewrite <- Nat2Z.inj_mul. rewrite Z.mod_small by lia.
  destruct (Z.leb_spec (Z.of_nat (r * nCols_ this)) (Z.of_nat (length b))); [done|lia].
Qed.

Lemma operator_call_at this h b (r : nat) (col : Z) (i : nat) x :
  h !! data_ this = Some b ->
  (r * nCols_ this <= length b)%nat -> Z.of_nat r < 2 ^ 64 ->
  Z.of_nat (r * nCols_ this) < 2 ^ 64 ->
  Z.of_nat (r * nCols_ this) + col = Z.of_nat i -> b !! i = Some x ->
  operator_call this (Z.of_nat r) col h = Ok (x, h).
Proof.
  intros Hb Hrow Hr Hsize Hi Hx. unfold operator_call. rewrite Hb.
  rewrite element_offset_within by done. cbn. rewrite Hi.
  by rewrite (load_of_nat _ _ _ Hx).
Qed.

Lemma operator_call_assign_at this h b (r : nat) (col : Z) (i : nat) x :
  h !! data_ this = Some b ->
  (r * nCols_ this <= length b)%nat -> Z.of_nat r < 2 ^ 64 ->
  Z.of_nat (r * nCols_ this) < 2 ^ 64 ->
  Z.of_nat (r * nCols_ this) + col = Z.of_nat i -> (i < length b)%nat ->
  operator_call_assign this (Z.of_nat r) col x h = Ok (tt, <[data_ this := <[i := x]> b]> h).
Proof.
  intros Hb Hrow Hr Hsize Hi Hx. unfold operator_call_assign. rewrite Hb.
  rewrite element_offset_within by done. cbn. rewrite Hi.
  by rewrite store_of_nat.
Qed.

(** What an element within the dimensions needs. *)
Lemma element_within this h buf (r c : nat) :
  contents h this = Some buf -> (r < nRows_ this)%nat -> (c < nCols_ this)%nat ->
  Z.of_nat (nRows_ this * nCols_ this) < 2 ^ 64 ->
  exists b, h !! data_ this = Some b
    /\ (nRows_ this * nCols_ this <= length b)%nat
    /\ buf = take (nRows_ this * nCols_ this) b
    /\ (r * nCols_ this + c < nRows_ this * nCols_ this)%nat
    /\ Z.of_nat r < 2 ^ 64 /\ Z.of_nat (r * nCols_ this) < 2 ^ 64.
Proof.
  intros Hbuf Hr Hc Hsize. apply contents_Some in Hbuf as (b & Hb & Hlen & ->).
  exists b. split; [done|]. split; [done|]. split; [done|].
  assert (r * nCols_ this + c < nRows_ this * nCols_ this)%nat by nia.
  split; [done|]. split; nia.
Qed.

(** X2: within the dimensions, [this(r, c)] reads the element of row [r]
    and column [c]; after [this(r, c) = x] it reads [x], and every other
    element of the matrix and every other block are as before. *)
Theorem operator_call_reads_what_was_assigned this h buf (r c : nat) (x : T) :
  contents h this = Some buf -> (r < nRows_ this)%nat -> (c < nCols_ this)%nat ->
  Z.of_nat (nRows_ this * nCols_ this) < 2 ^ 64 ->
  exists old h',
    entry h this r c = Some old
    /\ operator_call this (Z.of_nat r) (Z.of_nat c) h = Ok (old, h)
    /\ operator_call_assign this (Z.of_nat r) (Z.of_nat c) x h = Ok (tt, h')
    /\ operator_call this (Z.of_nat r) (Z.of_nat c) h' = Ok (x, h')
    /\ (forall r' c', (r' < nRows_ this)%nat -> (c' < nCols_ this)%nat ->
          (r', c') <> (r, c) -> entry h' this r' c' = entry h this r' c')
    /\ (forall l, l <> data_ this -> h' !! l = h !! l).
Proof.
  intros Hbuf Hr Hc Hsize.
  destruct (element_within this h buf r c Hbuf Hr Hc Hsize)
    as (b & Hb & Hlen & -> & Hi & Hr64 & Hrow64).
  set (i := (r * nCols_ this + c)%nat) in *.
  assert (Hidx : Z.of_nat (r * nCols_ this) + Z.of_nat c = Z.of_nat i) by (unfold i; lia).
  destruct (lookup_lt_is_Some_2 b i ltac:(lia)) as [old Hold].
  exists old, (<[data_ this := <[i := x]> b]> h).
  split; [|split; [|split; [|split; [|split]]]].
  - rewrite (entry_Some _ _ _ _ _ Hbuf Hc). fold i. by rewrite lookup_take_lt.
  - apply (operator_call_at this h b r _ i); [done|nia|done..].
  - apply (operator_call_assign_at this h b r _ i); [done|nia|done|done|done|lia].
  - apply (operator_call_at this _ (<[i := x]> b) r _ i);
      [apply lookup_insert_eq|rewrite length_insert; nia|done|done|done|].
    apply list_lookup_insert_eq. lia.
  - intros r' c' Hr' Hc' Hne.
    assert (Hbuf' : contents (<[data_ this := <[i := x]> b]> h) this
                    = Some (take (nRows_ this * nCols_ this) (<[i := x]> b))).
    { apply contents_insert. by rewrite length_insert. }
    rewrite (entry_Some _ _ _ _ _ Hbuf' Hc'), (entry_Some _ _ _ _ _ Hbuf Hc').
    assert ((r' * nCols_ this + c')%nat <> i) as Hother.
    { unfold i. intros Heq. apply index_unique in Heq as [-> ->]; done. }
    assert (r' * nCols_ this + c' < nRows_ this * nCols_ this)%nat by nia.
    rewrite !lookup_take_lt by done. by rewrite list_lookup_insert_ne.
  - intros l Hl. by rewrite lookup_insert_ne.
Qed.

(** X3: [operator()] does not check the column against the number of
    columns: a column index past the end of a row reads in the next row,
    and a negative one reads in the row before. *)
Theorem operator_call_does_not_check_the_column this h buf (r c : nat) :
  contents h this = Some buf -> (r + 1 < nRows_ this)%nat -> (c < nCols_ this)%nat ->
  Z.of_nat (nRows_ this * nCols_ this) < 2 ^ 64 ->
  exists below above,
    entry h this (r + 1) c = Some below /\ entry h this r c = Some above
    /\ operator_call this (Z.of_nat r) (Z.of_nat (c + nCols_ this)) h = Ok (below, h)
    /\ operator_call this (Z.of_nat (r + 1)) (Z.of_nat c - Z.of_nat (nCols_ this)) h
       = Ok (above, h).
Proof.
  intros Hbuf Hr Hc Hsize.
  destruct (element_within this h buf (r + 1) c Hbuf Hr Hc Hsize)
    as (b & Hb & Hlen & Hbuf' & Hi & Hr64 & Hrow64).
  assert (Hi' : (r * nCols_ this + c < nRows_ this * nCols_ this)%nat) by nia.
  destruct (lookup_lt_is_Some_2 b ((r + 1) * nCols_ this + c) ltac:(lia)) as [below Hbelow].
  destruct (lookup_lt_is_Some_2 b (r * nCols_ this + c) ltac:(lia)) as [above Habove].
  exists below, above. split; [|split; [|split]].
  - rewrite (entry_Some _ _ _ _ _ Hbuf Hc), Hbuf'. by rewrite lookup_take_lt.
  - rewrite (entry_Some _ _ _ _ _ Hbuf Hc), Hbuf'. by rewrite lookup_take_lt.
  - apply (operator_call_at this h b r _ ((r + 1) * nCols_ this + c)); [done|nia|lia|nia|lia|done].
  - apply (operator_call_at this h b (r + 1) _ (r * nCols_ this + c)); [done|nia|lia|nia|lia|done].
Qed.

End ElementAccess.

(** ** [assertSymmetric] *)

Section Symmetry.
#[local] Open Scope nat_scope.
Implicit Types (h : heap Real) (this other : Matrix).

(** X7: [assertSymmetric] throws on a matrix that is not square, returns
    on a square matrix whose elements differ from their mirror images by at
    most the threshold, and throws, with another message, on every other
    square matrix; it leaves the store alone. *)
Theorem assertSymmetric_accepts_symmetric_matrices_only this h a (threshold : Real) :
  contents h this = Some a ->
  (nRows_ this <> nCols_ this ->
   assertSymmetric this threshold h
   = Throw "Attepting to perform a square matrix operation on a non-square matrix!")
  /\ (nRows_ this = nCols_ this -> symmetric_within threshold (nCols_ this) a ->
      assertSymmetric this threshold h = Ok (tt, h))
  /\ (nRows_ this = nCols_ this -> ~ symmetric_within threshold (nCols_ this) a ->
      assertSymmetric this threshold h = Throw "Unexpected non-symmetric matrix found.").
Proof.
  intros Ha. split; [|split].
  - intros Hne. unfold assertSymmetric, assertSquare, bind.
    by destruct (Nat.eqb_spec (nRows_ this) (nCols_ this)).
  - intros Hsq Hsym. apply wp_returns.
    apply (wp_assertSymmetric h this a); [done|done|done|done].
  - intros Hsq Hsym. apply wp_throws.
    apply (wp_assertSymmetric h this a); [done|done|done|done].
Qed.

End Symmetry.

(** ** [almostEquals] *)

Section Comparison.
#[local] Open Scope nat_scope.
Implicit Types (h : heap Real) (this other : Matrix).

Lemma within_tolerance_sym (tolerance a b : Real) :
  within_tolerance tolerance a b = within_tolerance tolerance b a.
Proof.
  unfold within_tolerance.
  assert (Hflip : forall x y, Real_ltb (- tolerance) (x - y) = Real_ltb (y - x) tolerance).
  { intros x y. apply eq_true_iff_eq. rewrite !Real_ltb_lt.
    rewrite (Qclt_minus_iff (- tolerance)), (Qclt_minus_iff (y - x)).
    by replace (x - y + - - tolerance)%Qc with (tolerance + - (y - x))%Qc by ring. }
  rewrite (Hflip a b), <- (Hflip b a). apply andb_comm.
Qed.

Lemma std_equal_sym {A : Type} (p : A -> A -> bool) (a b : list A) :
  length a = length b -> (forall x y, p x y = p y x) ->
  std_equal p a b = std_equal p b a.
Proof.
  intros Hlen Hp. revert b Hlen. induction a as [|x a IH]; intros [|y b] Hlen; try done.
  cbn. rewrite Hp, IH; [done|]. cbn in Hlen. lia.
Qed.

(** The comparison on the blocks of the two matrices. *)
Lemma almostEquals_run this other (tolerance : Real) h :
  nRows_ this = nRows_ other -> nCols_ this = nCols_ other ->
  almostEquals this other tolerance h
  = match h !! data_ this, h !! data_ other with
    | Some a, Some b =>
        if (nRows_ this * nCols_ this <=? length a) && (nRows_ this * nCols_ this <=? length b)
        then Ok (std_equal (within_tolerance tolerance)
                   (take (nRows_ this * nCols_ this) a) (take (nRows_ this * nCols_ this) b), h)
        else Undefined
    | _, _ => Undefined
    end.
Proof.
  intros Hrows Hcols. unfold almostEquals. rewrite assertSameSize_same by done.
  unfold bind, ret, elements, get_range. cbn [obind].
  set (n := nRows_ this * nCols_ this).
  destruct (h !! data_ this) as [a|]; [|done]. cbn [Nat.add drop].
  destruct (Nat.leb_spec n (length a)) as [Ha|Ha]; cbn [obind andb]; [|by destruct (h !! data_ other)].
  destruct (h !! data_ other) as [b|]; [|done].
  rewrite length_take, Nat.min_l by done. cbn [Nat.add drop].
  by destruct (n <=? length b).
Qed.

(** X8: [almostEquals] is symmetric: comparing [other] with [this] gives
    what comparing [this] with [other] gives, an error included. *)
Theorem almostEquals_is_symmetric this other (tolerance : Real) h :
  almostEquals this other tolerance h = almostEquals other this tolerance h.
Proof.
  destruct (decide (nRows_ this = nRows_ other /\ nCols_ this = nCols_ other))
    as [[Hrows Hcols]|Hne].
  - rewrite (almostEquals_run this other), (almostEquals_run other this) by done.
    rewrite <- Hrows, <- Hcols. set (n := nRows_ this * nCols_ this).
    destruct (h !! data_ this) as [a|], (h !! data_ other) as [b|]; try done.
    rewrite (andb_comm (n <=? length b)).
    destruct (Nat.leb_spec n (length a)) as [Ha|Ha], (Nat.leb_spec n (length b)) as [Hb|Hb];
      cbn [andb]; try done.
    do 2 f_equal. apply std_equal_sym; [|apply within_tolerance_sym].
    rewrite !length_take. lia.
  - unfold almostEquals.
    rewrite (assertSameSize_differ this other), (assertSameSize_differ other this); [done| |];
      destruct (decide (nRows_ this = nRows_ other)), (decide (nCols_ this = nCols_ other));
      try tauto; (left; congruence) || (right; congruence).
Qed.

Lemma std_equal_diagonal {A : Type} (p : A -> A -> bool) (c : bool) (a : list A) :
  (forall x, p x x = c) -> std_equal p a a = c || (length a =? 0).
Proof.
  intros Hp. induction a as [|x a IH]; cbn; [apply eq_sym, orb_true_r|].
  rewrite Hp, IH. by destruct c, (length a =? 0).
Qed.

Lemma clone_run {T : Type} `{Zero T} this (mem : heap T) buf :
  contents mem this = Some buf ->
  exists l, mem !! l = None
    /\ clone this mem = Ok (mkMatrix (nRows_ this) (nCols_ this) l, <[l := buf]> mem).
Proof.
  intros Hbuf.
  assert (wp_total (clone this) mem
            (fun m mem' => exists l, mem !! l = None
               /\ m = mkMatrix (nRows_ this) (nCols_ this) l /\ mem' = <[l := buf]> mem)) as Hwp.
  { apply (wp_clone mem this buf); [done|]. intros l Hl. by exists l. }
  apply wp_run in Hwp as (m & mem' & Hrun & l & Hl & -> & ->). by exists l.
Qed.

(** X9: a matrix and its clone are in different blocks and hold the same
    elements; [almostEquals] finds them equal for every positive tolerance,
    and different for a tolerance that is not positive unless they have no
    element. *)
Theorem almostEquals_its_clone this h buf (tolerance : Real) :
  contents h this = Some buf ->
  exists copy h',
    clone this h = Ok (copy, h')
    /\ contents h' this = Some buf /\ contents h' copy = Some buf
    /\ data_ copy <> data_ this
    /\ almostEquals this copy tolerance h'
       = Ok (Real_ltb 0 tolerance || (nRows_ this * nCols_ this =? 0), h').
Proof.
  intros Hbuf. pose proof (contents_length _ _ _ Hbuf) as Hlen.
  destruct (clone_run this h buf Hbuf) as (l & Hl & Hclone).
  assert (l <> data_ this) as Hne.
  { intros ->. apply contents_Some in Hbuf as (b & Hb & _). congruence. }
  assert (contents (<[l := buf]> h) this = Some buf) as Hthis
    by (by rewrite contents_insert_ne).
  assert (contents (<[l := buf]> h) (mkMatrix (nRows_ this) (nCols_ this) l) = Some buf)
    as Hcopy by (by apply contents_insert_exact).
  eexists _, _. split; [exact Hclone|]. split; [done|]. split; [done|]. split; [done|].
  apply wp_returns. unfold almostEquals.
  rewrite assertSameSize_same by done. apply wp_bind, wp_ret.
  apply (wp_compare _ this _ buf buf); [done|done|done|done|]. split; [|done].
  rewrite <- Hlen. apply std_equal_diagonal. intros x. unfold within_tolerance.
  replace (x - x)%Qc with 0%Qc by ring.
  assert (Real_ltb (- tolerance) 0 = Real_ltb 0 tolerance) as ->; [|apply andb_diag].
  apply eq_true_iff_eq. rewrite !Real_ltb_lt.
  rewrite (Qclt_minus_iff (- tolerance)), (Qclt_minus_iff 0 tolerance).
  by replace (0 + - - tolerance)%Qc with (tolerance + - 0)%Qc by ring.
Qed.

End Comparison.

(** ** Sums *)

Section Sums.
#[local] Open Scope nat_scope.
Implicit Types (f g : nat -> Real).

Lemma sum_upto_shift n f :
  sum_upto (S n) f = (f 0%nat + sum_upto n (fun i => f (S i)))%Qc.
Proof.
  induction n as [|n IH]; [cbn; ring|].
  change (sum_upto (S (S n)) f) with (sum_upto (S n) f + f (S n))%Qc.
  rewrite IH. cbn. ring.
Qed.

Lemma sum_upto_nonneg n f : (forall i, i < n -> (0 <= f i)%Qc) -> (0 <= sum_upto n f)%Qc.
Proof.
  induction n as [|n IH]; intros Hf; [done|]. cbn.
  replace 0%Qc with (0 + 0)%Qc by ring.
  apply Qcplus_le_compat; [apply IH; intros; apply Hf; lia|apply Hf; lia].
Qed.

Lemma sum_upto_zero n f :
  (forall i, i < n -> (0 <= f i)%Qc) -> sum_upto n f = 0%Qc ->
  forall i, i < n -> f i = 0%Qc.
Proof.
  induction n as [|n IH]; intros Hf Hsum i Hi; [lia|]. cbn in Hsum.
  assert (0 <= sum_upto n f)%Qc as Hrest by (apply sum_upto_nonneg; intros; apply Hf; lia).
  assert (0 <= f n)%Qc as Hlast by (apply Hf; lia).
  assert (sum_upto n f = 0%Qc /\ f n = 0%Qc) as [Hrest0 Hlast0].
  { split; apply Qcle_antisym; try done.
    - rewrite <- Hsum. replace (sum_upto n f) with (sum_upto n f + 0)%Qc at 1 by ring.
      by apply Qcplus_le_compat; [apply Qcle_refl|].
    - rewrite <- Hsum. replace (f n) with (0 + f n)%Qc at 1 by ring.
      by apply Qcplus_le_compat; [|apply Qcle_refl]. }
  destruct (decide (i = n)) as [->|Hne]; [done|].
  apply IH; [intros; apply Hf; lia|done|lia].
Qed.

Lemma sum_upto_all_zero n f : (forall i, i < n -> f i = 0%Qc) -> sum_upto n f = 0%Qc.
Proof.
  induction n as [|n IH]; intros Hf; [done|]. cbn.
  rewrite IH by (intros; apply Hf; lia). rewrite Hf by lia. ring.
Qed.

End Sums.

(** ** [dot] *)

Section Dot.
#[local] Open Scope nat_scope.
Implicit Types (h : heap Real) (this other : Matrix) (a b : list Real).

Lemma elem_cons x a i : elem (x :: a) (S i) = elem a i.
Proof. done. Qed.

Lemma std_inner_product_sum a b (init : Real) :
  length a <= length b ->
  std_inner_product a b init
  = Ok (init + sum_upto (length a) (fun i => elem a i * elem b i))%Qc.
Proof.
  revert b init. induction a as [|x a IH]; intros b init Hlen.
  - cbn. f_equal. ring.
  - destruct b as [|y b]; [cbn in Hlen; lia|]. cbn in Hlen.
    cbn [std_inner_product length]. rewrite IH by lia. rewrite sum_upto_shift.
    f_equal. change (elem (x :: a) 0) with x. change (elem (y :: b) 0) with y.
    change (fun i => elem (x :: a) (S i) * elem (y :: b) (S i))%Qc
      with (fun i => elem a i * elem b i)%Qc.
    ring.
Qed.

Lemma dot_run this other h a b :
  contents h this = Some a -> contents h other = Some b ->
  nRows_ this = nRows_ other -> nCols_ this = nCols_ other ->
  dot this other h
  = Ok (sum_upto (nRows_ this * nCols_ this) (fun i => elem a i * elem b i)%Qc, h).
Proof.
  intros Ha Hb Hrows Hcols.
  pose proof (contents_length _ _ _ Ha) as Hlena.
  pose proof (contents_length _ _ _ Hb) as Hlenb.
  apply wp_returns. unfold dot. rewrite assertSameSize_same by done.
  apply wp_bind, wp_ret. apply wp_bind, (wp_elements _ _ a); [done|].
  apply contents_Some in Hb as (bb & Hbb & Hble & Hbeq).
  apply wp_bind, (wp_get_range _ _ _ _ bb); [done|lia|].
  rewrite drop_0, Hlena, Hrows, Hcols, <- Hbeq.
  eapply wp_lift; [apply std_inner_product_sum; lia|]. split; [|done].
  rewrite Hlena, Hrows, Hcols. ring.
Qed.

(** X10: on matrices of the same dimensions [dot] returns the sum of the
    products of the corresponding elements, whichever of the two is the
    receiver, and leaves the store alone; on matrices of different
    dimensions it throws. *)
Theorem dot_is_the_symmetric_sum_of_products :
  (forall h this other a b,
     contents h this = Some a -> contents h other = Some b ->
     nRows_ this = nRows_ other -> nCols_ this = nCols_ other ->
     dot this other h
     = Ok (sum_upto (nRows_ this * nCols_ this) (fun i => elem a i * elem b i)%Qc, h)
     /\ dot other this h = dot this other h)
  /\ (forall h this other,
        nRows_ this <> nRows_ other \/ nCols_ this <> nCols_ other ->
        dot this other h = Throw "Attepting to compare matrices of different sizes!").
Proof.
  split.
  - intros h this other a b Ha Hb Hrows Hcols.
    rewrite (dot_run this other h a b), (dot_run other this h b a) by done.
    split; [done|]. rewrite <- Hrows, <- Hcols. do 2 f_equal.
    apply sum_upto_ext. intros i _. ring.
  - intros h this other Hne. unfold dot. by rewrite assertSameSize_differ.
Qed.

(** X11: the [dot] of a matrix with itself is not negative, and is zero
    exactly when every element is zero. *)
Theorem dot_with_itself_is_positive_definite h this a :
  contents h this = Some a ->
  exists d,
    dot this this h = Ok (d, h)
    /\ (0 <= d)%Qc
    /\ (d = 0%Qc <-> Forall (fun x => x = 0%Qc) a).
Proof.
  intros Ha. pose proof (contents_length _ _ _ Ha) as Hlen.
  eexists. split; [by apply (dot_run this this h a a)|].
  assert (Hsq : forall i, (0 <= elem a i * elem a i)%Qc).
  { intros i. destruct (Qclt_le_dec (elem a i) 0) as [Hneg|Hpos].
    - replace (elem a i * elem a i)%Qc with ((- elem a i) * (- elem a i))%Qc by ring.
      assert (0 <= - elem a i)%Qc as Hopp.
      { apply Qclt_le_weak in Hneg. apply Qcopp_le_compat in Hneg.
        by replace (- 0)%Qc with 0%Qc in Hneg by ring. }
      replace 0%Qc with (0 * - elem a i)%Qc by ring. by apply Qcmult_le_compat_r.
    - replace 0%Qc with (0 * elem a i)%Qc by ring. by apply Qcmult_le_compat_r. }
  split; [by apply sum_upto_nonneg|]. split.
  - intros Hzero. apply Forall_lookup. intros i x Hx.
    pose proof (lookup_lt_Some _ _ _ Hx) as Hi.
    pose proof (sum_upto_zero _ _ (fun i _ => Hsq i) Hzero i ltac:(lia)) as Hxx.
    cbn beta in Hxx. rewrite (elem_of_lookup _ _ _ Hx) in Hxx.
    destruct (Qcmult_integral _ _ Hxx); done.
  - intros Hall. apply sum_upto_all_zero. intros i Hi.
    destruct (lookup_lt_is_Some_2 a i ltac:(lia)) as [x Hx].
    rewrite (elem_of_lookup _ _ _ Hx).
    rewrite Forall_lookup in Hall. rewrite (Hall i x Hx). ring.
Qed.

End Dot.

(** ** Algebra of [multiply] *)

Section SumAlgebra.
#[local] Open Scope nat_scope.

Lemma sum_upto_plus n (f g : nat -> Real) :
  sum_upto n (fun i => f i + g i)%Qc = (sum_upto n f + sum_upto n g)%Qc.
Proof. induction n as [|n IH]; cbn; [ring|]. rewrite IH. ring. Qed.

Lemma sum_upto_scale_l n (x : Real) (f : nat -> Real) :
  sum_upto n (fun i => x * f i)%Qc = (x * sum_upto n f)%Qc.
Proof. induction n as [|n IH]; cbn; [ring|]. rewrite IH. ring. Qed.

Lemma sum_upto_scale_r n (x : Real) (f : nat -> Real) :
  sum_upto n (fun i => f i * x)%Qc = (sum_upto n f * x)%Qc.
Proof. induction n as [|n IH]; cbn; [ring|]. rewrite IH. ring. Qed.

Lemma sum_upto_swap n m (f : nat -> nat -> Real) :
  sum_upto n (fun i => sum_upto m (fun j => f i j))
  = sum_upto m (fun j => sum_upto n (fun i => f i j)).
Proof.
  induction n as [|n IH]; cbn.
  - symmetry. by apply sum_upto_all_zero.
  - rewrite IH, <- sum_upto_plus. done.
Qed.

Lemma sum_upto_pick n c (f : nat -> Real) :
  c < n -> sum_upto n (fun k => f k * identity_entry k c)%Qc = f c.
Proof.
  intros Hc. induction n as [|n IH]; [lia|]. cbn.
  destruct (decide (c = n)) as [->|Hne].
  - rewrite sum_upto_all_zero.
    + unfold identity_entry. rewrite Nat.eqb_refl. ring.
    + intros k Hk. unfold identity_entry.
      destruct (Nat.eqb_spec k n); [lia|]. ring.
  - rewrite IH by lia. unfold identity_entry at 1.
    destruct (Nat.eqb_spec n c); [lia|]. ring.
Qed.

Lemma sum_upto_pick_l n r (f : nat -> Real) :
  r < n -> sum_upto n (fun k => identity_entry r k * f k)%Qc = f r.
Proof.
  intros Hr. rewrite <- (sum_upto_pick n r f Hr). apply sum_upto_ext. intros k _.
  unfold identity_entry. rewrite (Nat.eqb_sym r k). ring.
Qed.

End SumAlgebra.

Section MultiplyAlgebra.
#[local] Open Scope nat_scope.
Implicit Types (h : heap Real) (this other : Matrix) (a b : list Real).

(** A run of [multiply] on compatible matrices. *)
Lemma multiply_run this other h a b :
  contents h this = Some a -> contents h other = Some b ->
  nCols_ this = nRows_ other ->
  exists l p,
    h !! l = None
    /\ multiply this other h = Ok (mkMatrix (nRows_ this) (nCols_ other) l, <[l := p]> h)
    /\ length p = nRows_ this * nCols_ other
    /\ forall r c, r < nRows_ this -> c < nCols_ other ->
         p !! (r * nCols_ other + c)
         = Some (product_entry a b (nCols_ this) (nCols_ other) r c).
Proof.
  intros Ha Hb Hdim.
  assert (wp_total (multiply this other) h
            (fun m h' => exists l p, h !! l = None
               /\ m = mkMatrix (nRows_ this) (nCols_ other) l /\ h' = <[l := p]> h
               /\ length p = nRows_ this * nCols_ other
               /\ forall r c, r < nRows_ this -> c < nCols_ other ->
                    p !! (r * nCols_ other + c)
                    = Some (product_entry a b (nCols_ this) (nCols_ other) r c))) as Hwp.
  { apply (wp_multiply h this other a b); [done..|]. intros l p Hl Hlen Hp. by exists l, p. }
  apply wp_run in Hwp as (m & h' & Hrun & l & p & Hl & -> & -> & Hlen & Hp).
  by exists l, p.
Qed.

(** A matrix of the store is still there after an allocation. *)
Lemma contents_fresh h this a l (p : list Real) :
  contents h this = Some a -> h !! l = None -> contents (<[l := p]> h) this = Some a.
Proof.
  intros Ha Hl. rewrite contents_insert_ne; [done|].
  intros ->. apply contents_Some in Ha as (b & Hb & _). congruence.
Qed.

Lemma entry_of_block h l nRows nCols (p : list Real) r c :
  length p = nRows * nCols -> c < nCols ->
  entry (<[l := p]> h) (mkMatrix nRows nCols l) r c = p !! (r * nCols + c).
Proof.
  intros Hlen Hc.
  by rewrite (entry_Some _ _ p) by (by apply contents_insert_exact || done).
Qed.

(** X12: [multiply] is associative: [(A * B) * C] and [A * (B * C)] have
    the same dimensions and the same elements. *)
Theorem multiply_is_associative h A B C a b c :
  contents h A = Some a -> contents h B = Some b -> contents h C = Some c ->
  nCols_ A = nRows_ B -> nCols_ B = nRows_ C ->
  exists grouped_left hl grouped_right hr,
    (run ab <- multiply A B; multiply ab C) h = Ok (grouped_left, hl)
    /\ (run bc <- multiply B C; multiply A bc) h = Ok (grouped_right, hr)
    /\ nRows_ grouped_left = nRows_ A /\ nCols_ grouped_left = nCols_ C
    /\ nRows_ grouped_right = nRows_ A /\ nCols_ grouped_right = nCols_ C
    /\ forall r s, r < nRows_ A -> s < nCols_ C ->
         exists x, entry hl grouped_left r s = Some x /\ entry hr grouped_right r s = Some x.
Proof.
  intros Ha Hb Hc HAB HBC.
  destruct (multiply_run A B h a b Ha Hb HAB) as (l1 & ab & Hl1 & Hrun1 & Hlen1 & Hab).
  destruct (multiply_run (mkMatrix (nRows_ A) (nCols_ B) l1) C (<[l1 := ab]> h) ab c)
    as (l2 & abc & Hl2 & Hrun2 & Hlen2 & Habc);
    [by apply contents_insert_exact|by apply contents_fresh|done|].
  destruct (multiply_run B C h b c Hb Hc HBC) as (l3 & bc & Hl3 & Hrun3 & Hlen3 & Hbc).
  destruct (multiply_run A (mkMatrix (nRows_ B) (nCols_ C) l3) (<[l3 := bc]> h) a bc)
    as (l4 & abc' & Hl4 & Hrun4 & Hlen4 & Habc');
    [by apply contents_fresh|by apply contents_insert_exact|done|].
  cbn [nRows_ nCols_] in *.
  eexists _, _, _, _. split; [|split].
  - unfold bind. rewrite Hrun1. exact Hrun2.
  - unfold bind. rewrite Hrun3. exact Hrun4.
  - cbn [nRows_ nCols_]. do 4 (split; [done|]). intros r s Hr Hs.
    rewrite !entry_of_block by done. rewrite (Habc r s Hr Hs), (Habc' r s Hr Hs).
    eexists. split; [done|]. f_equal. symmetry. unfold product_entry.
    rewrite (sum_upto_ext _ _ (fun l => sum_upto (nCols_ A)
               (fun k => elem a (r * nCols_ A + k) * elem b (k * nCols_ B + l)
                         * elem c (l * nCols_ C + s)))%Qc).
    2:{ intros l Hl. rewrite (elem_of_lookup ab _ _ (Hab r l Hr Hl)).
        unfold product_entry. by rewrite sum_upto_scale_r. }
    rewrite sum_upto_swap. apply sum_upto_ext. intros k Hk.
    rewrite HAB in Hk. rewrite (elem_of_lookup bc _ _ (Hbc k s Hk Hs)).
    unfold product_entry. rewrite <- sum_upto_scale_l.
    apply sum_upto_ext. intros l _. ring.
Qed.

(** X13: the product of a matrix with an identity matrix, on either
    side, has the dimensions and the elements of the matrix. *)
Theorem multiply_by_the_identity h this a :
  contents h this = Some a ->
  (forall one i,
     contents h one = Some i -> nRows_ one = nCols_ this -> nCols_ one = nCols_ this ->
     (forall r c, r < nCols_ this -> c < nCols_ this ->
        i !! (r * nCols_ this + c) = Some (identity_entry r c)) ->
     exists product h',
       multiply this one h = Ok (product, h')
       /\ nRows_ product = nRows_ this /\ nCols_ product = nCols_ this
       /\ forall r c, r < nRows_ this -> c < nCols_ this ->
            entry h' product r c = entry h this r c)
  /\ (forall one i,
        contents h one = Some i -> nRows_ one = nRows_ this -> nCols_ one = nRows_ this ->
        (forall r c, r < nRows_ this -> c < nRows_ this ->
           i !! (r * nRows_ this + c) = Some (identity_entry r c)) ->
        exists product h',
          multiply one this h = Ok (product, h')
          /\ nRows_ product = nRows_ this /\ nCols_ product = nCols_ this
          /\ forall r c, r < nRows_ this -> c < nCols_ this ->
               entry h' product r c = entry h this r c).
Proof.
  intros Ha. pose proof (contents_length _ _ _ Ha) as Hlen. split.
  - intros one i Hi Hrows Hcols Hone.
    destruct (multiply_run this one h a i Ha Hi (eq_sym Hrows))
      as (l & p & Hl & Hrun & Hlenp & Hp).
    eexists _, _. split; [exact Hrun|]. cbn [nRows_ nCols_]. rewrite Hcols.
    split; [done|]. split; [done|]. intros r c Hr Hc.
    rewrite Hcols in *. rewrite entry_of_block by done.
    rewrite (Hp r c Hr Hc), (entry_Some _ _ _ _ _ Ha Hc). unfold product_entry.
    rewrite (sum_upto_ext _ _ (fun k => elem a (r * nCols_ this + k) * identity_entry k c)%Qc).
    + rewrite sum_upto_pick by done. symmetry. apply elem_lookup. nia.
    + intros k Hk. by rewrite (elem_of_lookup i _ _ (Hone k c Hk Hc)).
  - intros one i Hi Hrows Hcols Hone.
    destruct (multiply_run one this h i a Hi Ha Hcols)
      as (l & p & Hl & Hrun & Hlenp & Hp).
    eexists _, _. split; [exact Hrun|]. cbn [nRows_ nCols_].
    split; [done|]. split; [done|]. intros r c Hr Hc.
    rewrite Hrows in *. rewrite entry_of_block by done.
    rewrite (Hp r c Hr Hc), (entry_Some _ _ _ _ _ Ha Hc). unfold product_entry.
    rewrite Hcols.
    rewrite (sum_upto_ext _ _ (fun k => identity_entry r k * elem a (k * nCols_ this + c))%Qc).
    + rewrite (sum_upto_pick_l _ r (fun k => elem a (k * nCols_ this + c))) by done.
      symmetry. apply elem_lookup. nia.
    + intros k Hk. by rewrite (elem_of_lookup i _ _ (Hone r k Hr Hk)).
Qed.

End MultiplyAlgebra.

(** ** Transposition within the range of [int] *)

Section TransposeInRange.
Context {T : Type} `{Zero T}.
Implicit Types (this : Matrix) (buf : list T).
#[local] Open Scope nat_scope.

(** A run of [transposeInPlace] within the range of [int]. *)
Lemma transposeInPlace_run (mem : heap T) this buf :
  contents mem this = Some buf ->
  1 <= nRows_ this -> 1 <= nCols_ this ->
  (Z.of_nat (nRows_ this) * Z.of_nat (nRows_ this * nCols_ this) <= Int.max_signed)%Z ->
  exists b out,
    mem !! data_ this = Some b
    /\ buf = take (nRows_ this * nCols_ this) b
    /\ transposeInPlace this mem
       = Ok (mkMatrix (nCols_ this) (nRows_ this) (data_ this),
             <[data_ this := out ++ drop (nRows_ this * nCols_ this) b]> mem)
    /\ length out = nRows_ this * nCols_ this
    /\ forall a, a < nRows_ this * nCols_ this ->
         out !! transposed_index (nRows_ this) (nCols_ this) a = buf !! a.
Proof.
  intros Hc HR HC Hmax.
  assert (Hwp : wp_total (transposeInPlace this) mem (fun this' mem' =>
            exists b out, mem !! data_ this = Some b
              /\ this' = mkMatrix (nCols_ this) (nRows_ this) (data_ this)
              /\ mem' = <[data_ this := out ++ drop (nRows_ this * nCols_ this) b]> mem
              /\ length out = nRows_ this * nCols_ this
              /\ forall a, a < nRows_ this * nCols_ this ->
                   out !! transposed_index (nRows_ this) (nCols_ this) a = buf !! a)).
  { apply (wp_transposeInPlace _ _ buf); [done..|].
    intros out b Hb Hout Hperm. exists b, out. by rewrite Hout. }
  apply wp_run in Hwp as (this' & mem' & Hrun & b & out & Hb & -> & -> & Hout & Hperm).
  exists b, out. split; [done|]. split; [|done].
  apply contents_Some in Hc as (b' & Hb' & _ & ->). congruence.
Qed.

(** X14: within the range of [int], [transposeInPlace] applied twice
    gives back the matrix and leaves the store as it was. *)
Theorem transposeInPlace_twice_restores_the_store (mem : heap T) this buf :
  contents mem this = Some buf ->
  1 <= nRows_ this -> 1 <= nCols_ this ->
  (Z.of_nat (nRows_ this) * Z.of_nat (nRows_ this * nCols_ this) <= Int.max_signed)%Z ->
  (Z.of_nat (nCols_ this) * Z.of_nat (nCols_ this * nRows_ this) <= Int.max_signed)%Z ->
  (run t <- transposeInPlace this; transposeInPlace t) mem = Ok (this, mem).
Proof.
  intros Hc HR HC Hmax Hmax'.
  pose proof (contents_length _ _ _ Hc) as Hlen.
  destruct (transposeInPlace_run mem this buf Hc HR HC Hmax)
    as (b & out & Hb & Hbuf & Hrun & Hout & Hperm).
  assert (Hble : nRows_ this * nCols_ this <= length b).
  { apply contents_Some in Hc as (b' & Hb' & Hle & _). congruence. }
  assert (Hc1 : contents (<[data_ this := out ++ drop (nRows_ this * nCols_ this) b]> mem)
                  (mkMatrix (nCols_ this) (nRows_ this) (data_ this)) = Some out).
  { rewrite contents_insert_mk.
    - f_equal. rewrite take_app_length'; [done|lia].
    - rewrite length_app, length_drop. lia. }
  destruct (transposeInPlace_run _ _ out Hc1) as (b1 & out' & Hb1 & _ & Hrun' & Hout' & Hperm');
    cbn [nRows_ nCols_ data_]; [done..|].
  cbn [nRows_ nCols_ data_] in *.
  rewrite lookup_insert_eq in Hb1. injection Hb1 as <-.
  unfold bind. rewrite Hrun. cbn [obind]. rewrite Hrun'.
  f_equal. f_equal; [by destruct this|].
  assert (out' = buf) as ->.
  { apply list_eq. intros a. destruct (decide (a < nRows_ this * nCols_ this)) as [Ha|Ha].
    - rewrite <- (transposed_index_inv (nRows_ this) (nCols_ this) a) at 1 by done.
      rewrite Hperm'; [by apply Hperm|].
      rewrite Nat.mul_comm. by apply transposed_index_lt.
    - rewrite !lookup_ge_None_2; [done|lia..]. }
  rewrite insert_insert_eq.
  replace (nCols_ this * nRows_ this) with (nRows_ this * nCols_ this) by lia.
  rewrite drop_app_length' by done. rewrite Hbuf, take_drop. by apply insert_id.
Qed.

(** X15: within the range of [int], [transposeInPlace] of a row or column
    vector swaps the dimensions and moves no element. *)
Theorem transposeInPlace_of_a_vector_moves_nothing (mem : heap T) this buf :
  contents mem this = Some buf ->
  nRows_ this = 1 \/ nCols_ this = 1 ->
  1 <= nRows_ this -> 1 <= nCols_ this ->
  (Z.of_nat (nRows_ this) * Z.of_nat (nRows_ this * nCols_ this) <= Int.max_signed)%Z ->
  transposeInPlace this mem = Ok (mkMatrix (nCols_ this) (nRows_ this) (data_ this), mem).
Proof.
  intros Hc Hvec HR HC Hmax.
  pose proof (contents_length _ _ _ Hc) as Hlen.
  destruct (transposeInPlace_run mem this buf Hc HR HC Hmax)
    as (b & out & Hb & Hbuf & Hrun & Hout & Hperm).
  rewrite Hrun. f_equal. f_equal.
  assert (out = buf) as ->.
  { apply list_eq. intros a.
    destruct (decide (a < nRows_ this * nCols_ this)) as [Ha|Ha].
    - rewrite <- (Hperm a Ha). f_equal. unfold transposed_index.
      destruct Hvec as [Hone|Hone]; rewrite Hone in *.
      + rewrite Nat.mod_small, Nat.div_small by lia. lia.
      + rewrite Nat.mod_1_r, Nat.div_1_r. lia.
    - rewrite !lookup_ge_None_2; [done|lia..]. }
  rewrite Hbuf, take_drop. by apply insert_id.
Qed.

(** A run of [transpose] within the range of [int]. *)
Lemma transpose_run (mem : heap T) this buf :
  contents mem this = Some buf ->
  1 <= nRows_ this -> 1 <= nCols_ this ->
  (Z.of_nat (nRows_ this) * Z.of_nat (nRows_ this * nCols_ this) <= Int.max_signed)%Z ->
  exists l out,
    mem !! l = None
    /\ transpose this mem
       = Ok (mkMatrix (nCols_ this) (nRows_ this) l, <[l := out]> mem)
    /\ length out = nCols_ this * nRows_ this
    /\ forall r c, r < nRows_ this -> c < nCols_ this ->
         out !! (c * nRows_ this + r) = buf !! (r * nCols_ this + c).
Proof.
  intros Hc HR HC Hmax.
  assert (Hwp : wp_total (transpose this) mem (fun this' mem' =>
            exists l out, mem !! l = None
              /\ this' = mkMatrix (nCols_ this) (nRows_ this) l /\ mem' = <[l := out]> mem
              /\ length out = nCols_ this * nRows_ this
              /\ forall r c, r < nRows_ this -> c < nCols_ this ->
                   out !! (c * nRows_ this + r) = buf !! (r * nCols_ this + c))).
  { apply (wp_transpose _ _ buf); [done..|].
    intros l out Hl Hout Hperm. exists l, out. split; [done|]. split; [done|]. split; [done|].
    split; [lia|]. intros r c Hr Hc'.
    rewrite <- (transposed_index_rc (nRows_ this) (nCols_ this)) by done.
    apply Hperm. nia. }
  apply wp_run in Hwp as (this' & mem' & Hrun & l & out & Hl & -> & -> & Hout & Hperm).
  by exists l, out.
Qed.

(** X16: within the range of [int], [transpose] returns a matrix in a new
    block, with the dimensions swapped, whose element of row [c] and column
    [r] is the element of row [r] and column [c] of the receiver; the
    receiver and every other block are as before. *)
Theorem transpose_returns_the_transposed_copy (mem : heap T) this buf :
  contents mem this = Some buf ->
  1 <= nRows_ this -> 1 <= nCols_ this ->
  (Z.of_nat (nRows_ this) * Z.of_nat (nRows_ this * nCols_ this) <= Int.max_signed)%Z ->
  exists copy mem',
    transpose this mem = Ok (copy, mem')
    /\ nRows_ copy = nCols_ this /\ nCols_ copy = nRows_ this
    /\ mem !! data_ copy = None /\ kept mem mem'
    /\ contents mem' this = Some buf
    /\ forall r c, r < nRows_ this -> c < nCols_ this ->
         entry mem' copy c r = entry mem this r c.
Proof.
  intros Hc HR HC Hmax.
  destruct (transpose_run mem this buf Hc HR HC Hmax) as (l & out & Hl & Hrun & Hout & Hperm).
  eexists _, _. split; [exact Hrun|]. cbn [nRows_ nCols_ data_].
  split; [done|]. split; [done|]. split; [done|].
  split; [by apply kept_insert; [apply kept_refl|]|].
  assert (l <> data_ this) as Hne.
  { intros ->. apply contents_Some in Hc as (b & Hb & _). congruence. }
  split; [by rewrite contents_insert_ne|].
  intros r c Hr Hc'.
  rewrite (entry_Some _ _ out); cbn [nRows_ nCols_ data_];
    [|by apply contents_insert_exact|done].
  rewrite (entry_Some _ _ _ _ _ Hc Hc'). by apply Hperm.
Qed.

End TransposeInRange.

(** ** The two orders of [diagonalize] *)

Section DiagonalizeOrders.
Context `{LapackWrapper} `{StdSort}.
#[local] Open Scope nat_scope.
Implicit Types (h : heap Real) (this : Matrix) (a : list Real).

(** A run of [diagonalize] on which the solver succeeds. *)
Lemma diagonalize_run h this a order :
  let n := nCols_ this in
  let solved := diagonalizer n a in
  let ordered := ordered_tuples order (solver_tuples n solved) in
  contents h this = Some a -> nRows_ this = nCols_ this ->
  geev_info solved = 0%Z ->
  1 <= n -> (Z.of_nat n * Z.of_nat (n * n) <= Int.max_signed)%Z ->
  exists l1 l2 l3 h' vecs,
    diagonalize this order h = Ok ((mkMatrix n 1 l1, mkMatrix n 1 l2, mkMatrix n n l3), h')
    /\ contents h' (mkMatrix n 1 l1) = Some (valueReal <$> ordered)
    /\ contents h' (mkMatrix n 1 l2) = Some (valueImag <$> ordered)
    /\ contents h' (mkMatrix n n l3) = Some vecs
    /\ forall r k e, r < n -> k < n -> ordered !! k = Some e ->
         vecs !! (r * n + k) = Some (elem (geev_vl solved) (vector e + r)).
Proof.
  intros n solved ordered Ha Hsq Hinfo Hn Hmax.
  assert (Hwp : wp_total (diagonalize this order) h (fun result h' =>
            exists l1 l2 l3 vecs,
              result = (mkMatrix n 1 l1, mkMatrix n 1 l2, mkMatrix n n l3)
              /\ contents h' (mkMatrix n 1 l1) = Some (valueReal <$> ordered)
              /\ contents h' (mkMatrix n 1 l2) = Some (valueImag <$> ordered)
              /\ contents h' (mkMatrix n n l3) = Some vecs
              /\ forall r k e, r < n -> k < n -> ordered !! k = Some e ->
                   vecs !! (r * n + k) = Some (elem (geev_vl solved) (vector e + r)))).
  { apply (wp_diagonalize h this a order); [done..|].
    intros l1 l2 l3 h' vecs Hl1 Hl2 Hl3 H12 H13 H23 [Hb1 Hb2 Hb3 _] Hlen Hvecs.
    exists l1, l2, l3, vecs. split; [done|].
    assert (Hordered : length ordered = n) by apply ordered_tuples_length.
    unfold contents. cbn [nRows_ nCols_ data_]. rewrite Hb1, Hb2, Hb3.
    rewrite !length_fmap, !ordered_tuples_length, Hlen, Nat.mul_1_r, !Nat.leb_refl.
    rewrite !take_ge by (rewrite ?length_fmap, ?ordered_tuples_length; lia). done. }
  apply wp_run in Hwp as (result & h' & Hrun & l1 & l2 & l3 & vecs & -> & Hrest).
  by exists l1, l2, l3, h', vecs.
Qed.

(** X17: where the solver succeeds, the eigenvalues [diagonalize] returns
    in descending order are those it returns in ascending order, reversed,
    ties included, and so are the columns of the matrix of eigenvectors. *)
Theorem diagonalize_descending_is_ascending_reversed h this a :
  let n := nCols_ this in
  contents h this = Some a -> nRows_ this = nCols_ this ->
  geev_info (diagonalizer n a) = 0%Z ->
  1 <= n -> (Z.of_nat n * Z.of_nat (n * n) <= Int.max_signed)%Z ->
  exists up hu down hd re im vecs,
    diagonalize this Ascending h = Ok (up, hu)
    /\ diagonalize this Descending h = Ok (down, hd)
    /\ contents hu up.1.1 = Some re /\ contents hd down.1.1 = Some (reverse re)
    /\ contents hu up.1.2 = Some im /\ contents hd down.1.2 = Some (reverse im)
    /\ contents hu up.2 = Some vecs
    /\ forall r k, r < n -> k < n ->
         entry hd down.2 r k = vecs !! (r * n + (n - 1 - k)).
Proof.
  intros n Ha Hsq Hinfo Hn Hmax.
  destruct (diagonalize_run h this a Ascending Ha Hsq Hinfo Hn Hmax)
    as (u1 & u2 & u3 & hu & vecs & Hup & Hre & Him & Hvecs & Hcols).
  destruct (diagonalize_run h this a Descending Ha Hsq Hinfo Hn Hmax)
    as (d1 & d2 & d3 & hd & vecs' & Hdown & Hre' & Him' & Hvecs' & Hcols').
  fold n in Hup, Hre, Him, Hvecs, Hcols, Hdown, Hre', Him', Hvecs', Hcols'.
  cbn [ordered_tuples] in *.
  set (sorted := std_sort (solver_tuples n (diagonalizer n a))) in *.
  assert (Hsorted : length sorted = n) by apply (ordered_tuples_length Ascending).
  eexists _, _, _, _, _, _, _. split; [exact Hup|]. split; [exact Hdown|].
  cbn [fst snd]. split; [exact Hre|]. split; [by rewrite <- fmap_reverse|].
  split; [exact Him|]. split; [by rewrite <- fmap_reverse|]. split; [exact Hvecs|].
  intros r k Hr Hk.
  rewrite (entry_Some _ _ _ _ _ Hvecs') by done. cbn [nCols_].
  destruct (lookup_lt_is_Some_2 sorted (n - 1 - k) ltac:(lia)) as [e He].
  rewrite (Hcols r (n - 1 - k) e) by (done || lia).
  apply (Hcols' r k e); [done|done|].
  rewrite reverse_lookup by lia. rewrite <- He. f_equal. lia.
Qed.

End DiagonalizeOrders.

(** ** Rows and columns as slices *)

Section RowsAndColumns.
#[local] Open Scope nat_scope.
Implicit Types (h : heap Real) (this : Matrix) (buf : list Real).

Lemma row_valid h this buf r :
  contents h this = Some buf -> r < nRows_ this ->
  (Z.of_nat (nRows_ this * nCols_ this) < 2 ^ 64)%Z ->
  slice_valid h (row this r).
Proof.
  intros Hbuf Hr Hsize. apply contents_Some in Hbuf as (b & Hb & Hlen & _).
  unfold slice_valid, row, Slice.make. cbn [stride_ begin_ end_ slice_block].
  split; [done|]. split; [lia|]. split; [nia|]. split; [exists (nCols_ this); lia|].
  exists b. split; [done|]. intros k Hk. nia.
Qed.

Lemma col_valid h this buf c :
  contents h this = Some buf -> c < nCols_ this ->
  (Z.of_nat (nRows_ this * nCols_ this + nCols_ this) < 2 ^ 64)%Z ->
  slice_valid h (col this c).
Proof.
  intros Hbuf Hc Hsize. apply contents_Some in Hbuf as (b & Hb & Hlen & _).
  unfold slice_valid, col, Slice.make. cbn [stride_ begin_ end_ slice_block].
  split; [lia|]. split; [lia|]. split; [lia|]. split; [exists (nRows_ this); lia|].
  exists b. split; [done|]. intros k Hk.
  assert (k < nRows_ this) by nia. nia.
Qed.

Lemma row_position this r i :
  slice_position (row this r) i <-> exists c, c < nCols_ this /\ i = r * nCols_ this + c.
Proof.
  unfold slice_position, slice_count, row, Slice.make. cbn [stride_ begin_ end_].
  rewrite Nat.div_1_r. replace ((r + 1) * nCols_ this - r * nCols_ this) with (nCols_ this) by lia.
  split; intros (k & Hk & ->); exists k; (split; [done|lia]).
Qed.

Lemma col_position this c i :
  c < nCols_ this ->
  slice_position (col this c) i <-> exists r, r < nRows_ this /\ i = r * nCols_ this + c.
Proof.
  intros Hc. unfold slice_position, slice_count, col, Slice.make. cbn [stride_ begin_ end_].
  replace (nRows_ this * nCols_ this + c - c) with (nRows_ this * nCols_ this) by lia.
  rewrite Nat.div_mul by lia.
  split; intros (k & Hk & ->); exists k; (split; [done|lia]).
Qed.

(** X18: a row slice has as many elements as the matrix has columns and a
    column slice as many as it has rows, whatever the row or column asked
    for; the size of a column slice of a matrix without columns is a
    division by zero. *)
Theorem sizes_of_rows_and_columns this r c :
  (Z.of_nat (nRows_ this * nCols_ this) < 2 ^ 64)%Z ->
  (Z.of_nat (nCols_ this) < 2 ^ 64)%Z ->
  Slice.size (row this r) = Ok (nCols_ this)
  /\ (1 <= nCols_ this -> Slice.size (col this c) = Ok (nRows_ this))
  /\ (nCols_ this = 0 -> Slice.size (col this c) = Undefined).
Proof.
  intros Hsize Hcols. unfold Slice.size, row, col, Slice.make.
  cbn [stride_ begin_ end_]. split; [|split].
  - cbn [Nat.eqb]. f_equal.
    replace (Z.of_nat ((r + 1) * nCols_ this) - Z.of_nat (r * nCols_ this))%Z
      with (Z.of_nat (nCols_ this)) by lia.
    rewrite Z.mod_small, Z.div_1_r by lia. apply Nat2Z.id.
  - intros Hone. destruct (Nat.eqb_spec (nCols_ this) 0) as [|_]; [lia|]. f_equal.
    replace (Z.of_nat (nRows_ this * nCols_ this + c) - Z.of_nat c)%Z
      with (Z.of_nat (nRows_ this) * Z.of_nat (nCols_ this))%Z by lia.
    rewrite Z.mod_small, Z.div_mul by lia. apply Nat2Z.id.
  - intros ->. done.
Qed.

Lemma scalar_operator_run h s (val : Real) op f :
  slice_valid h s -> (op, f) ∈ scalar_operators val ->
  exists b b',
    h !! slice_block s = Some b /\
    op s val h = Ok (s, <[slice_block s := b']> h) /\
    length b' = length b /\
    (forall i, slice_position s i -> b' !! i = f <$> b !! i) /\
    (forall i, ~ slice_position s i -> b' !! i = b !! i).
Proof.
  intros Hs Hop.
  assert (forall g, (forall x, g x = f x) ->
            op s val h = (run _ <- Slice.for_each g s; ret s) h ->
            exists b b',
              h !! slice_block s = Some b /\
              op s val h = Ok (s, <[slice_block s := b']> h) /\
              length b' = length b /\
              (forall i, slice_position s i -> b' !! i = f <$> b !! i) /\
              (forall i, ~ slice_position s i -> b' !! i = b !! i)) as Hany.
  { intros g Hg ->. destruct (scalar_spec g h s Hs) as (b & b' & Hb & Hrun & Hlen & Hin & Hout).
    exists b, b'. split; [done|]. split; [|split; [done|split; [|done]]].
    - unfold bind, ret. by rewrite Hrun.
    - intros i Hi. rewrite (Hin i Hi). by destruct (b !! i) as [x|]; cbn; rewrite ?Hg. }
  unfold scalar_operators in Hop.
  apply elem_of_cons in Hop as [[= -> ->]|Hop]; [by eapply Hany|].
  apply elem_of_cons in Hop as [[= -> ->]|Hop].
  { eapply Hany; [|reflexivity]. intros x. cbn. unfold Qcdiv. ring. }
  apply elem_of_cons in Hop as [[= -> ->]|Hop]; [by eapply Hany|].
  apply elem_of_cons in Hop as [[= -> ->]|Hop]; [by eapply Hany|].
  by apply elem_of_nil in Hop.
Qed.

(** X19: a scalar operator on a row slice updates the elements of that
    row and no other element of the matrix, and on a column slice those of
    that column and no other. *)
Theorem scalar_operators_touch_one_row_or_column h this buf (val : Real) op f :
  contents h this = Some buf ->
  (Z.of_nat (nRows_ this * nCols_ this + nCols_ this) < 2 ^ 64)%Z ->
  (op, f) ∈ scalar_operators val ->
  (forall r0, r0 < nRows_ this ->
     exists h',
       op (row this r0) val h = Ok (row this r0, h')
       /\ forall r c, r < nRows_ this -> c < nCols_ this ->
            entry h' this r c
            = (if decide (r = r0) then f else id) <$> entry h this r c)
  /\ (forall c0, c0 < nCols_ this ->
        exists h',
          op (col this c0) val h = Ok (col this c0, h')
          /\ forall r c, r < nRows_ this -> c < nCols_ this ->
               entry h' this r c
               = (if decide (c = c0) then f else id) <$> entry h this r c).
Proof.
  intros Hbuf Hsize Hop.
  pose proof Hbuf as Hb. apply contents_Some in Hb as (b & Hb & Hlen & Hbuf').
  assert (Hentry : forall s b' r c,
            slice_block s = data_ this -> length b' = length b ->
            r < nRows_ this -> c < nCols_ this ->
            entry (<[slice_block s := b']> h) this r c = b' !! (r * nCols_ this + c)).
  { intros s b' r c Hs Hlen' Hr Hc. rewrite Hs.
    rewrite (entry_Some _ _ (take (nRows_ this * nCols_ this) b')) by
      (done || (apply contents_insert; lia)).
    apply lookup_take_lt. nia. }
  assert (Hold : forall r c, r < nRows_ this -> c < nCols_ this ->
            entry h this r c = b !! (r * nCols_ this + c)).
  { intros r c Hr Hc. rewrite (entry_Some _ _ _ _ _ Hbuf Hc), Hbuf'.
    apply lookup_take_lt. nia. }
  split.
  - intros r0 Hr0.
    destruct (scalar_operator_run h (row this r0) val op f) as (b0 & b' & Hb0 & Hrun & Hlen' & Hin & Hout);
      [by apply (row_valid h this buf); [| |lia]|done|].
    cbn [row Slice.make slice_block] in Hb0. assert (b0 = b) as -> by congruence.
    eexists. split; [exact Hrun|]. intros r c Hr Hc.
    rewrite Hentry, Hold by done. destruct (decide (r = r0)) as [->|Hne].
    + apply Hin, row_position. by exists c.
    + rewrite Hout, option_fmap_id; [done|]. rewrite row_position.
      intros (c' & Hc' & Heq). apply index_unique in Heq as [? _]; done.
  - intros c0 Hc0.
    destruct (scalar_operator_run h (col this c0) val op f) as (b0 & b' & Hb0 & Hrun & Hlen' & Hin & Hout);
      [by apply (col_valid h this buf)|done|].
    cbn [col Slice.make slice_block] in Hb0. assert (b0 = b) as -> by congruence.
    eexists. split; [exact Hrun|]. intros r c Hr Hc.
    rewrite Hentry, Hold by done. destruct (decide (c = c0)) as [->|Hne].
    + apply Hin, col_position; [done|]. by exists r.
    + rewrite Hout, option_fmap_id; [done|]. rewrite col_position by done.
      intros (r' & Hr' & Heq). apply index_unique in Heq as [_ ?]; done.
Qed.

End RowsAndColumns.

(** ** The values of slice arithmetic *)

Section SliceValues.
#[local] Open Scope nat_scope.
Implicit Types (h : heap Real) (s other : sliceIterator).

(** [std::transform] when no element is read after it has been written:
    each source is another block than the destination, or starts at or
    after the start of the destination. *)
Lemma std_transform_run h src1 first1 last1 src2 first2 dst d_first
      (op : Real -> Real -> Real) b1 b2 bd :
  h !! src1 = Some b1 -> h !! src2 = Some b2 -> h !! dst = Some bd ->
  first1 <= last1 ->
  (forall i, i < last1 - first1 -> first1 + i < length b1) ->
  (forall i, i < last1 - first1 -> first2 + i < length b2) ->
  (forall i, i < last1 - first1 -> d_first + i < length bd) ->
  src1 <> dst \/ d_first <= first1 ->
  src2 <> dst \/ d_first <= first2 ->
  exists bd',
    Slice.std_transform src1 first1 last1 src2 first2 dst d_first op h
    = Ok (tt, <[dst := bd']> h)
    /\ length bd' = length bd
    /\ (forall i, i < last1 - first1 ->
          bd' !! (d_first + i) = Some (op (elem b1 (first1 + i)) (elem b2 (first2 + i))))
    /\ (forall j, j < d_first \/ d_first + (last1 - first1) <= j -> bd' !! j = bd !! j).
Proof.
  intros H1 H2 Hd Hle Hlen1 Hlen2 Hlend Hahead1 Hahead2.
  set (n := last1 - first1) in *.
  set (I := fun (k : nat) (_ : unit) (hk : heap Real) =>
              exists bk, hk = <[dst := bk]> h /\ length bk = length bd
                /\ (forall i, i < k ->
                      bk !! (d_first + i)
                      = Some (op (elem b1 (first1 + i)) (elem b2 (first2 + i))))
                /\ (forall j, j < d_first \/ d_first + k <= j -> bk !! j = bd !! j)).
  assert (Hwp : wp_total (Slice.std_transform src1 first1 last1 src2 first2 dst d_first op) h
                  (I n)).
  { unfold Slice.std_transform. destruct (Nat.ltb_spec last1 first1) as [|_]; [lia|].
    fold n. apply (wp_mfoldl_seq I).
    - exists bd. split; [by rewrite insert_id|]. split; [done|]. split; [lia|done].
    - intros k [] hk Hk (bk & -> & Hlenk & Hdone & Hrest). cbn [Nat.add].
      assert (Hread : forall src first b, h !! src = Some b ->
                (forall i, i < n -> first + i < length b) -> src <> dst \/ d_first <= first ->
                exists b', <[dst := bk]> h !! src = Some b'
                  /\ b' !! (first + k) = Some (elem b (first + k))).
      { intros src first b Hb Hlenb [Hne|Hahead].
        - exists b. rewrite lookup_insert_ne by done. split; [done|].
          apply elem_lookup. by apply Hlenb.
        - destruct (decide (src = dst)) as [->|Hne].
          + exists bk. rewrite lookup_insert_eq. split; [done|].
            assert (b = bd) as -> by congruence.
            rewrite Hrest by lia. apply elem_lookup. by apply Hlenb.
          + exists b. rewrite lookup_insert_ne by done. split; [done|].
            apply elem_lookup. by apply Hlenb. }
      destruct (Hread src1 first1 b1 H1 Hlen1 Hahead1) as (b1' & Hb1' & Hx).
      destruct (Hread src2 first2 b2 H2 Hlen2 Hahead2) as (b2' & Hb2' & Hy).
      apply wp_bind. eapply wp_load_at; [exact Hb1'|exact Hx|].
      apply wp_bind. eapply wp_load_at; [exact Hb2'|exact Hy|].
      eapply wp_store_at; [apply lookup_insert_eq|rewrite Hlenk; by apply Hlend|].
      eexists. split; [by rewrite insert_insert_eq|]. split; [by rewrite length_insert|]. split.
      + intros i Hi. destruct (decide (i = k)) as [->|Hne].
        * apply list_lookup_insert_eq. rewrite Hlenk. by apply Hlend.
        * rewrite list_lookup_insert_ne by lia. apply Hdone. lia.
      + intros j Hj. rewrite list_lookup_insert_ne by lia. apply Hrest. lia. }
  apply wp_run in Hwp as ([] & h' & Hrun & bd' & -> & Hlen' & Hdone & Hrest).
  by exists bd'.
Qed.

(** What a contiguous valid slice needs of its block. *)
Lemma contiguous_range h s :
  slice_valid h s -> stride_ s = 1 ->
  exists b, h !! slice_block s = Some b /\ begin_ s <= end_ s
            /\ (forall i, i < end_ s - begin_ s -> begin_ s + i < length b)
            /\ slice_count s = end_ s - begin_ s.
Proof.
  intros (Hstride & Hle & Hend & (n & Hn) & b & Hb & Hpos) Hone.
  exists b. split; [done|]. split; [done|]. split.
  - intros i Hi. specialize (Hpos i). lia.
  - by apply slice_count_contiguous.
Qed.

Lemma wp_of_run {A : Type} (m : M Real A) h a h' (Q : A -> heap Real -> Prop) :
  m h = Ok (a, h') -> Q a h' -> wp_total m h Q.
Proof. intros Hrun HQ. unfold wpg. by rewrite Hrun. Qed.

(** X20: the difference of two contiguous slices of the same size is a
    new matrix of one row, in a new block, whose elements are the
    differences of the corresponding elements; the store is otherwise as
    before. *)
Theorem slice_difference_is_a_new_row h s other :
  slice_valid h s -> slice_valid h other ->
  slice_count s = slice_count other -> stride_ s = 1 -> stride_ other = 1 ->
  exists b bo l out,
    h !! slice_block s = Some b /\ h !! slice_block other = Some bo /\ h !! l = None
    /\ Slice.sub s other h = Ok (mkMatrix 1 (slice_count s) l, <[l := out]> h)
    /\ length out = slice_count s
    /\ forall i, i < slice_count s ->
         out !! i = Some (elem b (begin_ s + i) - elem bo (begin_ other + i))%Qc.
Proof.
  intros Hs Ho Hcount Hone Hone'.
  destruct (contiguous_range h s Hs Hone) as (b & Hb & Hle & Hin & Hn).
  destruct (contiguous_range h other Ho Hone') as (bo & Hbo & Hleo & Hino & Hno).
  assert (Hwp : wp_total (Slice.sub s other) h (fun m h' =>
            exists l out, h !! l = None
              /\ m = mkMatrix 1 (slice_count s) l /\ h' = <[l := out]> h
              /\ length out = slice_count s
              /\ forall i, i < slice_count s ->
                   out !! i = Some (elem b (begin_ s + i) - elem bo (begin_ other + i))%Qc)).
  { unfold wpg, Slice.sub. rewrite checks_then.
    change (wp_total (run _ <- slice_checks s other;
                      run n <- lift (Slice.size s);
                      run ret' <- Matrix_new 1 n;
                      run _ <- Slice.std_transform (slice_block s) (begin_ s) (end_ s)
                                 (slice_block other) (begin_ other)
                                 (data_ ret') (0 * nCols_ ret') (fun a b => a - b)%Qc;
                      ret ret') h
              (fun m h' =>
                 exists l out, h !! l = None
                   /\ m = mkMatrix 1 (slice_count s) l /\ h' = <[l := out]> h
                   /\ length out = slice_count s
                   /\ forall i, i < slice_count s ->
                        out !! i = Some (elem b (begin_ s + i) - elem bo (begin_ other + i))%Qc)).
    apply wp_checked; [done..|].
    apply wp_bind. eapply wp_lift; [by apply (slice_size_valid h)|].
    apply wp_bind, wp_Matrix_new. intros l Hl. cbn [data_ nCols_ Nat.mul].
    assert (l <> slice_block s) as Hls by congruence.
    assert (l <> slice_block other) as Hlo by congruence.
    destruct (std_transform_run (<[l := replicate (slice_count s + 0) 0%Qc]> h)
                (slice_block s) (begin_ s) (end_ s) (slice_block other) (begin_ other) l 0
                (fun a b => a - b)%Qc b bo (replicate (slice_count s + 0) 0%Qc))
      as (out & Hrun & Hlen & Hvals & _).
    { by rewrite lookup_insert_ne. }
    { by rewrite lookup_insert_ne. }
    { apply lookup_insert_eq. }
    { done. }
    { done. }
    { intros i Hi. apply Hino. lia. }
    { intros i Hi. rewrite length_replicate. lia. }
    { left. congruence. }
    { left. congruence. }
    apply wp_bind. eapply wp_of_run; [exact Hrun|]. apply wp_ret.
    exists l, out. rewrite insert_insert_eq. split; [done|]. split; [done|]. split; [done|].
    rewrite length_replicate in Hlen. split; [lia|].
    intros i Hi. rewrite <- (Hvals i) by lia. done. }
  apply wp_run in Hwp as (m & h' & Hrun & l & out & Hl & -> & -> & Hlen & Hvals).
  by exists b, bo, l, out.
Qed.

(** X21: [s -= other] and [s += other] on contiguous slices of the same
    size, where [other] is in another block or does not start before [s],
    replace each element of [s] by its difference or sum with the
    corresponding element of [other] as it was before the call, and leave
    the rest of the block alone. *)
Theorem slice_compound_assignment_values h s other :
  slice_valid h s -> slice_valid h other ->
  slice_count s = slice_count other -> stride_ s = 1 -> stride_ other = 1 ->
  slice_block other <> slice_block s \/ begin_ s <= begin_ other ->
  exists b bo,
    h !! slice_block s = Some b /\ h !! slice_block other = Some bo
    /\ forall assign (op : Real -> Real -> Real),
         (assign, op) ∈ [(Slice.sub_assign, fun x y => x - y);
                         (Slice.add_assign, fun x y => x + y)]%Qc ->
         exists b',
           assign s other h = Ok (s, <[slice_block s := b']> h)
           /\ length b' = length b
           /\ (forall i, i < slice_count s ->
                 b' !! (begin_ s + i)
                 = Some (op (elem b (begin_ s + i)) (elem bo (begin_ other + i))))
           /\ (forall j, j < begin_ s \/ end_ s <= j -> b' !! j = b !! j).
Proof.
  intros Hs Ho Hcount Hone Hone' Hahead.
  destruct (contiguous_range h s Hs Hone) as (b & Hb & Hle & Hin & Hn).
  destruct (contiguous_range h other Ho Hone') as (bo & Hbo & Hleo & Hino & Hno).
  exists b, bo. split; [done|]. split; [done|].
  assert (Hany : forall op : Real -> Real -> Real,
            exists b',
              (run _ <- slice_checks s other;
               run _ <- Slice.std_transform (slice_block s) (begin_ s) (end_ s)
                          (slice_block other) (begin_ other)
                          (slice_block s) (begin_ s) op;
               ret s) h = Ok (s, <[slice_block s := b']> h)
              /\ length b' = length b
              /\ (forall i, i < slice_count s ->
                    b' !! (begin_ s + i)
                    = Some (op (elem b (begin_ s + i)) (elem bo (begin_ other + i))))
              /\ (forall j, j < begin_ s \/ end_ s <= j -> b' !! j = b !! j)).
  { intros op.
    destruct (std_transform_run h (slice_block s) (begin_ s) (end_ s)
                (slice_block other) (begin_ other) (slice_block s) (begin_ s) op b bo b)
      as (b' & Hrun & Hlen & Hvals & Hrest).
    { done. }
    { done. }
    { done. }
    { done. }
    { done. }
    { intros i Hi. apply Hino. lia. }
    { done. }
    { by right. }
    { destruct Hahead; [by left|by right]. }
    exists b'. split; [|split; [done|split]].
    - unfold bind. rewrite slice_checks_pass by done. cbn [obind].
      rewrite Hrun. done.
    - intros i Hi. apply Hvals. lia.
    - intros j Hj. apply Hrest. lia. }
  intros assign op Hop.
  apply elem_of_cons in Hop as [[= -> ->]|Hop].
  { unfold Slice.sub_assign. rewrite checks_then. apply Hany. }
  apply elem_of_cons in Hop as [[= -> ->]|Hop].
  { unfold Slice.add_assign. rewrite checks_then. apply Hany. }
  by apply elem_of_nil in Hop.
Qed.

(** X22: [operator[]] of a slice does not use the stride: on a row slice
    index [i] is the element of column [i] of the row, and on the slice of
    column [c] it is the element of column [c + i] of row 0, not the
    element of row [i]. *)
Theorem slice_index_ignores_the_stride h this buf :
  contents h this = Some buf ->
  (forall r i, r < nRows_ this -> i < nCols_ this ->
     exists x, entry h this r i = Some x
               /\ Slice.operator_index (row this r) i h = Ok (x, h))
  /\ (forall c i, 1 <= nRows_ this -> c + i < nCols_ this ->
        exists x, entry h this 0 (c + i) = Some x
                  /\ Slice.operator_index (col this c) i h = Ok (x, h)).
Proof.
  intros Hbuf. pose proof Hbuf as Hb. apply contents_Some in Hb as (b & Hb & Hlen & Hbuf').
  assert (Hat : forall r c, r < nRows_ this -> c < nCols_ this ->
            exists x, entry h this r c = Some x /\ b !! (r * nCols_ this + c) = Some x).
  { intros r c Hr Hc.
    assert (r * nCols_ this + c < nRows_ this * nCols_ this) by nia.
    destruct (lookup_lt_is_Some_2 b (r * nCols_ this + c) ltac:(lia)) as [x Hx].
    exists x. split; [|done].
    rewrite (entry_Some _ _ _ _ _ Hbuf Hc), Hbuf'. by rewrite lookup_take_lt. }
  split.
  - intros r i Hr Hi. destruct (Hat r i Hr Hi) as (x & Hentry & Hx).
    exists x. split; [done|]. apply wp_returns.
    eapply wp_load_at; [exact Hb|exact Hx|done].
  - intros c i Hr Hi. destruct (Hat 0 (c + i) Hr Hi) as (x & Hentry & Hx).
    exists x. split; [done|]. apply wp_returns.
    eapply wp_load_at; [exact Hb|exact Hx|done].
Qed.

End SliceValues.

(** ** More on the inverse of a 3 x 3 matrix *)

Section Inverse3More.
Context `{LapackWrapper} `{StdSort}.
Implicit Types (h : heap Real) (this : Matrix).
#[local] Open Scope nat_scope.

(** A run of the 3 x 3 branch. *)
Lemma inverse_3x3_run h this (d : list Real) :
  nRows_ this = 3 -> nCols_ this = 3 -> contents h this = Some d ->
  exists l,
    h !! l = None
    /\ inverse this h
       = Ok (mkMatrix 3 3 l,
             <[l := (fun k => closed_form_inverse d (k / 3) (k mod 3)) <$> seq 0 9]> h).
Proof.
  intros Hrows Hcols Hd.
  assert (Hinv : wp_total (inverse this) h (fun inv h1 =>
            exists l, h !! l = None /\ inv = mkMatrix 3 3 l
              /\ h1 = <[l := (fun k => closed_form_inverse d (k / 3) (k mod 3)) <$> seq 0 9]> h)).
  { apply (wp_inverse_3x3 _ _ d); [done..|]. intros l Hl. by exists l. }
  apply wp_run in Hinv as (inv & h1 & Hrun1 & l & Hl & -> & ->). by exists l.
Qed.

(** X23: [inverse] throws on a matrix that is not square; on a 3 x 3
    matrix it returns a 3 x 3 matrix in a new block whatever the
    determinant, zero included, and the receiver is as before. *)
Theorem inverse_checks_the_shape_only h this :
  (nRows_ this <> nCols_ this ->
   inverse this h
   = Throw "Attepting to perform a square matrix operation on a non-square matrix!")
  /\ (forall d, nRows_ this = 3 -> nCols_ this = 3 -> contents h this = Some d ->
        exists inv h',
          inverse this h = Ok (inv, h')
          /\ nRows_ inv = 3 /\ nCols_ inv = 3
          /\ h !! data_ inv = None /\ contents h' this = Some d).
Proof.
  split.
  - intros Hne. unfold inverse, assertSquare, bind.
    by destruct (Nat.eqb_spec (nRows_ this) (nCols_ this)).
  - intros d Hrows Hcols Hd.
    destruct (inverse_3x3_run h this d Hrows Hcols Hd) as (l & Hl & Hrun).
    eexists _, _. split; [exact Hrun|]. cbn [nRows_ nCols_ data_].
    split; [done|]. split; [done|]. split; [done|]. by apply contents_fresh.
Qed.


End Inverse3More.

Section InverseTwice.
Context `{LapackWrapper} `{StdSort}.
Implicit Types (h : heap Real) (this : Matrix).
#[local] Open Scope nat_scope.



End InverseTwice.

(** ** Copies and views *)

Section CopiesAndViews.
#[local] Open Scope nat_scope.
Implicit Types (h : heap Real) (this other : Matrix) (a b buf : list Real).

(** X26: [clone] is a deep copy and the borrowing constructor a shallow
    one: [setConstant] on the clone leaves the elements of the matrix, and
    on a view of its data it changes them. *)
Theorem clone_is_deep_and_a_view_is_shallow h this buf (value : Real) :
  contents h this = Some buf ->
  (exists copy h1 h2,
     clone this h = Ok (copy, h1)
     /\ setConstant copy value h1 = Ok (tt, h2)
     /\ contents h2 copy = Some (replicate (nRows_ this * nCols_ this) value)
     /\ contents h2 this = Some buf)
  /\ (exists h2,
        setConstant (Matrix_view (data_ this) (nRows_ this) (nCols_ this)) value h
        = Ok (tt, h2)
        /\ contents h2 this = Some (replicate (nRows_ this * nCols_ this) value)).
Proof.
  intros Hbuf. split.
  - destruct (clone_run this h buf Hbuf) as (l & Hl & Hclone).
    assert (contents (<[l := buf]> h) (mkMatrix (nRows_ this) (nCols_ this) l) = Some buf)
      as Hcopy by (apply contents_insert_exact; by apply contents_length in Hbuf).
    destruct (setConstant_run _ _ _ value Hcopy) as (b & Hb & Hrun & Hfilled).
    cbn [nRows_ nCols_ data_] in *.
    eexists _, _, _. split; [exact Hclone|]. split; [exact Hrun|]. split; [exact Hfilled|].
    rewrite contents_insert_ne; [by apply contents_fresh|].
    intros ->. apply contents_Some in Hbuf as (b' & Hb' & _). congruence.
  - destruct (setConstant_run (Matrix_view (data_ this) (nRows_ this) (nCols_ this)) h
                buf value) as (b & Hb & Hrun & Hfilled); [by destruct this|].
    eexists. split; [exact Hrun|]. cbn [Matrix_view nRows_ nCols_ data_] in *.
    by destruct this.
Qed.

(** X27: the [dot] of two matrices of the same dimensions is the only
    element of the product of the first, viewed as one row, with the
    second, viewed as one column. *)
Theorem dot_is_a_row_times_a_column h this other a b :
  contents h this = Some a -> contents h other = Some b ->
  nRows_ this = nRows_ other -> nCols_ this = nCols_ other ->
  exists d product h',
    dot this other h = Ok (d, h)
    /\ multiply (Matrix_view (data_ this) 1 (nRows_ this * nCols_ this))
                (Matrix_view (data_ other) (nRows_ this * nCols_ this) 1) h
       = Ok (product, h')
    /\ nRows_ product = 1 /\ nCols_ product = 1
    /\ entry h' product 0 0 = Some d.
Proof.
  intros Ha Hb Hrows Hcols.
  pose proof (dot_run this other h a b Ha Hb Hrows Hcols) as Hdot.
  set (n := nRows_ this * nCols_ this) in *.
  assert (contents h (Matrix_view (data_ this) 1 n) = Some a) as Ha'.
  { unfold contents in *. cbn [Matrix_view nRows_ nCols_ data_].
    fold n in Ha. by rewrite Nat.mul_1_l. }
  assert (contents h (Matrix_view (data_ other) n 1) = Some b) as Hb'.
  { unfold contents in *. cbn [Matrix_view nRows_ nCols_ data_].
    rewrite <- Hrows, <- Hcols in Hb. fold n in Hb. by rewrite Nat.mul_1_r. }
  destruct (multiply_run _ _ h a b Ha' Hb') as (l & p & Hl & Hrun & Hlen & Hp); [done|].
  cbn [Matrix_view nRows_ nCols_ data_] in *.
  eexists _, _, _. split; [exact Hdot|]. split; [exact Hrun|].
  cbn [nRows_ nCols_]. split; [done|]. split; [done|].
  rewrite entry_of_block by (done || lia). rewrite (Hp 0 0) by lia. f_equal.
  unfold product_entry. apply sum_upto_ext. intros k Hk.
  do 2 f_equal; lia.
Qed.

End CopiesAndViews.

(** ** The transpose of a product *)

Section TransposeOfProduct.
#[local] Open Scope nat_scope.
Implicit Types (h : heap Real) (a b : list Real).

(** X28: within the range of [int], the transpose of a product and the
    product of the transposes in the other order have the same dimensions
    and the same elements. *)
Theorem transpose_of_a_product h A B a b :
  contents h A = Some a -> contents h B = Some b -> nCols_ A = nRows_ B ->
  1 <= nRows_ A -> 1 <= nCols_ A -> 1 <= nCols_ B ->
  (Z.of_nat (nRows_ A) * Z.of_nat (nRows_ A * nCols_ A) <= Int.max_signed)%Z ->
  (Z.of_nat (nRows_ B) * Z.of_nat (nRows_ B * nCols_ B) <= Int.max_signed)%Z ->
  (Z.of_nat (nRows_ A) * Z.of_nat (nRows_ A * nCols_ B) <= Int.max_signed)%Z ->
  exists whole h1 parts h2,
    (run ab <- multiply A B; transpose ab) h = Ok (whole, h1)
    /\ (run bt <- transpose B; run at' <- transpose A; multiply bt at') h = Ok (parts, h2)
    /\ nRows_ whole = nCols_ B /\ nCols_ whole = nRows_ A
    /\ nRows_ parts = nCols_ B /\ nCols_ parts = nRows_ A
    /\ forall l r, l < nCols_ B -> r < nRows_ A ->
         exists x, entry h1 whole l r = Some x /\ entry h2 parts l r = Some x.
Proof.
  intros Ha Hb HAB HR HK HL HmaxA HmaxB HmaxAB.
  pose proof (contents_length _ _ _ Ha) as Hlena.
  pose proof (contents_length _ _ _ Hb) as Hlenb.
  (* the product, then its transpose *)
  destruct (multiply_run A B h a b Ha Hb HAB) as (l1 & ab & Hl1 & Hrun1 & Hlen1 & Hab).
  destruct (transpose_run (<[l1 := ab]> h) (mkMatrix (nRows_ A) (nCols_ B) l1) ab)
    as (l2 & abt & Hl2 & Hrun2 & Hlen2 & Habt);
    [by apply contents_insert_exact|done..|].
  (* the transposes, then their product *)
  destruct (transpose_run h B b Hb) as (l3 & bt & Hl3 & Hrun3 & Hlen3 & Hbt);
    [lia|done|done|].
  destruct (transpose_run (<[l3 := bt]> h) A a) as (l4 & at' & Hl4 & Hrun4 & Hlen4 & Hat);
    [by apply contents_fresh|done..|].
  assert (l4 <> l3) as H43.
  { intros ->. by rewrite lookup_insert_eq in Hl4. }
  destruct (multiply_run (mkMatrix (nCols_ B) (nRows_ B) l3) (mkMatrix (nCols_ A) (nRows_ A) l4)
              (<[l4 := at']> (<[l3 := bt]> h)) bt at')
    as (l5 & p & Hl5 & Hrun5 & Hlen5 & Hp).
  { rewrite contents_insert_ne by done. apply contents_insert_exact. lia. }
  { apply contents_insert_exact. lia. }
  { cbn [nRows_ nCols_]. lia. }
  cbn [nRows_ nCols_ data_] in *.
  eexists _, _, _, _. split; [|split].
  - unfold bind. rewrite Hrun1. exact Hrun2.
  - unfold bind. rewrite Hrun3. cbn [obind]. rewrite Hrun4. exact Hrun5.
  - cbn [nRows_ nCols_]. do 4 (split; [done|]). intros l r Hl Hr.
    rewrite !entry_of_block by (done || lia).
    rewrite (Habt r l Hr Hl), (Hab r l Hr Hl), (Hp l r Hl Hr).
    eexists. split; [done|]. f_equal. unfold product_entry.
    rewrite <- HAB in *. apply sum_upto_ext. intros k Hk.
    assert (elem bt (l * nCols_ A + k) = elem b (k * nCols_ B + l)) as ->.
    { unfold elem. rewrite (Hbt k l) by lia. done. }
    assert (elem at' (k * nRows_ A + r) = elem a (r * nCols_ A + k)) as ->.
    { unfold elem. rewrite (Hat r k) by lia. done. }
    ring.
Qed.

End TransposeOfProduct.

(** ** [cast] *)

Section Cast.
Context {T NewReal : Type} `{Zero NewReal}.
#[local] Open Scope nat_scope.
Implicit Types (this : Matrix) (buf : list T).

Lemma cast_run (static_cast : T -> NewReal) this (source : heap T) buf (mem : heap NewReal) :
  contents source this = Some buf ->
  exists l,
    mem !! l = None
    /\ cast static_cast this source mem
       = Ok (mkMatrix (nRows_ this) (nCols_ this) l, <[l := static_cast <$> buf]> mem).
Proof.
  intros Hbuf. pose proof (contents_length _ _ _ Hbuf) as Hlen.
  apply contents_Some in Hbuf as (b & Hb & Hble & Hbuf).
  set (n := nRows_ this * nCols_ this) in *.
  assert (Hwp : wp_total (cast static_cast this source) mem (fun m mem' =>
            exists l, mem !! l = None /\ m = mkMatrix (nRows_ this) (nCols_ this) l
              /\ mem' = <[l := static_cast <$> buf]> mem)).
  { unfold cast. apply wp_bind, wp_Matrix_new. intros l Hl. fold n.
    cbn [data_ nCols_ Nat.mul Nat.add]. apply wp_bind.
    eapply wp_mono.
    { apply (wp_mfoldl_seq (fun k (_ : unit) mem' =>
               mem' = <[l := (static_cast <$> take k buf) ++ replicate (n - k) zero]> mem)).
      - cbn. by rewrite Nat.sub_0_r.
      - intros k [] mem' Hk ->. cbn [Nat.add].
        destruct (lookup_lt_is_Some_2 buf k ltac:(lia)) as [x Hx].
        apply wp_bind. eapply wp_lift.
        { rewrite Hb. apply load_of_nat. rewrite Hbuf in Hx.
          by rewrite lookup_take_lt in Hx. }
        eapply wp_store_at; [apply lookup_insert_eq| |].
        { rewrite length_app, length_fmap, length_take, length_replicate. lia. }
        rewrite insert_insert_eq. f_equal.
        rewrite (take_S_r _ _ _ Hx), fmap_app. cbn [fmap list_fmap].
        rewrite <- app_assoc. cbn [app].
        replace (n - k) with (S (n - S k)) by lia. cbn [replicate].
        rewrite insert_app_r_alt by (rewrite length_fmap, length_take; lia).
        rewrite length_fmap, length_take, Nat.min_l, Nat.sub_diag by lia. done. }
    intros [] mem' ->. apply wp_ret. exists l. split; [done|]. split; [done|].
    rewrite Nat.sub_diag, app_nil_r, take_ge by lia. done. }
  apply wp_run in Hwp as (m & mem' & Hrun & l & Hl & -> & ->). by exists l.
Qed.

(** X29: [cast] returns a matrix with the dimensions of the receiver, in
    a new block of the store of the new element type, whose elements are
    the converted elements of the receiver; that store is otherwise as
    before. *)
Theorem cast_converts_a_deep_copy (static_cast : T -> NewReal) this (source : heap T) buf
    (mem : heap NewReal) :
  contents source this = Some buf ->
  exists copy mem',
    cast static_cast this source mem = Ok (copy, mem')
    /\ nRows_ copy = nRows_ this /\ nCols_ copy = nCols_ this
    /\ mem !! data_ copy = None /\ kept mem mem'
    /\ forall r c, r < nRows_ this -> c < nCols_ this ->
         entry mem' copy r c = static_cast <$> entry source this r c.
Proof.
  intros Hbuf. pose proof (contents_length _ _ _ Hbuf) as Hlen.
  destruct (cast_run static_cast this source buf mem Hbuf) as (l & Hl & Hrun).
  eexists _, _. split; [exact Hrun|]. cbn [nRows_ nCols_ data_].
  split; [done|]. split; [done|]. split; [done|].
  split; [by apply kept_insert; [apply kept_refl|]|].
  intros r c Hr Hc.
  rewrite (entry_Some _ _ (static_cast <$> buf)); cbn [nRows_ nCols_ data_];
    [|by apply contents_insert_exact; rewrite length_fmap|done].
  rewrite (entry_Some _ _ _ _ _ Hbuf Hc). apply list_lookup_fmap.
Qed.

End Cast.

(** The block of the copy is the first block the call allocates. *)
Lemma bind_returns {T A B : Type} (m : M T A) (k : A -> M T B) (mem mem' : heap T) y :
  (run a <- m; k a) mem = Ok (y, mem') ->
  exists a mem1, m mem = Ok (a, mem1) /\ k a mem1 = Ok (y, mem').
Proof.
  unfold bind. destruct (m mem) as [[a mem1]| | |]; [|done..]. intros Hk. by exists a, mem1.
Qed.

(** X30: [cast] to the element type of the matrix does what [clone]
    does. *)
Theorem cast_to_the_same_type_is_clone {T : Type} `{Zero T} (this : Matrix)
    (mem : heap T) buf :
  contents mem this = Some buf ->
  cast (fun x => x) this mem mem = clone this mem.
Proof.
  intros Hbuf.
  destruct (cast_run (fun x => x) this mem buf mem Hbuf) as (l & Hl & Hcast).
  destruct (clone_run this mem buf Hbuf) as (l' & Hl' & Hclone).
  rewrite Hcast, Hclone, list_fmap_id.
  assert (l = fresh (dom mem)) as ->.
  { unfold cast in Hcast.
    apply bind_returns in Hcast as (m & mem1 & [= <- <-] & Hrest).
    apply bind_returns in Hrest as ([] & mem2 & _ & [= -> _]). done. }
  assert (l' = fresh (dom mem)) as ->; [|done].
  unfold clone in Hclone.
  apply bind_returns in Hclone as (m & mem1 & [= <- <-] & Hrest).
  apply bind_returns in Hrest as (src & mem2 & _ & Hrest).
  apply bind_returns in Hrest as ([] & mem3 & _ & [= -> _]). done.
Qed.
(** ** The further properties at sample inputs *)

(** A side condition on a sample input, by evaluation. *)
Ltac sample :=
  first [ reflexivity
        | vm_compute; lia
        | vm_compute; reflexivity
        | vm_compute; discriminate
        | vm_compute; intros; discriminate ].

(** X2 at the last element of [Sample.lhs]. *)
Lemma operator_call_witness :
  exists old h',
    entry Sample.two_store Sample.lhs 1 2 = Some old
    /\ operator_call Sample.lhs (Z.of_nat 1) (Z.of_nat 2) Sample.two_store
       = Ok (old, Sample.two_store)
    /\ operator_call_assign Sample.lhs (Z.of_nat 1) (Z.of_nat 2) (Q2Qc 9) Sample.two_store
       = Ok (tt, h')
    /\ operator_call Sample.lhs (Z.of_nat 1) (Z.of_nat 2) h' = Ok (Q2Qc 9, h').
Proof.
  destruct (operator_call_reads_what_was_assigned Sample.lhs Sample.two_store
              Sample.lhs_elements 1 2 (Q2Qc 9))
    as (old & h' & Hentry & Hread & Hwrite & Hback & _); [sample..|].
  exists old, h'. split; [exact Hentry|]. split; [exact Hread|]. split; [exact Hwrite|exact Hback].
Defined.

(** X3 at the first row of [Sample.lhs]. *)
Lemma operator_call_column_witness :
  exists below above,
    entry Sample.two_store Sample.lhs (0 + 1) 1 = Some below
    /\ entry Sample.two_store Sample.lhs 0 1 = Some above
    /\ operator_call Sample.lhs (Z.of_nat 0) (Z.of_nat (1 + 3)) Sample.two_store
       = Ok (below, Sample.two_store)
    /\ operator_call Sample.lhs (Z.of_nat (0 + 1)) (Z.of_nat 1 - Z.of_nat 3) Sample.two_store
       = Ok (above, Sample.two_store).
Proof.
  apply (operator_call_does_not_check_the_column Sample.lhs Sample.two_store
           Sample.lhs_elements 0 1); sample.
Defined.

(** X4 at [Sample.lhs]. *)
Lemma setConstant_witness :
  exists h',
    setConstant Sample.lhs (Q2Qc 7) Sample.two_store = Ok (tt, h')
    /\ forall r c, (r < 2)%nat -> (c < 3)%nat -> entry h' Sample.lhs r c = Some (Q2Qc 7).
Proof.
  destruct (setConstant_fills_the_matrix_only Sample.lhs Sample.two_store
              Sample.lhs_elements (Q2Qc 7)) as (b & h' & _ & Hrun & _ & Hfilled); [sample|].
  exists h'. split; [exact Hrun|exact Hfilled].
Defined.

(** X5 at [Sample.lhs]. *)
Lemma isNearZero_witness :
  exists result,
    isNearZero Sample.lhs (Q2Qc 6) Sample.two_store = Ok (result, Sample.two_store)
    /\ (result = true
        <-> Forall (fun val => (Qcabs val <= Q2Qc 6)%Qc) Sample.lhs_elements).
Proof.
  apply (isNearZero_tests_every_element Sample.lhs Sample.two_store); sample.
Defined.

(** X6 at [Sample.lhs]. *)
Lemma setZero_witness :
  exists h',
    setZero Sample.lhs Sample.two_store = Ok (tt, h')
    /\ isNearZero Sample.lhs (Q2Qc 0) h' = Ok (true, h').
Proof.
  destruct (setZero_then_isNearZero Sample.lhs Sample.two_store Sample.lhs_elements (Q2Qc 0))
    as (h' & Hrun & Htest); [sample|].
  exists h'. split; [exact Hrun|exact Htest].
Defined.

(** X7 at a diagonal matrix and at a matrix that is not square. *)
Lemma assertSymmetric_witness :
  assertSymmetric (Sample.square 2) default_threshold (Sample.store_of Sample.diag24)
  = Ok (tt, Sample.store_of Sample.diag24)
  /\ assertSymmetric Sample.lhs default_threshold Sample.two_store
     = Throw "Attepting to perform a square matrix operation on a non-square matrix!".
Proof.
  split.
  - apply (assertSymmetric_accepts_symmetric_matrices_only (Sample.square 2)
             (Sample.store_of Sample.diag24) Sample.diag24 default_threshold); [sample|sample|].
    intros row col Hcol Hrow. unfold Sample.square in *. cbn [nCols_] in *.
    assert (row = 1 /\ col = 0)%nat as [-> ->] by lia. vm_compute. discriminate.
  - apply (assertSymmetric_accepts_symmetric_matrices_only Sample.lhs Sample.two_store
             Sample.lhs_elements default_threshold); sample.
Defined.

(** X9 at [Sample.lhs]. *)
Lemma almostEquals_clone_witness :
  exists copy h',
    clone Sample.lhs Sample.two_store = Ok (copy, h')
    /\ almostEquals Sample.lhs copy default_tolerance h' = Ok (true, h').
Proof.
  destruct (almostEquals_its_clone Sample.lhs Sample.two_store Sample.lhs_elements
              default_tolerance) as (copy & h' & Hclone & _ & _ & _ & Hequal); [sample|].
  exists copy, h'. split; [exact Hclone|exact Hequal].
Defined.

(** X11 at [Sample.lhs]. *)
Lemma dot_witness :
  exists d,
    dot Sample.lhs Sample.lhs Sample.two_store = Ok (d, Sample.two_store) /\ (0 <= d)%Qc.
Proof.
  destruct (dot_with_itself_is_positive_definite Sample.two_store Sample.lhs
              Sample.lhs_elements) as (d & Hrun & Hpos & _); [sample|].
  exists d. split; [exact Hrun|exact Hpos].
Defined.

(** X12 at a 2 x 3, a 3 x 2 and a 2 x 3 matrix. *)
Lemma multiply_associative_witness :
  exists grouped_left hl grouped_right hr,
    (run ab <- multiply Sample.lhs Sample.rhs_3x2; multiply ab Sample.lhs) Sample.two_store
    = Ok (grouped_left, hl)
    /\ (run bc <- multiply Sample.rhs_3x2 Sample.lhs; multiply Sample.lhs bc) Sample.two_store
       = Ok (grouped_right, hr)
    /\ forall r s, (r < 2)%nat -> (s < 3)%nat ->
         exists x, entry hl grouped_left r s = Some x /\ entry hr grouped_right r s = Some x.
Proof.
  destruct (multiply_is_associative Sample.two_store Sample.lhs Sample.rhs_3x2 Sample.lhs
              Sample.lhs_elements Sample.rhs_elements Sample.lhs_elements)
    as (p & hl & q & hr & Hleft & Hright & _ & _ & _ & _ & Hsame); [sample..|].
  exists p, hl, q, hr. split; [exact Hleft|]. split; [exact Hright|exact Hsame].
Defined.

(** X13 at [Sample.m3] and the 3 x 3 identity. *)
Lemma multiply_identity_witness :
  exists product h',
    multiply (Sample.square 3) Sample.unit3 Sample.m3_store = Ok (product, h')
    /\ forall r c, (r < 3)%nat -> (c < 3)%nat ->
         entry h' product r c = entry Sample.m3_store (Sample.square 3) r c.
Proof.
  destruct (multiply_by_the_identity Sample.m3_store (Sample.square 3) Sample.m3) as [Hright _];
    [sample|].
  destruct (Hright Sample.unit3 Sample.identity3) as (product & h' & Hrun & _ & _ & Hsame);
    [sample|sample|sample| |].
  - intros r c Hr Hc. unfold Sample.square in *. cbn [nCols_] in *.
    assert ((r = 0 \/ r = 1 \/ r = 2) /\ (c = 0 \/ c = 1 \/ c = 2))%nat as Hrc by lia.
    destruct Hrc as [[-> | [-> | ->]] [-> | [-> | ->]]]; reflexivity.
  - exists product, h'. split; [exact Hrun|exact Hsame].
Defined.

(** X14 at [Sample.lhs]. *)
Lemma transposeInPlace_twice_witness :
  (run t <- transposeInPlace Sample.lhs; transposeInPlace t) Sample.two_store
  = Ok (Sample.lhs, Sample.two_store).
Proof.
  apply (transposeInPlace_twice_restores_the_store Sample.two_store Sample.lhs
           Sample.lhs_elements); sample.
Defined.

(** X15 at a row vector. *)
Lemma transposeInPlace_vector_witness :
  transposeInPlace Sample.row3 Sample.two_store
  = Ok (mkMatrix 3 1 1%positive, Sample.two_store).
Proof.
  apply (transposeInPlace_of_a_vector_moves_nothing Sample.two_store Sample.row3
           (take 3 Sample.lhs_elements)); [sample|by left|sample..].
Defined.

(** X16 at [Sample.lhs]. *)
Lemma transpose_witness :
  exists copy mem',
    transpose Sample.lhs Sample.two_store = Ok (copy, mem')
    /\ nRows_ copy = 3%nat /\ nCols_ copy = 2%nat
    /\ forall r c, (r < 2)%nat -> (c < 3)%nat ->
         entry mem' copy c r = entry Sample.two_store Sample.lhs r c.
Proof.
  destruct (transpose_returns_the_transposed_copy Sample.two_store Sample.lhs
              Sample.lhs_elements)
    as (copy & mem' & Hrun & Hrows & Hcols & _ & _ & _ & Hentries); [sample..|].
  exists copy, mem'. split; [exact Hrun|]. split; [exact Hrows|]. split; [exact Hcols|].
  exact Hentries.
Defined.

(** X17 at [diag(3, 1, 2)]. *)
Lemma diagonalize_orders_witness :
  exists up hu down hd re,
    diagonalize (Sample.square 3) Ascending (Sample.store_of Sample.diag312) = Ok (up, hu)
    /\ diagonalize (Sample.square 3) Descending (Sample.store_of Sample.diag312)
       = Ok (down, hd)
    /\ contents hu up.1.1 = Some re /\ contents hd down.1.1 = Some (reverse re).
Proof.
  destruct (diagonalize_descending_is_ascending_reversed
              (Sample.store_of Sample.diag312) (Sample.square 3) Sample.diag312)
    as (up & hu & down & hd & re & im & vecs & Hup & Hdown & Hre & Hre' & _); [sample..|].
  exists up, hu, down, hd, re. split; [exact Hup|]. split; [exact Hdown|].
  split; [exact Hre|exact Hre'].
Defined.

(** X18 at [Sample.lhs]. *)
Lemma slice_sizes_witness :
  Slice.size (row Sample.lhs 1) = Ok 3%nat /\ Slice.size (col Sample.lhs 2) = Ok 2%nat.
Proof.
  destruct (sizes_of_rows_and_columns Sample.lhs 1 2) as (Hrow & Hcol & _); [sample..|].
  split; [exact Hrow|]. apply Hcol. sample.
Defined.

(** X19 at the second column of [Sample.lhs], multiplied by 2. *)
Lemma scalar_operators_witness :
  exists h',
    Slice.mul_scalar (col Sample.lhs 1) (Q2Qc 2) Sample.two_store = Ok (col Sample.lhs 1, h')
    /\ forall r c, (r < 2)%nat -> (c < 3)%nat ->
         entry h' Sample.lhs r c
         = (if decide (c = 1%nat) then (fun x => x * Q2Qc 2)%Qc else id)
             <$> entry Sample.two_store Sample.lhs r c.
Proof.
  destruct (scalar_operators_touch_one_row_or_column Sample.two_store Sample.lhs
              Sample.lhs_elements (Q2Qc 2) Slice.mul_scalar (fun x => x * Q2Qc 2)%Qc)
    as [_ Hcol]; [sample|sample|apply list_elem_of_here|].
  apply (Hcol 1%nat). sample.
Defined.

(** The rows of the sample matrices are valid slices. *)
Lemma sample_rows_valid :
  slice_valid Sample.two_store (row Sample.lhs 0)
  /\ slice_valid Sample.two_store (row Sample.rhs 1)
  /\ slice_valid Sample.two_store (row Sample.lhs 1).
Proof.
  split; [|split]; apply (slice_valid_sample _ 3); try done;
    eexists; (split; [reflexivity|]); vm_compute; lia.
Qed.

(** X20 at a row of [Sample.lhs] and a row of [Sample.rhs]. *)
Lemma slice_difference_witness :
  exists l out,
    Slice.sub (row Sample.lhs 0) (row Sample.rhs 1) Sample.two_store
    = Ok (mkMatrix 1 (slice_count (row Sample.lhs 0)) l, <[l := out]> Sample.two_store)
    /\ length out = slice_count (row Sample.lhs 0).
Proof.
  destruct sample_rows_valid as (Hlhs0 & Hrhs1 & _).
  destruct (slice_difference_is_a_new_row Sample.two_store (row Sample.lhs 0)
              (row Sample.rhs 1) Hlhs0 Hrhs1)
    as (b & bo & l & out & _ & _ & _ & Hrun & Hlen & _); [sample..|].
  exists l, out. split; [exact Hrun|exact Hlen].
Defined.

(** X21 at the two rows of [Sample.lhs]. *)
Lemma slice_compound_assignment_witness :
  exists b',
    Slice.add_assign (row Sample.lhs 0) (row Sample.lhs 1) Sample.two_store
    = Ok (row Sample.lhs 0, <[slice_block (row Sample.lhs 0) := b']> Sample.two_store)
    /\ length b' = 6%nat.
Proof.
  destruct sample_rows_valid as (Hlhs0 & _ & Hlhs1).
  destruct (slice_compound_assignment_values Sample.two_store (row Sample.lhs 0)
              (row Sample.lhs 1) Hlhs0 Hlhs1)
    as (b & bo & Hb & _ & Hassign); [sample|sample|sample|right; sample|].
  destruct (Hassign Slice.add_assign (fun x y => x + y)%Qc) as (b' & Hrun & Hlen & _).
  { apply list_elem_of_further, list_elem_of_here. }
  exists b'. split; [exact Hrun|]. rewrite Hlen.
  assert (Sample.two_store !! slice_block (row Sample.lhs 0) = Some Sample.lhs_elements)
    as Hb' by reflexivity.
  rewrite Hb' in Hb. injection Hb as <-. reflexivity.
Defined.

(** X22 at [Sample.lhs]. *)
Lemma slice_index_witness :
  exists x,
    entry Sample.two_store Sample.lhs 0 (1 + 1) = Some x
    /\ Slice.operator_index (col Sample.lhs 1) 1 Sample.two_store = Ok (x, Sample.two_store).
Proof.
  destruct (slice_index_ignores_the_stride Sample.two_store Sample.lhs Sample.lhs_elements)
    as [_ Hcol]; [sample|].
  apply (Hcol 1%nat 1%nat); sample.
Defined.



(** X26 at [Sample.lhs]. *)
Lemma clone_and_view_witness :
  (exists copy h1 h2,
     clone Sample.lhs Sample.two_store = Ok (copy, h1)
     /\ setConstant copy (Q2Qc 7) h1 = Ok (tt, h2)
     /\ contents h2 Sample.lhs = Some Sample.lhs_elements)
  /\ exists h2,
       setConstant (Matrix_view 1%positive 2 3) (Q2Qc 7) Sample.two_store = Ok (tt, h2)
       /\ contents h2 Sample.lhs = Some (replicate 6 (Q2Qc 7)).
Proof.
  destruct (clone_is_deep_and_a_view_is_shallow Sample.two_store Sample.lhs
              Sample.lhs_elements (Q2Qc 7)) as [Hdeep Hshallow]; [sample|].
  split; [|exact Hshallow].
  destruct Hdeep as (copy & h1 & h2 & Hclone & Hfill & _ & Hkept).
  exists copy, h1, h2. split; [exact Hclone|]. split; [exact Hfill|exact Hkept].
Defined.

(** X27 at [Sample.lhs] and [Sample.rhs]. *)
Lemma dot_as_product_witness :
  exists d product h',
    dot Sample.lhs Sample.rhs Sample.two_store = Ok (d, Sample.two_store)
    /\ multiply (Matrix_view 1%positive 1 6) (Matrix_view 2%positive 6 1) Sample.two_store
       = Ok (product, h')
    /\ entry h' product 0 0 = Some d.
Proof.
  destruct (dot_is_a_row_times_a_column Sample.two_store Sample.lhs Sample.rhs
              Sample.lhs_elements Sample.rhs_elements)
    as (d & product & h' & Hdot & Hmul & _ & _ & Hentry); [sample..|].
  exists d, product, h'. split; [exact Hdot|]. split; [exact Hmul|exact Hentry].
Defined.

(** X28 at a 2 x 3 and a 3 x 2 matrix. *)
Lemma transpose_of_a_product_witness :
  exists whole h1 parts h2,
    (run ab <- multiply Sample.lhs Sample.rhs_3x2; transpose ab) Sample.two_store
    = Ok (whole, h1)
    /\ (run bt <- transpose Sample.rhs_3x2; run at' <- transpose Sample.lhs; multiply bt at')
         Sample.two_store = Ok (parts, h2)
    /\ forall l r, (l < 2)%nat -> (r < 2)%nat ->
         exists x, entry h1 whole l r = Some x /\ entry h2 parts l r = Some x.
Proof.
  destruct (transpose_of_a_product Sample.two_store Sample.lhs Sample.rhs_3x2
              Sample.lhs_elements Sample.rhs_elements)
    as (whole & h1 & parts & h2 & Hwhole & Hparts & _ & _ & _ & _ & Hsame); [sample..|].
  exists whole, h1, parts, h2. split; [exact Hwhole|]. split; [exact Hparts|exact Hsame].
Defined.

(** X29 at [Sample.lhs], with the opposite as conversion. *)
Lemma cast_witness :
  exists copy mem',
    cast (fun x => - x)%Qc Sample.lhs Sample.two_store Sample.two_store = Ok (copy, mem')
    /\ forall r c, (r < 2)%nat -> (c < 3)%nat ->
         entry mem' copy r c
         = (fun x => - x)%Qc <$> entry Sample.two_store Sample.lhs r c.
Proof.
  destruct (cast_converts_a_deep_copy (fun x => - x)%Qc Sample.lhs Sample.two_store
              Sample.lhs_elements Sample.two_store)
    as (copy & mem' & Hrun & _ & _ & _ & _ & Hentries); [sample|].
  exists copy, mem'. split; [exact Hrun|exact Hentries].
Defined.

(** X30 at [Sample.lhs]. *)
Lemma cast_is_clone_witness :
  cast (fun x => x) Sample.lhs Sample.two_store Sample.two_store
  = clone Sample.lhs Sample.two_store.
Proof.
  apply (cast_to_the_same_type_is_clone Sample.lhs Sample.two_store Sample.lhs_elements).
  sample.
Defined.
